(** * MultiGridEnv: a shallow embedding of [DQN/minigrid/environment.py]

    The multi-agent grid environment is embedded as pure functions over an
    explicit environment record.  Python objects that are shared between
    containers (a [Goal] sits both in the grid and in [self.goals]) live in
    stores and are referred to by index, so that a mutation through one
    alias is seen through the other.  Exceptions are values of an error
    monad; the unbounded rejection-sampling loop takes fuel.

    Numbers: coordinates and counters are integers; rewards, [gamma] and
    [max_edge_dist] are Python floats and are modelled by exact rationals.
    Where the rounding of a reward to a double matters, [_reward64] rounds
    as Python does.  The floats of [_get_edge_positions], which are
    truncated to cell indices, are IEEE 754 doubles, as in Python. *)

From Stdlib Require Import ZArith QArith Qabs Qpower Qround Lia Lqa.
From Stdlib Require PrimFloat FloatOps SpecFloat Uint63.
From stdpp Require Import gmap list sorting.

Local Open Scope Z_scope.

(** ** Exceptions *)

Inductive error : Type :=
  | BoundsError        (* a grid access outside the grid *)
  | IndexError         (* [self.agents[i]] past the end of the list *)
  | ValueError         (* raised by [_handle_overlap] and by numpy's [integers] *)
  | ZeroDivisionError  (* Python's [/] with a zero divisor *)
  | DanglingRef.       (* a store index with no object: no Python counterpart *)

Inductive result (A : Type) : Type :=
  | Ok (a : A)
  | Err (e : error).
Arguments Ok {A} a.
Arguments Err {A} e.

#[global] Instance result_ret : MRet result := fun _ a => Ok a.
#[global] Instance result_bind : MBind result := fun _ _ f m =>
  match m with Ok a => f a | Err e => Err e end.

Definition of_option {A} (e : error) (o : option A) : result A :=
  match o with Some a => Ok a | None => Err e end.

(** ** World objects ([minigrid.world]) *)

Definition pos : Type := (Z * Z)%type.

(** What a grid cell holds: a reference to a goal of [self.goals], a
    reference to an obstacle of [self.obstacles], or a wall. *)
Inductive WorldObj : Type :=
  | GoalRef (g : nat)
  | ObstacleRef (o : nat)
  | WallObj.

#[global] Instance WorldObj_eq_dec : EqDecision WorldObj.
Proof. solve_decision. Defined.

Inductive GoalColor : Type := green | grey.

Record GoalObj : Type := mkGoal {
  goal_cur_pos : pos;
  collected : bool;
  color : GoalColor
}.

Record Agent : Type := mkAgent {
  init_pos : pos;
  cur_pos : pos;
  direction : Z;
  obs : list Z;           (* the last observation vector *)
  agent_goals : list nat  (* [agent.goals]: the goals of the last observation *)
}.

(** [utils.Actions]: the four intents [step] compares an action with. *)
Inductive Actions : Type := up | down | left | right.

Inductive Entity : Type :=
  | AgentEntity (i : nat)
  | ObstacleEntity (o : nat).

(** ** The grid ([minigrid.grid]) *)

Module Grid.

(** Modelled from the spec: the class [Grid] of [minigrid/grid.py] is not
    among the sources.  Section 4.1 gives its contract: two parallel maps
    from coordinates, one for the static content of a cell and one for the
    agent standing on it, and an access outside the grid fails with a
    BoundsError. *)
Record t : Type := mk {
  width : Z;
  height : Z;
  cells : gmap (Z * Z) WorldObj;
  agent_cells : gmap (Z * Z) nat
}.

(** Modelled from the spec: [Grid(width, height)], every cell empty. *)
Definition new (w h : Z) : t := mk w h ∅ ∅.

Definition in_bounds (g : t) (x y : Z) : bool :=
  (0 <=? x) && (x <? width g) && (0 <=? y) && (y <? height g).

(** Modelled from the spec: [get(pos) -> content|empty]. *)
Definition get (g : t) (x y : Z) : result (option WorldObj) :=
  if in_bounds g x y then Ok (cells g !! (x, y)) else Err BoundsError.

(** Modelled from the spec: [set(pos, content)]. *)
Definition set (g : t) (x y : Z) (v : option WorldObj) : result t :=
  if in_bounds g x y
  then Ok (mk (width g) (height g)
              (match v with
               | Some o => <[(x, y) := o]> (cells g)
               | None => delete (x, y) (cells g)
               end)
              (agent_cells g))
  else Err BoundsError.

(** Modelled from the spec: [get_agent(pos) -> agent|none]. *)
Definition get_agent (g : t) (x y : Z) : result (option nat) :=
  if in_bounds g x y then Ok (agent_cells g !! (x, y)) else Err BoundsError.

(** Modelled from the spec: [set_agent(pos, agent|none)]. *)
Definition set_agent (g : t) (x y : Z) (a : option nat) : result t :=
  if in_bounds g x y
  then Ok (mk (width g) (height g) (cells g)
              (match a with
               | Some i => <[(x, y) := i]> (agent_cells g)
               | None => delete (x, y) (agent_cells g)
               end))
  else Err BoundsError.

(** Modelled from the spec: [wall_rect] stamps a wall on every boundary
    cell of the rectangle (section 4.2, "Perimeter"). *)
Definition wall_cells (x y w h : Z) : list (Z * Z) :=
  ((λ i, (i, y)) <$> seqZ x w) ++ ((λ i, (i, y + h - 1)) <$> seqZ x w) ++
  ((λ j, (x, j)) <$> seqZ y h) ++ ((λ j, (x + w - 1, j)) <$> seqZ y h).

Definition wall_rect (g : t) (x y w h : Z) : result t :=
  foldl (λ (r : result t) (c : Z * Z), g' ← r; set g' c.1 c.2 (Some WallObj))
        (Ok g) (wall_cells x y w h).

End Grid.

(** ** The environment *)

(** The constructor's [args], fixed for the life of the environment. *)
Record Config : Type := mkConfig {
  grid_size : Z;
  num_goals : Z;
  episode_steps : Z;
  num_obstacles : Z;
  max_edge_dist : Q;
  gamma : Q;
  reward_goal : Q;
  penalty_obstacle : Q;
  penalty_goal : Q;
  penalty_invalid_move : Q
}.

Record Env : Type := mkEnv {
  args : Config;
  agents : list Agent;
  goals : list GoalObj;
  obstacles : list pos;
  entities : list Entity;
  step_count : nat;
  num_collected : nat;
  grid : Grid.t;
  seen_cells : list (list bool)
}.

Definition width (st : Env) : Z := grid_size (args st).
Definition height (st : Env) : Z := grid_size (args st).
Definition max_steps (st : Env) : Z := episode_steps (args st).
Definition total_cells (st : Env) : Z := (width st - 2) * (height st - 2).

Definition set_agents (st : Env) (l : list Agent) : Env :=
  mkEnv (args st) l (goals st) (obstacles st) (entities st) (step_count st)
        (num_collected st) (grid st) (seen_cells st).
Definition set_goals (st : Env) (l : list GoalObj) : Env :=
  mkEnv (args st) (agents st) l (obstacles st) (entities st) (step_count st)
        (num_collected st) (grid st) (seen_cells st).
Definition set_obstacles (st : Env) (l : list pos) : Env :=
  mkEnv (args st) (agents st) (goals st) l (entities st) (step_count st)
        (num_collected st) (grid st) (seen_cells st).
Definition set_entities (st : Env) (l : list Entity) : Env :=
  mkEnv (args st) (agents st) (goals st) (obstacles st) l (step_count st)
        (num_collected st) (grid st) (seen_cells st).
Definition set_step_count (st : Env) (n : nat) : Env :=
  mkEnv (args st) (agents st) (goals st) (obstacles st) (entities st) n
        (num_collected st) (grid st) (seen_cells st).
Definition set_num_collected (st : Env) (n : nat) : Env :=
  mkEnv (args st) (agents st) (goals st) (obstacles st) (entities st)
        (step_count st) n (grid st) (seen_cells st).
Definition set_grid (st : Env) (g : Grid.t) : Env :=
  mkEnv (args st) (agents st) (goals st) (obstacles st) (entities st)
        (step_count st) (num_collected st) g (seen_cells st).
Definition set_seen_cells (st : Env) (m : list (list bool)) : Env :=
  mkEnv (args st) (agents st) (goals st) (obstacles st) (entities st)
        (step_count st) (num_collected st) (grid st) m.

Definition set_cur_pos (a : Agent) (p : pos) : Agent :=
  mkAgent (init_pos a) p (direction a) (obs a) (agent_goals a).

(** [__init__]: counters at zero, an empty grid, nothing seen. *)
Definition init (cfg : Config) (ags : list Agent) : Env :=
  mkEnv cfg ags [] [] [] 0%nat 0%nat
        (Grid.new (grid_size cfg) (grid_size cfg))
        (replicate (Z.to_nat (grid_size cfg - 2))
                   (replicate (Z.to_nat (grid_size cfg - 2)) false)).

(** ** Reward shaping *)

(** [_reward]: [reward * (self.gamma ** self.step_count)], the exact value.
    The double that Python computes is [_reward64] below. *)
Definition shaped (g : Q) (t : nat) (r : Q) : Q := (r * g ^ Z.of_nat t)%Q.

Definition _reward (st : Env) (reward : Q) : Q :=
  shaped (gamma (args st)) (step_count st) reward.

(** ** Rewards as doubles *)

(** Python's floats are IEEE 754 doubles: the result of [*] is the nearest
    double to the exact product, ties going to the even significand, and
    [**] is C's [pow], taken here to round the exact power in the same way.
    Doubles are rationals; the infinities and nan are left out, and so is
    overflow, which a product with a power of a [gamma] below 1 cannot
    reach.  [Qlog2 x] is the integer part of the binary logarithm of a
    positive rational. *)
Definition Qlog2 (x : Q) : Z :=
  let k := Z.log2 (Qnum x) - Z.log2 (Z.pos (Qden x)) in
  if Qle_bool (2 ^ k) x then k else k - 1.

(** The nearest integer, the even one of two that are as near. *)
Definition round_half_even (x : Q) : Z :=
  let f := Qfloor x in
  match (x - inject_Z f ?= 1 # 2)%Q with
  | Lt => f
  | Gt => f + 1
  | Eq => if Z.even f then f else f + 1
  end.

(** The nearest double to a positive rational: a significand of 53 bits
    over the exponent of the leading bit, and no exponent below that of the
    subnormals, so that what is nearer to 0 than to 2^-1074 becomes 0. *)
Definition round_pos (x : Q) : Q :=
  let e := Z.max (Qlog2 x - 52) (-1074) in
  (inject_Z (round_half_even (x / 2 ^ e)) * 2 ^ e)%Q.

(** The nearest double to a rational, sign and magnitude. *)
Definition round64 (x : Q) : Q :=
  match (x ?= 0)%Q with
  | Eq => 0%Q
  | Gt => round_pos x
  | Lt => (- round_pos (- x))%Q
  end.

(** [reward * (self.gamma ** self.step_count)] as Python computes it: the
    power is rounded to a double, and so is the product. *)
Definition shaped64 (g : Q) (t : nat) (r : Q) : Q :=
  round64 (r * round64 (g ^ Z.of_nat t)).

Definition _reward64 (st : Env) (reward : Q) : Q :=
  shaped64 (gamma (args st)) (step_count st) reward.

(** ** Distances *)

(** [math.sqrt(dx**2 + dy**2) <= self.max_edge_dist], decided on the squares:
    the root of a natural number is at most [d] exactly when [d] is not
    negative and the number is at most [d * d]. *)
Definition dist2 (p q : pos) : Z := (p.1 - q.1) ^ 2 + (p.2 - q.2) ^ 2.

Definition within_edge_dist (d : Q) (n : Z) : bool :=
  Qle_bool 0 d && Qle_bool (inject_Z n) (d * d).

(** ** The observation builder *)

(** An entry of [goals_in_fov]: the goal (its index in [self.goals] and the
    object read through it) and its distance.  The sort key is the squared
    distance: the root is increasing, so the order is that of [dist]. *)
Definition fov_entry : Type := (nat * GoalObj * Z)%type.

Definition fov_goal (e : fov_entry) : GoalObj := e.1.2.
Definition fov_index (e : fov_entry) : nat := e.1.1.
Definition fov_dist2 (e : fov_entry) : Z := e.2.

Definition in_fov (st : Env) (a : Agent) (g : GoalObj) : bool :=
  within_edge_dist (max_edge_dist (args st)) (dist2 (cur_pos a) (goal_cur_pos g))
  && negb (collected g).

(** The loop [for goal in self.goals: ... goals_in_fov.append((goal, dist))]. *)
Definition scan_goals (st : Env) (a : Agent) : list fov_entry :=
  foldl (λ (acc : list fov_entry) (kg : nat * GoalObj),
           if in_fov st a kg.2
           then acc ++ [(kg.1, kg.2, dist2 (cur_pos a) (goal_cur_pos kg.2))]
           else acc)
        [] (imap pair (goals st)).

(** [list.sort(key=...)] is stable; so is insertion in front of the first
    entry that is not nearer, from the last entry of the list to the first. *)
Fixpoint insert_by_dist (x : fov_entry) (l : list fov_entry) : list fov_entry :=
  match l with
  | [] => [x]
  | y :: l' =>
      if fov_dist2 x <=? fov_dist2 y then x :: y :: l'
      else y :: insert_by_dist x l'
  end.

Fixpoint sort_by_dist (l : list fov_entry) : list fov_entry :=
  match l with
  | [] => []
  | x :: l' => insert_by_dist x (sort_by_dist l')
  end.

(** [goals_in_fov] after the sort and the slice [[:3]]. *)
Definition goals_in_fov (st : Env) (a : Agent) : list fov_entry :=
  take 3 (sort_by_dist (scan_goals st a)).

(** The loop that extends [obs] with each goal's position and flag. *)
Definition extend_goals (o : list Z) (sel : list fov_entry) : list Z :=
  foldl (λ (acc : list Z) (e : fov_entry),
           (acc ++ [(goal_cur_pos (fov_goal e)).1; (goal_cur_pos (fov_goal e)).2])
           ++ [Z.b2z (collected (fov_goal e))])
        o sel.

(** [[0, 0, 0] * (3 - num_goals)]: a count that is not positive gives []. *)
Definition padding (num_goals : nat) : list Z :=
  mjoin (replicate (3 - num_goals) [0; 0; 0]).

Definition obs_vector (st : Env) (a : Agent) : list Z :=
  let sel := goals_in_fov st a in
  extend_goals [(cur_pos a).1; (cur_pos a).2] sel ++ padding (length sel).

(** [_get_obs]: the vector, and the agent with [agent.goals] and
    [agent.obs] updated. *)
Definition _get_obs (st : Env) (a : Agent) : list Z * Agent :=
  let sel := goals_in_fov st a in
  let o := obs_vector st a in
  (o, mkAgent (init_pos a) (cur_pos a) (direction a) o (fov_index <$> sel)).

(** [for agent in self.agents: obs.append(self._get_obs(agent))], the last
    loop of both [reset] and [step].  An observation reads its own agent's
    position and the goals, none of which the loop changes. *)
Definition observe_agents (st : Env) : list (list Z) * Env :=
  let r := _get_obs st <$> agents st in
  (r.*1, set_agents st (r.*2)).

(** ** The coverage tracker *)

(** [self.seen_cells[a, b] = True]; the loops below stay inside the
    matrix's shape, that [__init__] fixes to the same bounds. *)
Definition mark_seen (m : list (list bool)) (a b : nat) : list (list bool) :=
  alter (λ row, <[b := true]> row) a m.

(** The inner loop over the agents, left at the first one close enough. *)
Definition any_agent_sees (st : Env) (i j : Z) : bool :=
  existsb (λ agent, within_edge_dist (max_edge_dist (args st))
                                     (dist2 (i, j) (cur_pos agent)))
          (agents st).

Definition _update_seen_cells (st : Env) : Env :=
  set_seen_cells st
    (foldl (λ (m : list (list bool)) (i : Z),
              foldl (λ (m' : list (list bool)) (j : Z),
                       if any_agent_sees st i j
                       then mark_seen m' (Z.to_nat (i - 1)) (Z.to_nat (j - 1))
                       else m')
                    m (seqZ 1 (height st - 2)))
           (seen_cells st) (seqZ 1 (width st - 2))).

Fixpoint count_true (l : list bool) : nat :=
  match l with
  | [] => 0%nat
  | b :: l' => ((if b then 1 else 0) + count_true l')%nat
  end.

(** [np.sum(self.seen_cells)] *)
Definition sum_seen (m : list (list bool)) : nat := sum_list (count_true <$> m).

(** [np.sum(self.seen_cells) / self.total_cells * 100].  With no interior
    cell numpy gives nan, the rational model 0. *)
Definition _calculate_seen_percentage (st : Env) : Q :=
  (inject_Z (Z.of_nat (sum_seen (seen_cells st))) / inject_Z (total_cells st)
   * 100)%Q.

(** ** The move resolver *)

(** What [step] returns as [info]. *)
Inductive Info : Type :=
  | InfoDone (goals_collected : nat) (goals_percentage seen_percentage : Q)
  | InfoRunning (seen_percentage : Q).

Record StepResult : Type := mkStepResult {
  res_obs : list (list Z);
  res_rewards : list Q;
  res_dones : list bool;
  res_info : Info
}.

Definition new_pos (action : Actions) (agent_pos : pos) : pos :=
  match action with
  | up => (agent_pos.1, agent_pos.2 - 1)
  | down => (agent_pos.1, agent_pos.2 + 1)
  | left => (agent_pos.1 - 1, agent_pos.2)
  | right => (agent_pos.1 + 1, agent_pos.2)
  end.

(** The three statements that end both the free move and
    [_handle_overlap]: the agent is set at the new cell, its old cell is
    cleared, and its position is updated. *)
Definition relocate (st : Env) (i : nat) (p : pos) : result Env :=
  a ← of_option IndexError (agents st !! i);
  g1 ← Grid.set_agent (grid st) p.1 p.2 (Some i);
  g2 ← Grid.set_agent g1 (cur_pos a).1 (cur_pos a).2 None;
  Ok (set_agents (set_grid st g2) (<[i := set_cur_pos a p]> (agents st))).

(** The per-agent test of [step]:
    [self.step_count >= self.max_steps or self.num_collected >= self.num_goals]. *)
Definition agent_done (st : Env) : bool :=
  (max_steps st <=? Z.of_nat (step_count st))
  || (num_goals (args st) <=? Z.of_nat (num_collected st)).

(** Modelled from the spec: [Obstacle.can_overlap()] of [minigrid/world.py],
    which is not among the sources.  The data model has the flag "true for
    Goal, false for Obstacle/Wall/occupied-by-other-Agent" and lets an agent
    stand "never on a wall or obstacle cell" (section 3), and the move
    resolver lists the obstacle with the invalid moves (section 4.3). *)
Module Obstacle.
Definition can_overlap : bool := false.
End Obstacle.

Section MoveResolver.

(** [Obstacle.can_overlap()] of [minigrid/world.py], which is not among the
    sources.  The spec gives it both ways (false in its data model,
    overlappable in section 4.4), so the resolver is parametric in it. *)
Variable obstacle_can_overlap : bool.

(** Modelled from the spec: [can_overlap] is true for a goal and false for
    a wall (section 3). *)
Definition can_overlap (c : WorldObj) : bool :=
  match c with
  | GoalRef _ => true
  | ObstacleRef _ => obstacle_can_overlap
  | WallObj => false
  end.

Definition _handle_overlap (st : Env) (i : nat) (fwd_pos : pos)
    (fwd_cell : WorldObj) : result (Q * Env) :=
  '(reward, st1) ←
    match fwd_cell with
    | GoalRef k =>
        g ← of_option DanglingRef (goals st !! k);
        if negb (collected g)
        then Ok (_reward st (reward_goal (args st)),
                 set_num_collected
                   (set_goals st (<[k := mkGoal (goal_cur_pos g) true grey]> (goals st)))
                   (S (num_collected st)))
        else Ok (_reward st (penalty_goal (args st)), st)
    | ObstacleRef _ => Ok (_reward st (penalty_obstacle (args st)), st)
    | WallObj => Err ValueError
    end;
  st2 ← relocate st1 i fwd_pos;
  Ok (reward, st2).

(** The body of the loop of [step] up to the done test: the state and the
    rewards after agent [i]'s move is resolved. *)
Definition resolve_move (st : Env) (rewards : list Q) (i : nat)
    (action : Actions) : result (Env * list Q) :=
  a ← of_option IndexError (agents st !! i);
  let p := new_pos action (cur_pos a) in
  cell ← Grid.get (grid st) p.1 p.2;
  agent ← Grid.get_agent (grid st) p.1 p.2;
  if bool_decide (cell = None) && bool_decide (agent = None)
     && (0 <=? p.1) && (p.1 <? width st) && (0 <=? p.2) && (p.2 <? height st)
  then st' ← relocate st i p; Ok (st', rewards)
  else
    match cell with
    | Some c =>
        if can_overlap c
        then '(r, st') ← _handle_overlap st i p c; Ok (st', <[i := r]> rewards)
        else Ok (st, <[i := _reward st (-5)]> rewards)
    | None => Ok (st, <[i := _reward st (-5)]> rewards)
    end.

(** [for i, action in enumerate(actions)], from index [i] on. *)
Fixpoint step_loop (i : nat) (actions : list Actions)
    (s : Env * list Q * list bool) : result (Env * list Q * list bool) :=
  match actions with
  | [] => Ok s
  | action :: rest =>
      '(st', rewards') ← resolve_move s.1.1 s.1.2 i action;
      step_loop (S i) rest
        (st', rewards', if agent_done st' then <[i := true]> s.2 else s.2)
  end.

(** [any(dones)] *)
Definition any (l : list bool) : bool := existsb id l.

Definition step (st : Env) (actions : list Actions) : result (StepResult * Env) :=
  let n := length (agents st) in
  let st0 := set_step_count st (S (step_count st)) in
  '(st1, rewards, dones0) ← step_loop 0 actions (st0, replicate n 0%Q, replicate n false);
  let dones := (λ d : bool, if any dones0 then true else d) <$> dones0 in
  let st2 := _update_seen_cells st1 in
  let seen_percentage := _calculate_seen_percentage st2 in
  info ←
    (if any dones
     then if num_goals (args st2) =? 0 then Err ZeroDivisionError
          else Ok (InfoDone (num_collected st2)
                            (inject_Z (Z.of_nat (num_collected st2))
                             / inject_Z (num_goals (args st2)) * 100)%Q
                            seen_percentage)
     else Ok (InfoRunning seen_percentage));
  let '(observations, st3) := observe_agents st2 in
  Ok (mkStepResult observations rewards dones info, st3).

(** Several ticks in a row, each with its vector of actions. *)
Fixpoint run (st : Env) (ticks : list (list Actions)) : result Env :=
  match ticks with
  | [] => Ok st
  | actions :: rest => '(_, st') ← step st actions; run st' rest
  end.

End MoveResolver.

(** ** The placement planner *)

(** [self.np_random]: a sequence of raw draws and the number consumed. *)
Record Rng : Type := mkRng {
  draws : nat → nat;
  cursor : nat
}.

(** [np_random.integers(low, high)]: a value of [low, high), a ValueError
    when the range is empty. *)
Definition integers (low high : Z) (r : Rng) : result (Z * Rng) :=
  if low <? high
  then Ok (low + Z.of_nat (draws r (cursor r)) `mod` (high - low),
           mkRng (draws r) (S (cursor r)))
  else Err ValueError.

Definition _rand_pos (xLow xHigh yLow yHigh : Z) (r : Rng) : result (pos * Rng) :=
  '(x, r1) ← integers xLow xHigh r;
  '(y, r2) ← integers yLow yHigh r1;
  Ok ((x, y), r2).

(** The object handed to [_place_object]: [Goal()] or [Obstacle()]. *)
Inductive NewObj : Type := NewGoal | NewObstacle.

Definition _place_agent (st : Env) (i : nat) (x y : Z) : result Env :=
  a ← of_option IndexError (agents st !! i);
  g ← Grid.set_agent (grid st) x y (Some i);
  Ok (set_entities
        (set_grid (set_agents st (<[i := mkAgent (x, y) (x, y) 3 (obs a) (agent_goals a)]> (agents st))) g)
        (entities st ++ [AgentEntity i])).

(** The object set at an empty cell and recorded in the lists.  A fresh
    [Goal()] is not collected (section 3 of the spec) and has the colour
    that [encode] tests for. *)
Definition put_object (st : Env) (obj : NewObj) (x y : Z) : result Env :=
  match obj with
  | NewGoal =>
      g ← Grid.set (grid st) x y (Some (GoalRef (length (goals st))));
      Ok (set_goals (set_grid st g) (goals st ++ [mkGoal (x, y) false green]))
  | NewObstacle =>
      g ← Grid.set (grid st) x y (Some (ObstacleRef (length (obstacles st))));
      Ok (set_obstacles
            (set_entities (set_grid st g)
               (entities st ++ [ObstacleEntity (length (obstacles st))]))
            (obstacles st ++ [(x, y)]))
  end.

(** [_place_object]: [while True], with [fuel] bounding the number of
    samples.  [None] is a loop still running when the fuel is spent;
    [Some (Err e)] an exception; [Some (Ok _)] the [break]. *)
Fixpoint _place_object (fuel : nat) (r : Rng) (st : Env) (obj : NewObj)
    : option (result (Env * Rng)) :=
  match fuel with
  | O => None
  | S fuel' =>
      match _rand_pos 1 (width st - 2) 1 (height st - 2) r with
      | Err e => Some (Err e)
      | Ok (p, r') =>
          match Grid.get (grid st) p.1 p.2 with
          | Err e => Some (Err e)
          | Ok (Some _) => _place_object fuel' r' st obj
          | Ok None =>
              Some (st' ← put_object st obj p.1 p.2; Ok (st', r'))
          end
      end
  end.

(** Running or not, raising or not: the outcomes of code that loops. *)
Definition loop_bind {A B} (m : option (result A))
    (f : A → option (result B)) : option (result B) :=
  match m with
  | None => None
  | Some (Err e) => Some (Err e)
  | Some (Ok a) => f a
  end.

(** [for _ in range(n): self._place_object(obj)] *)
Fixpoint place_objects (fuel n : nat) (obj : NewObj) (s : Env * Rng)
    : option (result (Env * Rng)) :=
  match n with
  | O => Some (Ok s)
  | S n' => loop_bind (_place_object fuel s.2 s.1 obj) (place_objects fuel n' obj)
  end.

Section Reset.

(** [_get_edge_positions] spaces more than four agents along the walls
    with a floating-point step ([total_edge_length / num_agents], summed
    and truncated).  No property below depends on it; it is left
    abstract rather than rounded by a model. *)
Variable _get_edge_positions : Z → Z → nat → result (list pos).

(** [for agent, pos in zip(self.agents, positions)] *)
Definition place_agents (st : Env) (positions : list pos) : result Env :=
  foldl (λ (r : result Env) (ip : nat * pos),
           st' ← r; _place_agent st' ip.1 ip.2.1 ip.2.2)
        (Ok st) (imap pair (take (length (agents st)) positions)).

Definition _gen_grid (fuel : nat) (r : Rng) (st : Env) (w h : Z)
    : option (result (Env * Rng)) :=
  loop_bind
    (Some (g ← Grid.wall_rect (Grid.new w h) 0 0 w h;
           let st0 := set_grid st g in
           match length (agents st) with
           | 1%nat => _place_agent st0 0 (w `div` 2) (h - 2)
           | 2%nat => place_agents st0 [(1, h - 2); (w - 2, h - 2)]
           | 3%nat => place_agents st0 [(1, h - 2); (w - 2, h - 2); (w `div` 2, 1)]
           | 4%nat => place_agents st0 [(1, 1); (w - 2, 1); (1, h - 2); (w - 2, h - 2)]
           | n => positions ← _get_edge_positions w h n; place_agents st0 positions
           end))
    (λ st1,
       loop_bind (place_objects fuel (Z.to_nat (num_goals (args st))) NewGoal (st1, r))
                 (place_objects fuel (Z.to_nat (num_obstacles (args st))) NewObstacle)).

(** [reset]: the lists and counters are cleared, nothing is seen, the grid
    is generated anew and every agent observes.  [agent.reset()] is
    [minigrid.world]'s; whatever it does to an agent's position, direction,
    observation and goals, [_place_agent] and [_get_obs] overwrite them
    before [reset] returns.  [r] is the generator that
    [super().reset(seed=...)] seeds. *)
Definition reset (fuel : nat) (r : Rng) (st : Env)
    : option (result (list (list Z) * Env * Rng)) :=
  let st0 :=
    mkEnv (args st) (agents st) [] [] [] 0%nat 0%nat (grid st)
          ((λ row : list bool, (λ _ : bool, false) <$> row) <$> seen_cells st) in
  loop_bind (_gen_grid fuel r st0 (width st0) (height st0))
    (λ s, let '(observations, st1) := observe_agents s.1 in
          Some (Ok (observations, st1, s.2))).

End Reset.

(** ** The sampling helpers *)

(** [_rand_int]: [self.np_random.integers(low, high)]. *)
Definition _rand_int (low high : Z) (r : Rng) : result (Z * Rng) :=
  integers low high r.

(** [_rand_bool]: [self.np_random.integers(0, 2) == 0]. *)
Definition _rand_bool (r : Rng) : result (bool * Rng) :=
  '(v, r') ← integers 0 2 r;
  Ok (v =? 0, r').

(** [_rand_elem]: [lst[self._rand_int(0, len(lst))]]. *)
Definition _rand_elem {T} (lst : list T) (r : Rng) : result (T * Rng) :=
  '(idx, r') ← _rand_int 0 (Z.of_nat (length lst)) r;
  x ← of_option IndexError (lst !! Z.to_nat idx);
  Ok (x, r').

(** [lst.remove(elem)]: the first element equal to [elem] is taken out;
    [None] is Python's ValueError when there is none. *)
Fixpoint list_remove {T} `{EqDecision T} (elem : T) (lst : list T)
    : option (list T) :=
  match lst with
  | [] => None
  | y :: lst' =>
      if decide (y = elem) then Some lst'
      else cons y <$> list_remove elem lst'
  end.

(** The loop of [_rand_subset], [while len(out) < num_elems], with [fuel]
    bounding the number of passes. *)
Fixpoint rand_subset_loop {T} `{EqDecision T} (fuel : nat) (lst out : list T)
    (num_elems : Z) (r : Rng) : option (result (list T * Rng)) :=
  if Z.of_nat (length out) <? num_elems
  then match fuel with
       | O => None
       | S fuel' =>
           match _rand_elem lst r with
           | Err e => Some (Err e)
           | Ok (elem, r') =>
               match list_remove elem lst with
               | None => Some (Err ValueError)
               | Some lst' =>
                   rand_subset_loop fuel' lst' (out ++ [elem]) num_elems r'
               end
           end
       end
  else Some (Ok (out, r)).

(** A call that starts with an [assert]. *)
Inductive asserted (A : Type) : Type :=
  | AssertionError
  | Asserted (a : A).
Arguments AssertionError {A}.
Arguments Asserted {A} a.

(** [_rand_subset]: [assert num_elems <= len(lst)], then the loop. *)
Definition _rand_subset {T} `{EqDecision T} (fuel : nat) (lst : list T)
    (num_elems : Z) (r : Rng) : asserted (option (result (list T * Rng))) :=
  if num_elems <=? Z.of_nat (length lst)
  then Asserted (rand_subset_loop fuel lst [] num_elems r)
  else AssertionError.

(** ** The cell code *)

(** What [encode] is handed as its [cell]: the static content of a grid
    cell, or an agent. *)
Inductive EncodedCell : Type :=
  | StaticCell (c : WorldObj)
  | AgentCell (i : nat).

Section Encode.

(** [cell.color == 'grey'] for an agent: the colour of an [Agent] is set in
    [minigrid/world.py], which is not among the sources. *)
Variable agent_is_grey : nat → bool.

(** [encode]: 0 for no cell, 1 for a green goal, 2 for an obstacle, a
    wall, another agent or anything grey; a ValueError otherwise. *)
Definition encode (st : Env) (cell : option EncodedCell) (agent : nat)
    : result Z :=
  match cell with
  | None => Ok 0
  | Some (StaticCell (GoalRef k)) =>
      g ← of_option DanglingRef (goals st !! k);
      match color g with
      | green => Ok 1
      | grey => Ok 2
      end
  | Some (StaticCell (ObstacleRef _)) => Ok 2
  | Some (StaticCell WallObj) => Ok 2
  | Some (AgentCell i) =>
      if bool_decide (i ≠ agent) then Ok 2
      else if agent_is_grey i then Ok 2
      else Err ValueError
  end.

End Encode.

(** ** The highlight mask of [get_full_render] *)

(** [highlight_masks] as the three loops of [get_full_render] leave it:
    [np.zeros((self.width, self.height))], then an entry set for every
    agent within [max_edge_dist] of the cell (the loop over the agents has
    no [break]).  The mask is what the method hands to [Grid.render]. *)
Definition highlight_masks (st : Env) : list (list bool) :=
  foldl (λ (m : list (list bool)) (i : Z),
           foldl (λ (m' : list (list bool)) (j : Z),
                    foldl (λ (m'' : list (list bool)) (agent : Agent),
                             if within_edge_dist (max_edge_dist (args st))
                                                 (dist2 (i, j) (cur_pos agent))
                             then mark_seen m'' (Z.to_nat i) (Z.to_nat j)
                             else m'')
                          m' (agents st))
                 m (seqZ 0 (height st)))
        (replicate (Z.to_nat (width st)) (replicate (Z.to_nat (height st)) false))
        (seqZ 0 (width st)).

(** ** Agents along the walls *)

(** The planner above is parametric in [_get_edge_positions]; this is the
    method itself, with the floats it computes with. *)

(** The cell [_get_edge_positions] appends for one [edge_pos]: the chain
    of comparisons in the body of its loop. *)
Definition edge_position (width height total_edge_length edge_pos : Z) : pos :=
  if edge_pos <? width - 2 then (edge_pos + 1, 1)
  else if edge_pos <? width + height - 4 then (width - 2, edge_pos - width + 3)
  else if edge_pos <? 2 * width + height - 6
       then (2 * width + height - 7 - edge_pos, height - 2)
       else (1, total_edge_length - edge_pos).

(** Python's floats are IEEE 754 doubles, and so are the kernel's.  An
    integer becomes the nearest double; the conversion is exact below
    2^53 in absolute value, far above any grid. *)
Definition float_of_Z (z : Z) : PrimFloat.float :=
  if z <? 0
  then PrimFloat.opp (PrimFloat.of_uint63 (Uint63.of_Z (- z)))
  else PrimFloat.of_uint63 (Uint63.of_Z z).

(** [int(x)]: the fraction is cut off; an infinity or a nan has no
    integer ([int] raises). *)
Definition int_of_float (x : PrimFloat.float) : option Z :=
  match FloatOps.Prim2SF x with
  | SpecFloat.S754_zero _ => Some 0
  | SpecFloat.S754_finite s m e =>
      let n := if 0 <=? e then Z.pos m * 2 ^ e else Z.pos m `div` 2 ^ (- e) in
      Some (if s then - n else n)
  | SpecFloat.S754_infinity _ => None
  | SpecFloat.S754_nan => None
  end.

(** The loop [for i in range(num_agents)], with [n] passes to go. *)
Fixpoint edge_positions_loop (width height total_edge_length : Z)
    (spacing : PrimFloat.float) (n : nat) (current_pos : PrimFloat.float)
    (positions : list pos) : result (list pos) :=
  match n with
  | O => Ok positions
  | S n' =>
      edge_pos ← of_option ValueError (int_of_float current_pos);
      edge_positions_loop width height total_edge_length spacing n'
        (PrimFloat.add current_pos spacing)
        (positions ++ [edge_position width height total_edge_length edge_pos])
  end.

(** [_get_edge_positions]: [total_edge_length / num_agents] is Python's
    true division, a ZeroDivisionError without agents. *)
Definition _get_edge_positions (width height : Z) (num_agents : nat)
    : result (list pos) :=
  let total_edge_length := 2 * (width - 2) + 2 * (height - 2) in
  if (num_agents =? 0)%nat then Err ZeroDivisionError
  else
    let spacing :=
      PrimFloat.div (float_of_Z total_edge_length)
                    (float_of_Z (Z.of_nat num_agents)) in
    edge_positions_loop width height total_edge_length spacing num_agents
      (float_of_Z 0) [].

(** * Vocabulary of the properties *)

(** ** Observations *)

Definition to_entry (a : Agent) (kg : nat * GoalObj) : fov_entry :=
  (kg.1, kg.2, dist2 (cur_pos a) (goal_cur_pos kg.2)).

(** The three scalars of a goal slot. *)
Definition goal_slot (e : fov_entry) : list Z :=
  [(goal_cur_pos (fov_goal e)).1; (goal_cur_pos (fov_goal e)).2;
   Z.b2z (collected (fov_goal e))].

Definition dist_le (e1 e2 : fov_entry) : Prop := fov_dist2 e1 ≤ fov_dist2 e2.

(** The goals the code lets into an observation, with their indices. *)
Definition eligible (st : Env) (a : Agent) : list (nat * GoalObj) :=
  filter (λ kg, in_fov st a kg.2 = true) (imap pair (goals st)).

(** The observation builder as section 4.5 of the spec words it: the
    distance to every tracked goal, collected or not; those within
    [max_edge_dist]; ascending; the three nearest; zero-padded. *)
Definition spec_eligible (st : Env) (a : Agent) : list (nat * GoalObj) :=
  filter (λ kg, within_edge_dist (max_edge_dist (args st))
                  (dist2 (cur_pos a) (goal_cur_pos kg.2)) = true)
         (imap pair (goals st)).

Definition spec_obs_vector (st : Env) (a : Agent) : list Z :=
  let sel := take 3 (sort_by_dist (to_entry a <$> spec_eligible st a)) in
  [(cur_pos a).1; (cur_pos a).2] ++ (sel ≫= goal_slot)
  ++ replicate (3 * (3 - length sel)) 0.

(** ** Coverage *)

Definition lookup2 (m : list (list bool)) (a b : nat) : option bool :=
  m !! a ≫= (.!! b).

(** The matrix has one row per interior column and one entry per interior
    cell, as [np.zeros((width - 2, height - 2))] makes it. *)
Definition shape_ok (st : Env) : Prop :=
  (length <$> seen_cells st) =
  replicate (Z.to_nat (width st - 2)) (Z.to_nat (height st - 2)).

(** The entries one pass of [_update_seen_cells] sets, in loop order. *)
Definition seen_marks (st : Env) : list (nat * nat) :=
  seqZ 1 (width st - 2) ≫= λ i,
    (λ j, (Z.to_nat (i - 1), Z.to_nat (j - 1))) <$>
      filter (λ j, any_agent_sees st i j = true) (seqZ 1 (height st - 2)).

Definition info_seen_percentage (i : Info) : Q :=
  match i with
  | InfoDone _ _ p => p
  | InfoRunning p => p
  end.

(** ** Moves *)

Definition same_dims (g g' : Grid.t) : Prop :=
  Grid.width g' = Grid.width g ∧ Grid.height g' = Grid.height g.

(** What a move never touches, and the one counter it can only raise. *)
Definition frame (st st' : Env) : Prop :=
  args st' = args st ∧ step_count st' = step_count st ∧
  seen_cells st' = seen_cells st ∧ length (agents st') = length (agents st) ∧
  (num_collected st ≤ num_collected st')%nat ∧ same_dims (grid st) (grid st').

(** Every agent stands where the occupancy map has it; two agents are then
    never on one cell. *)
Definition occupancy_consistent (st : Env) : Prop :=
  ∀ i a, agents st !! i = Some a →
         Grid.agent_cells (grid st) !! cur_pos a = Some i.

(** The state [step] hands to its loop: the tick counted, no reward, nobody
    done. *)
Definition loop_start (st : Env) : Env * list Q * list bool :=
  (set_step_count st (S (step_count st)),
   replicate (length (agents st)) 0%Q,
   replicate (length (agents st)) false).

(** ** Placement *)

Definition advance (r : Rng) (k : nat) : Rng := mkRng (draws r) (k + cursor r).

(** The [n]-th position the loop of [_place_object] draws from [r]. *)
Definition sample (st : Env) (r : Rng) (n : nat) : pos :=
  (1 + Z.of_nat (draws r (2 * n + cursor r)) `mod` (width st - 2 - 1),
   1 + Z.of_nat (draws r (S (2 * n + cursor r))) `mod` (height st - 2 - 1)).

Definition occupied (st : Env) (p : pos) : Prop :=
  is_Some (Grid.cells (grid st) !! p).

Definition grid_dims_ok (st : Env) : Prop :=
  Grid.width (grid st) = width st ∧ Grid.height (grid st) = height st.

(** What placing agents and objects never touches. *)
Definition placement_frame (st st' : Env) : Prop :=
  args st' = args st ∧ seen_cells st' = seen_cells st ∧
  step_count st' = step_count st ∧ num_collected st' = num_collected st ∧
  length (agents st') = length (agents st) ∧ same_dims (grid st) (grid st').

(** The goals and obstacles a configuration asks [_gen_grid] to place. *)
Definition requested (st : Env) : nat :=
  (Z.to_nat (num_goals (args st)) + Z.to_nat (num_obstacles (args st)))%nat.

(** The cells that hold the goals and the obstacles of the lists. *)
Definition object_cells (st : Env) : list pos :=
  (goal_cur_pos <$> goals st) ++ obstacles st.

(** The statements of [_gen_grid] that come before the objects: the walls
    and the agents. *)
Definition walls_and_agents (gep : Z → Z → nat → result (list pos))
    (st : Env) (w h : Z) : result Env :=
  g ← Grid.wall_rect (Grid.new w h) 0 0 w h;
  let st0 := set_grid st g in
  match length (agents st) with
  | 1%nat => _place_agent st0 0 (w `div` 2) (h - 2)
  | 2%nat => place_agents st0 [(1, h - 2); (w - 2, h - 2)]
  | 3%nat => place_agents st0 [(1, h - 2); (w - 2, h - 2); (w `div` 2, 1)]
  | 4%nat => place_agents st0 [(1, 1); (w - 2, 1); (1, h - 2); (w - 2, h - 2)]
  | n => positions ← gep w h n; place_agents st0 positions
  end.

(** [reset] neither returns nor raises, whatever the fuel, the generator
    and the placement of more than four agents. *)
Definition never_returns (st : Env) : Prop :=
  ∀ gep fuel r, reset gep fuel r st = None.

(** ** Reachable states *)

Section Reachable.

Variable obstacle_can_overlap : bool.
Variable _get_edge_positions : Z → Z → nat → result (list pos).

(** The states of an environment's life: built by [__init__], then any
    sequence of [reset] and [step] calls that return. *)
Inductive reachable : Env → Prop :=
  | reachable_init cfg ags : reachable (init cfg ags)
  | reachable_reset st fuel r observations st' r' :
      reachable st →
      reset _get_edge_positions fuel r st = Some (Ok (observations, st', r')) →
      reachable st'
  | reachable_step st actions res st' :
      reachable st →
      step obstacle_can_overlap st actions = Ok (res, st') →
      reachable st'.

End Reachable.

(** ** Reading results *)

Definition ok_value {A} (r : result A) : option A :=
  match r with
  | Ok a => Some a
  | Err _ => None
  end.

Definition positions (st : Env) : list pos := cur_pos <$> agents st.

Definition agent_at (st : Env) (p : pos) : option nat :=
  Grid.agent_cells (grid st) !! p.


(** ** The state of an episode *)

(** The cells of the outer ring of a [w] x [h] grid. *)
Definition on_perimeter (w h : Z) (p : pos) : Prop :=
  (0 ≤ p.1 < w ∧ 0 ≤ p.2 < h) ∧
  (p.1 = 0 ∨ p.1 = w - 1 ∨ p.2 = 0 ∨ p.2 = h - 1).

(** Nothing is stored outside the grid. *)
Definition cells_in_bounds (st : Env) : Prop :=
  ∀ p, is_Some (Grid.cells (grid st) !! p) →
       0 ≤ p.1 < width st ∧ 0 ≤ p.2 < height st.

(** The walls are the perimeter, no more and no less. *)
Definition walls_ok (st : Env) : Prop :=
  ∀ p, Grid.cells (grid st) !! p = Some WallObj ↔
       on_perimeter (width st) (height st) p.

(** The grid and the lists agree: a goal of [self.goals] is in the grid at
    its position, a goal in the grid is one of [self.goals] at that
    position, and the same for the obstacles. *)
Definition refs_ok (st : Env) : Prop :=
  (∀ k g, goals st !! k = Some g →
          Grid.cells (grid st) !! goal_cur_pos g = Some (GoalRef k)) ∧
  (∀ p k, Grid.cells (grid st) !! p = Some (GoalRef k) →
          ∃ g, goals st !! k = Some g ∧ goal_cur_pos g = p) ∧
  (∀ o q, obstacles st !! o = Some q →
          Grid.cells (grid st) !! q = Some (ObstacleRef o)) ∧
  (∀ p o, Grid.cells (grid st) !! p = Some (ObstacleRef o) →
          obstacles st !! o = Some p).

(** A goal is grey exactly when it is collected. *)
Definition colours_ok (st : Env) : Prop :=
  ∀ k g, goals st !! k = Some g →
         color g = if collected g then grey else green.

Definition count_collected (gs : list GoalObj) : nat :=
  length (filter (λ g, collected g = true) gs).

(** [self.num_collected] counts the collected goals. *)
Definition counter_ok (st : Env) : Prop :=
  num_collected st = count_collected (goals st).

(** As many goals and obstacles as configured. *)
Definition counts_ok (st : Env) : Prop :=
  length (goals st) = Z.to_nat (num_goals (args st)) ∧
  length (obstacles st) = Z.to_nat (num_obstacles (args st)).

Definition episode_ok (st : Env) : Prop :=
  grid_dims_ok st ∧ cells_in_bounds st ∧ walls_ok st ∧ refs_ok st ∧
  colours_ok st ∧ counter_ok st ∧ counts_ok st.

(** Every agent stands on an interior cell. *)
Definition agents_inside (st : Env) : Prop :=
  ∀ i a, agents st !! i = Some a →
         1 ≤ (cur_pos a).1 ≤ width st - 2 ∧ 1 ≤ (cur_pos a).2 ≤ height st - 2.

Section Episode.

Variable obstacle_can_overlap : bool.
Variable _get_edge_positions : Z → Z → nat → result (list pos).

(** The states of an episode: what a returning [reset] leaves, whatever the
    state it was called in, and what returning [step]s make of it. *)
Inductive in_episode : Env → Prop :=
  | episode_reset st fuel r observations st' r' :
      reset _get_edge_positions fuel r st = Some (Ok (observations, st', r')) →
      in_episode st'
  | episode_step st actions res st' :
      in_episode st →
      step obstacle_can_overlap st actions = Ok (res, st') →
      in_episode st'.

End Episode.

(** What placing an agent, or moving one, leaves alone: the configuration,
    the lists of goals and obstacles, the counter, the content of the cells
    and the size of the grid. *)
Definition same_static (st st' : Env) : Prop :=
  args st' = args st ∧ goals st' = goals st ∧ obstacles st' = obstacles st ∧
  num_collected st' = num_collected st ∧
  Grid.cells (grid st') = Grid.cells (grid st) ∧ same_dims (grid st) (grid st').

Definition static_ok (st : Env) : Prop :=
  grid_dims_ok st ∧ cells_in_bounds st ∧ walls_ok st ∧ refs_ok st ∧
  colours_ok st ∧ counter_ok st.

(** The sampler's range is [1, width - 3] x [1, height - 3]: no goal and no
    obstacle in the last interior column or row. *)
Definition in_sampled_region (st : Env) (p : pos) : Prop :=
  1 ≤ p.1 ≤ width st - 3 ∧ 1 ≤ p.2 ≤ height st - 3.

Definition objects_in_region (st : Env) : Prop :=
  (∀ k g, goals st !! k = Some g → in_sampled_region st (goal_cur_pos g)) ∧
  (∀ o q, obstacles st !! o = Some q → in_sampled_region st q).

Definition all_uncollected (st : Env) : Prop :=
  ∀ k g, goals st !! k = Some g → collected g = false.

(** What placing an object leaves alone. *)
Definition same_agents (st st' : Env) : Prop :=
  args st' = args st ∧ agents st' = agents st ∧
  Grid.agent_cells (grid st') = Grid.agent_cells (grid st) ∧
  num_collected st' = num_collected st.

Definition placed_ok (st : Env) : Prop :=
  static_ok st ∧ objects_in_region st ∧ all_uncollected st.

(** What a tick can do to the world: nothing to the configuration, the
    obstacles, the content of the cells and the size of the grid; a goal
    stays where it is, and once collected it is not touched again. *)
Definition progress (st st' : Env) : Prop :=
  args st' = args st ∧ obstacles st' = obstacles st ∧
  Grid.cells (grid st') = Grid.cells (grid st) ∧ same_dims (grid st) (grid st') ∧
  length (goals st') = length (goals st) ∧
  ∀ k g, goals st !! k = Some g →
         ∃ g', goals st' !! k = Some g' ∧ goal_cur_pos g' = goal_cur_pos g ∧
               (collected g = true → g' = g).

(** The fixed layouts of [_gen_grid] for one to four agents. *)
Definition corner_positions (w h : Z) (n : nat) : list pos :=
  match n with
  | 1%nat => [(w `div` 2, h - 2)]
  | 2%nat => [(1, h - 2); (w - 2, h - 2)]
  | 3%nat => [(1, h - 2); (w - 2, h - 2); (w `div` 2, 1)]
  | 4%nat => [(1, 1); (w - 2, 1); (1, h - 2); (w - 2, h - 2)]
  | _ => []
  end.

(** Agent [i] was just placed at [p]. *)
Definition placed_at (a : Agent) (p : pos) : Prop :=
  cur_pos a = p ∧ init_pos a = p ∧ direction a = 3.

(** The rewards a tick can hand out, other than 0: the three configured
    ones and the literal -5, shaped with the tick already counted. *)
Definition possible_rewards (st : Env) : list Q :=
  shaped (gamma (args st)) (S (step_count st)) <$>
    [reward_goal (args st); penalty_goal (args st);
     penalty_obstacle (args st); (-5)%Q].

(** The occupancy map has no stale entry: the agent it has on a cell
    stands on that cell. *)
Definition occupancy_sound (st : Env) : Prop :=
  ∀ q j, Grid.agent_cells (grid st) !! q = Some j →
         ∃ a, agents st !! j = Some a ∧ cur_pos a = q.

(** * Example environments *)

Definition blank_agent : Agent := mkAgent (0, 0) (0, 0) 0 [] [].

(** Never consulted: the examples have at most four agents. *)
Definition no_edge_positions (w h : Z) (n : nat) : result (list pos) := Ok [].

Definition env_of (r : option (result (list (list Z) * Env * Rng)))
    (otherwise : Env) : Env :=
  match r with
  | Some (Ok (_, st, _)) => st
  | _ => otherwise
  end.

(** A 5 x 5 grid, two agents, two goals; half decay; a configured
    invalid-move penalty of -1. *)
Definition duo_cfg : Config :=
  mkConfig 5 2 100 0 3 (1 # 2) 10 (-2) (-1) (-1).

(** The first two draws are 1, the others 0: the first goal lands on
    (2, 2), the second on (1, 1). *)
Definition ones_then_zeros : Rng :=
  mkRng (λ n, if (n <? 2)%nat then 1%nat else 0%nat) 0.

(** Every draw is 1. *)
Definition ones : Rng := mkRng (λ _, 1%nat) 0.

Definition duo_start : Env := init duo_cfg [blank_agent; blank_agent].

Definition duo_env : Env :=
  env_of (reset no_edge_positions 1 ones_then_zeros duo_start) duo_start.

(** One tick of [duo_env] in which both agents walk up. *)
Definition duo_tick : StepResult * Env :=
  default (mkStepResult [] [] [] (InfoRunning 0), duo_env)
          (ok_value (step true duo_env [up; up])).

(** The first move of that tick alone. *)
Definition duo_first_move : Env * list Q :=
  default (duo_env, []) (ok_value (resolve_move true duo_env [0%Q; 0%Q] 0 up)).

Definition first_agent (st : Env) : Agent := default blank_agent (agents st !! 0%nat).

(** Two ticks later: the first agent has walked up and right onto the goal
    of (2, 2) and collected it, the second stands at (3, 1). *)
Definition duo_later : Env :=
  match run true duo_env [[up; up]; [right; up]] with
  | Ok st => st
  | Err _ => duo_env
  end.





(** The same grid with nothing to collect. *)
Definition goalless_cfg : Config :=
  mkConfig 5 0 100 0 3 (1 # 2) 10 (-2) (-1) (-1).

Definition goalless_start : Env := init goalless_cfg [blank_agent].

Definition goalless_env : Env :=
  env_of (reset no_edge_positions 1 ones goalless_start) goalless_start.

(** A 5 x 5 grid that is asked for ten goals: the interior has nine
    cells. *)
Definition packed_cfg : Config :=
  mkConfig 5 10 100 0 3 (1 # 2) 10 (-2) (-1) (-1).

Definition packed_start : Env := init packed_cfg [blank_agent].

(** A 5 x 5 grid without goals for six agents, and for none. *)
Definition crowd_cfg : Config :=
  mkConfig 5 0 100 0 3 (1 # 2) 10 (-2) (-1) (-1).

Definition crowd_start : Env := init crowd_cfg (replicate 6 blank_agent).

Definition crowd_env : Env :=
  env_of (reset _get_edge_positions 1 ones crowd_start) crowd_start.

Definition empty_start : Env := init crowd_cfg [].

(** * Properties *)

(** ** The error monad *)

Lemma bind_Ok {A B} (m : result A) (f : A → result B) (b : B) :
  m ≫= f = Ok b ↔ ∃ a, m = Ok a ∧ f a = Ok b.
Proof.
  destruct m as [a|e]; simpl; split.
  - intros H. by exists a.
  - by intros (a' & [= <-] & H).
  - done.
  - by intros (a' & [=] & _).
Qed.

Lemma of_option_Ok {A} (e : error) (o : option A) (a : A) :
  of_option e o = Ok a ↔ o = Some a.
Proof. destruct o; simpl; split; congruence. Qed.

(** ** The observation builder *)

Lemma extend_goals_flat (sel : list fov_entry) (o : list Z) :
  extend_goals o sel = o ++ (sel ≫= goal_slot).
Proof.
  revert o. induction sel as [|e sel IH]; intros o; unfold extend_goals; simpl.
  - by rewrite app_nil_r.
  - fold (extend_goals
            ((o ++ [(goal_cur_pos (fov_goal e)).1; (goal_cur_pos (fov_goal e)).2])
             ++ [Z.b2z (collected (fov_goal e))]) sel).
    rewrite IH. unfold goal_slot. by rewrite <- !app_assoc.
Qed.

Lemma length_goal_slots (sel : list fov_entry) :
  length (sel ≫= goal_slot) = (3 * length sel)%nat.
Proof.
  induction sel as [|e sel IH]; [done|].
  rewrite bind_cons, length_app, IH. simpl. lia.
Qed.

Lemma join_zero_triples (k : nat) :
  mjoin (replicate k [0; 0; 0]) = replicate (3 * k) 0.
Proof.
  induction k as [|k IH]; [done|].
  replace (3 * S k)%nat with (S (S (S (3 * k)))) by lia.
  change (mjoin (replicate (S k) [0; 0; 0]))
    with ([0; 0; 0] ++ mjoin (replicate k [0; 0; 0])).
  by rewrite IH.
Qed.

Lemma padding_zeros (n : nat) : padding n = replicate (3 * (3 - n)) 0.
Proof. apply join_zero_triples. Qed.

Lemma length_goals_in_fov st a : (length (goals_in_fov st a) ≤ 3)%nat.
Proof. unfold goals_in_fov. rewrite length_take. lia. Qed.

Lemma obs_vector_slots st a :
  obs_vector st a =
  [(cur_pos a).1; (cur_pos a).2] ++ (goals_in_fov st a ≫= goal_slot)
  ++ replicate (3 * (3 - length (goals_in_fov st a))) 0.
Proof.
  unfold obs_vector. by rewrite extend_goals_flat, padding_zeros, <- app_assoc.
Qed.

Lemma length_obs_vector st a : length (obs_vector st a) = 11%nat.
Proof.
  rewrite obs_vector_slots, !length_app, length_goal_slots, length_replicate.
  pose proof (length_goals_in_fov st a). simpl. lia.
Qed.

Lemma observe_agents_obs st :
  (observe_agents st).1 = obs_vector st <$> agents st.
Proof.
  unfold observe_agents. simpl. rewrite <- list_fmap_compose.
  by apply list_fmap_ext.
Qed.

Lemma observe_agents_eleven st :
  length (observe_agents st).1 = length (agents st) ∧
  Forall (λ o, length o = 11%nat) (observe_agents st).1.
Proof.
  rewrite observe_agents_obs, length_fmap. split; [done|].
  apply Forall_fmap, Forall_forall. intros b _. apply length_obs_vector.
Qed.

Lemma scan_goals_filter st a : scan_goals st a = to_entry a <$> eligible st a.
Proof.
  unfold scan_goals, eligible.
  enough (∀ (l : list (nat * GoalObj)) (acc : list fov_entry),
    foldl (λ (acc : list fov_entry) (kg : nat * GoalObj),
             if in_fov st a kg.2
             then acc ++ [(kg.1, kg.2, dist2 (cur_pos a) (goal_cur_pos kg.2))]
             else acc) acc l
    = acc ++ (to_entry a <$> filter (λ kg, in_fov st a kg.2 = true) l)) as H
    by apply (H _ []).
  induction l as [|kg l IH]; intros acc; simpl.
  - by rewrite app_nil_r.
  - rewrite IH, filter_cons. destruct (in_fov st a kg.2) eqn:E.
    + rewrite decide_True by done. by rewrite <- app_assoc.
    + rewrite decide_False by done. done.
Qed.

Lemma insert_by_dist_perm x l : insert_by_dist x l ≡ₚ x :: l.
Proof.
  induction l as [|y l IH]; simpl; [done|].
  destruct (fov_dist2 x <=? fov_dist2 y); [done|].
  rewrite IH. apply Permutation_swap.
Qed.

Lemma sort_by_dist_perm l : sort_by_dist l ≡ₚ l.
Proof.
  induction l as [|x l IH]; simpl; [done|].
  by rewrite insert_by_dist_perm, IH.
Qed.

Lemma insert_by_dist_sorted x l :
  StronglySorted dist_le l → StronglySorted dist_le (insert_by_dist x l).
Proof.
  induction l as [|y l IH]; intros Hs; simpl.
  - repeat constructor.
  - apply StronglySorted_inv in Hs as [Hl Hy].
    destruct (fov_dist2 x <=? fov_dist2 y) eqn:E.
    + apply Z.leb_le in E. constructor.
      * by constructor.
      * constructor; [done|].
        eapply Forall_impl; [exact Hy|]. unfold dist_le. intros; simpl in *; lia.
    + apply Z.leb_gt in E. constructor; [by apply IH|].
      rewrite insert_by_dist_perm. constructor; [|done].
      unfold dist_le. lia.
Qed.

Lemma sort_by_dist_sorted l : StronglySorted dist_le (sort_by_dist l).
Proof.
  induction l as [|x l IH]; simpl; [constructor|].
  by apply insert_by_dist_sorted.
Qed.

Lemma elem_of_eligible st a k g :
  (k, g) ∈ eligible st a ↔
  goals st !! k = Some g ∧ collected g = false ∧
  within_edge_dist (max_edge_dist (args st))
                   (dist2 (cur_pos a) (goal_cur_pos g)) = true.
Proof.
  unfold eligible. rewrite list_elem_of_filter, elem_of_lookup_imap.
  unfold in_fov. simpl. rewrite andb_true_iff, negb_true_iff. split.
  - intros [[Hd Hc] (i & y & [= -> ->] & Hl)]. done.
  - intros (Hl & Hc & Hd). split; [done|]. by exists k, g.
Qed.

Lemma insert_by_dist_stable (d : Z) x l :
  filter (λ e, fov_dist2 e = d) (insert_by_dist x l) =
  filter (λ e, fov_dist2 e = d) (x :: l).
Proof.
  induction l as [|y l IH]; simpl; [done|].
  destruct (fov_dist2 x <=? fov_dist2 y) eqn:E; [done|].
  apply Z.leb_gt in E. rewrite (filter_cons _ y), IH, !filter_cons.
  destruct (decide (fov_dist2 y = d)) as [Hy|Hy]; [|done].
  destruct (decide (fov_dist2 x = d)) as [Hx|Hx]; [lia|done].
Qed.

(** Entries at one distance keep the order they were scanned in. *)
Lemma sort_by_dist_stable (d : Z) l :
  filter (λ e, fov_dist2 e = d) (sort_by_dist l) =
  filter (λ e, fov_dist2 e = d) l.
Proof.
  induction l as [|x l IH]; simpl; [done|].
  by rewrite insert_by_dist_stable, !filter_cons, IH.
Qed.

(** C2, as the code has it.  The goals an observation can show are the
    tracked goals that are within [max_edge_dist] and not collected.  The
    selection is the front of an ascending arrangement of exactly those, in
    which goals at one distance keep the order of [self.goals]: the three
    nearest, or all of them when there are fewer.  Each selected goal
    contributes its position and a flag that is therefore 0. *)
Theorem observation_selects_nearest_uncollected (st : Env) (a : Agent) :
  ∃ rest : list fov_entry,
    goals_in_fov st a ++ rest ≡ₚ to_entry a <$> eligible st a ∧
    StronglySorted dist_le (goals_in_fov st a ++ rest) ∧
    (∀ d, filter (λ e, fov_dist2 e = d) (goals_in_fov st a ++ rest) =
          filter (λ e, fov_dist2 e = d) (to_entry a <$> eligible st a)) ∧
    length (goals_in_fov st a) = (3 `min` length (eligible st a))%nat ∧
    (∀ k g, (k, g) ∈ eligible st a ↔
            goals st !! k = Some g ∧ collected g = false ∧
            within_edge_dist (max_edge_dist (args st))
                             (dist2 (cur_pos a) (goal_cur_pos g)) = true) ∧
    (∀ e, e ∈ goals_in_fov st a →
          goals st !! fov_index e = Some (fov_goal e) ∧
          fov_dist2 e = dist2 (cur_pos a) (goal_cur_pos (fov_goal e)) ∧
          goal_slot e =
            [(goal_cur_pos (fov_goal e)).1; (goal_cur_pos (fov_goal e)).2; 0]) ∧
    (_get_obs st a).1 =
      [(cur_pos a).1; (cur_pos a).2] ++ (goals_in_fov st a ≫= goal_slot)
      ++ replicate (3 * (3 - length (goals_in_fov st a))) 0.
Proof.
  exists (drop 3 (sort_by_dist (scan_goals st a))).
  unfold goals_in_fov at 1 2 3. rewrite take_drop.
  split; [by rewrite sort_by_dist_perm, scan_goals_filter|].
  split; [apply sort_by_dist_sorted|].
  split; [intros d; by rewrite sort_by_dist_stable, scan_goals_filter|].
  split.
  { unfold goals_in_fov.
    by rewrite length_take, sort_by_dist_perm, scan_goals_filter, length_fmap. }
  split; [apply elem_of_eligible|].
  split; [|apply obs_vector_slots].
  intros e He. unfold goals_in_fov in He.
  apply (subseteq_take 3) in He.
  rewrite sort_by_dist_perm, scan_goals_filter in He.
  apply list_elem_of_fmap in He as ([k g] & -> & Hkg).
  apply elem_of_eligible in Hkg as (Hl & Hc & _).
  unfold goal_slot, fov_goal, fov_index, fov_dist2, to_entry. simpl.
  by rewrite Hc.
Qed.

(** C2 fails as worded.  In [duo_later] the goal of (2, 2) is collected and
    within reach of both agents, one of them standing on it; the spec's
    builder gives it the first slot with flag 1, the code's leaves it out. *)
Lemma collected_goal_is_left_out :
  (collected <$> goals duo_later) = [true; false] ∧
  (cur_pos <$> agents duo_later) = [(2, 2); (3, 1)] ∧
  (obs_vector duo_later <$> agents duo_later) =
    [[2; 2; 1; 1; 0; 0; 0; 0; 0; 0; 0]; [3; 1; 1; 1; 0; 0; 0; 0; 0; 0; 0]] ∧
  (spec_obs_vector duo_later <$> agents duo_later) =
    [[2; 2; 2; 2; 1; 1; 1; 0; 0; 0; 0]; [3; 1; 2; 2; 1; 1; 1; 0; 0; 0; 0]].
Proof. repeat split; vm_compute; reflexivity. Qed.

(** ** Reward shaping *)

Lemma Qpow_succ (g : Q) (k : nat) :
  (g ^ Z.of_nat (S k) == g * g ^ Z.of_nat k)%Q.
Proof.
  rewrite Nat2Z.inj_succ, <- Z.add_1_l.
  rewrite Qpower_plus' by lia. by rewrite Qpower_1_r.
Qed.

Lemma Qpow_lt_1 (g : Q) (k : nat) :
  (0 < g)%Q → (g < 1)%Q → (g ^ Z.of_nat (S k) < 1)%Q.
Proof.
  intros H0 H1. induction k as [|k IH].
  - change (Z.of_nat 1) with 1. by rewrite Qpower_1_r.
  - rewrite Qpow_succ.
    apply (Qlt_le_trans _ (1 * 1)); [|discriminate].
    apply Qmult_lt_compat_nonneg.
    + split; [by apply Qlt_le_weak|done].
    + split; [|done]. apply Qpower_0_le. by apply Qlt_le_weak.
Qed.

Lemma Qabs_shaped (g : Q) (t : nat) (r : Q) :
  (0 < g)%Q → (Qabs (shaped g t r) == Qabs r * g ^ Z.of_nat t)%Q.
Proof.
  intros H0. unfold shaped. rewrite Qabs_Qmult.
  rewrite (Qabs_pos (g ^ Z.of_nat t)); [reflexivity|].
  apply Qpower_0_le. by apply Qlt_le_weak.
Qed.

Lemma Qabs_pos_lt (r : Q) : ¬ (r == 0)%Q → (0 < Qabs r)%Q.
Proof.
  intros Hr. destruct (Qlt_le_dec 0 (Qabs r)) as [|Hle]; [done|].
  exfalso. apply Hr. apply Qabs_Qle_condition in Hle as [H1 H2].
  apply Qle_antisym; [exact H2|exact H1].
Qed.

Lemma shaped_strictly_decreasing (g r : Q) (t1 t2 : nat) :
  (0 < g)%Q → (g < 1)%Q → (t1 < t2)%nat → ¬ (r == 0)%Q →
  (Qabs (shaped g t2 r) < Qabs (shaped g t1 r))%Q.
Proof.
  intros H0 H1 Ht Hr.
  rewrite !Qabs_shaped by done.
  replace t2 with (t1 + S (t2 - t1 - 1))%nat by lia.
  rewrite Nat2Z.inj_add, Qpower_plus;
    [|intros E; rewrite E in H0; by apply Qlt_irrefl in H0].
  rewrite Qmult_assoc.
  apply (Qlt_le_trans _ (Qabs r * g ^ Z.of_nat t1 * 1));
    [|rewrite Qmult_1_r; apply Qle_refl].
  apply Qmult_lt_l.
  - apply Qmult_lt_0_compat; [by apply Qabs_pos_lt|by apply Qpower_0_lt].
  - by apply Qpow_lt_1.
Qed.

(** ** Rounding to doubles *)

Lemma pow2_pos (e : Z) : (0 < 2 ^ e)%Q.
Proof. by apply Qpower_0_lt. Qed.

Lemma pow2_Z (a : Z) : 0 ≤ a → (2 ^ a == inject_Z (2 ^ a))%Q.
Proof. intros Ha. by rewrite Zpower_Qpower. Qed.

Lemma pow2_quotient (a b : Z) :
  0 ≤ a → 0 ≤ b → (2 ^ (a - b) == inject_Z (2 ^ a) / inject_Z (2 ^ b))%Q.
Proof.
  intros Ha Hb. rewrite Qpower_minus by discriminate.
  by rewrite !pow2_Z.
Qed.

Lemma Qlog2_spec (x : Q) :
  (0 < x)%Q → (2 ^ Qlog2 x <= x)%Q ∧ (x < 2 ^ (Qlog2 x + 1))%Q.
Proof.
  intros Hx. destruct x as [p q]. unfold Qlt in Hx. simpl in Hx.
  assert (0 < p) as Hp by lia.
  pose proof (Z.log2_spec p Hp) as [Ha1 Ha2].
  pose proof (Z.log2_spec (Z.pos q) ltac:(lia)) as [Hb1 Hb2].
  pose proof (Z.log2_nonneg p) as Ha0.
  pose proof (Z.log2_nonneg (Z.pos q)) as Hb0.
  unfold Qlog2. cbn [Qnum Qden].
  set (a := Z.log2 p) in *. set (b := Z.log2 (Z.pos q)) in *.
  assert (0 < 2 ^ a) as Hpa by (apply Z.pow_pos_nonneg; lia).
  assert (0 < 2 ^ b) as Hpb by (apply Z.pow_pos_nonneg; lia).
  assert (2 ^ Z.succ a = 2 * 2 ^ a) as Hsa by (apply Z.pow_succ_r; lia).
  assert (2 ^ Z.succ b = 2 * 2 ^ b) as Hsb by (apply Z.pow_succ_r; lia).
  assert (2 ^ (a - b - 1) <= p # q)%Q as Hlow.
  { replace (a - b - 1) with (a - Z.succ b) by lia.
    rewrite pow2_quotient by lia. apply Qle_shift_div_r.
    - unfold Qlt. simpl. lia.
    - unfold Qle. simpl. nia. }
  assert (p # q < 2 ^ (a - b + 1))%Q as Hhigh.
  { replace (a - b + 1) with (Z.succ a - b) by lia.
    rewrite pow2_quotient by lia. apply Qlt_shift_div_l.
    - unfold Qlt. simpl. lia.
    - unfold Qlt. simpl. nia. }
  destruct (Qle_bool (2 ^ (a - b)) (p # q)) eqn:E.
  - apply Qle_bool_iff in E. done.
  - split; [done|]. replace (a - b - 1 + 1) with (a - b) by lia.
    apply Qnot_le_lt. intros H%Qle_bool_iff. congruence.
Qed.

Lemma pow2_lt_inv (a b : Z) : (2 ^ a < 2 ^ b)%Q → a < b.
Proof. intros H. by apply Qpower_lt_compat_l_inv in H. Qed.

Lemma pow2_le (a b : Z) : a ≤ b → (2 ^ a <= 2 ^ b)%Q.
Proof. intros H. by apply Qpower_le_compat_l. Qed.

Lemma Qlog2_mono (x y : Q) : (0 < x)%Q → (x <= y)%Q → Qlog2 x ≤ Qlog2 y.
Proof.
  intros Hx Hxy.
  destruct (Qlog2_spec x Hx) as [H1 _].
  destruct (Qlog2_spec y (Qlt_le_trans _ _ _ Hx Hxy)) as [_ H2].
  assert (2 ^ Qlog2 x < 2 ^ (Qlog2 y + 1))%Q as H.
  { eapply Qle_lt_trans; [exact H1|]. by eapply Qle_lt_trans. }
  apply pow2_lt_inv in H. lia.
Qed.

Lemma round_half_even_bounds (x : Q) :
  Qfloor x ≤ round_half_even x ≤ Qfloor x + 1.
Proof.
  unfold round_half_even.
  destruct (x - inject_Z (Qfloor x) ?= 1 # 2)%Q; [destruct (Z.even _)|..]; lia.
Qed.

Lemma round_half_even_mono (x y : Q) :
  (x <= y)%Q → round_half_even x ≤ round_half_even y.
Proof.
  intros Hxy. pose proof (Qfloor_resp_le _ _ Hxy) as Hf.
  destruct (Z.eq_dec (Qfloor x) (Qfloor y)) as [Heq|Hne].
  - unfold round_half_even. rewrite <- Heq.
    destruct (Qcompare_spec (x - inject_Z (Qfloor x)) (1 # 2)) as [Hx|Hx|Hx];
    destruct (Qcompare_spec (y - inject_Z (Qfloor x)) (1 # 2)) as [Hy|Hy|Hy];
      try destruct (Z.even (Qfloor x)); try lia; exfalso; lra.
  - pose proof (round_half_even_bounds x). pose proof (round_half_even_bounds y).
    lia.
Qed.

Lemma round_half_even_Z (n : Z) : round_half_even (inject_Z n) = n.
Proof.
  unfold round_half_even. rewrite Qfloor_Z.
  destruct (Qcompare_spec (inject_Z n - inject_Z n) (1 # 2)) as [H|H|H];
    [exfalso; lra|done|exfalso; lra].
Qed.

Lemma round_half_even_le (x : Q) (n : Z) :
  (x <= inject_Z n)%Q → round_half_even x ≤ n.
Proof. intros H%round_half_even_mono. by rewrite round_half_even_Z in H. Qed.

Lemma round_half_even_ge (x : Q) (n : Z) :
  (inject_Z n <= x)%Q → n ≤ round_half_even x.
Proof. intros H%round_half_even_mono. by rewrite round_half_even_Z in H. Qed.

Lemma round_pos_nonneg (x : Q) : (0 < x)%Q → (0 <= round_pos x)%Q.
Proof.
  intros Hx. unfold round_pos.
  set (e := Z.max (Qlog2 x - 52) (-1074)).
  apply Qmult_le_0_compat; [|apply Qlt_le_weak, pow2_pos].
  change 0%Q with (inject_Z 0). rewrite <- Zle_Qle.
  apply round_half_even_ge. change (inject_Z 0) with 0%Q.
  apply Qle_shift_div_l; [apply pow2_pos|]. rewrite Qmult_0_l.
  by apply Qlt_le_weak.
Qed.

Lemma round_pos_mono (x y : Q) :
  (0 < x)%Q → (x <= y)%Q → (round_pos x <= round_pos y)%Q.
Proof.
  intros Hx Hxy. assert (0 < y)%Q as Hy by (by eapply Qlt_le_trans).
  pose proof (Qlog2_mono x y Hx Hxy) as Hlog.
  destruct (Qlog2_spec x Hx) as [_ Hxh]. destruct (Qlog2_spec y Hy) as [Hyl _].
  unfold round_pos.
  set (ex := Z.max (Qlog2 x - 52) (-1074)).
  set (ey := Z.max (Qlog2 y - 52) (-1074)).
  destruct (Z.eq_dec ex ey) as [Heq|Hne].
  - rewrite <- Heq. apply Qmult_le_compat_r; [|apply Qlt_le_weak, pow2_pos].
    rewrite <- Zle_Qle. apply round_half_even_mono.
    apply Qmult_le_compat_r; [done|].
    apply Qlt_le_weak, Qinv_lt_0_compat, pow2_pos.
  - assert (ex < ey) as Hlt by lia.
    assert (ey = Qlog2 y - 52) as Hey by lia.
    apply (Qle_trans _ (2 ^ (ey + 52))).
    + apply (Qle_trans _ (2 ^ (53 + ex))); [|apply pow2_le; lia].
      rewrite Qpower_plus by discriminate.
      apply Qmult_le_compat_r; [|apply Qlt_le_weak, pow2_pos].
      rewrite (pow2_Z 53) by lia. rewrite <- Zle_Qle.
      apply round_half_even_le. rewrite <- (pow2_Z 53) by lia.
      apply Qle_shift_div_r; [apply pow2_pos|].
      rewrite <- Qpower_plus by discriminate.
      apply Qlt_le_weak. eapply Qlt_le_trans; [exact Hxh|]. apply pow2_le. lia.
    + rewrite (Z.add_comm ey 52), Qpower_plus by discriminate.
      apply Qmult_le_compat_r; [|apply Qlt_le_weak, pow2_pos].
      rewrite (pow2_Z 52) by lia. rewrite <- Zle_Qle.
      apply round_half_even_ge. rewrite <- (pow2_Z 52) by lia.
      apply Qle_shift_div_l; [apply pow2_pos|].
      rewrite <- Qpower_plus by discriminate.
      eapply Qle_trans; [|exact Hyl]. apply pow2_le. lia.
Qed.

Lemma round64_mono (x y : Q) : (x <= y)%Q → (round64 x <= round64 y)%Q.
Proof.
  intros Hxy. unfold round64.
  destruct (Qcompare_spec x 0) as [Hx|Hx|Hx];
  destruct (Qcompare_spec y 0) as [Hy|Hy|Hy]; try (exfalso; lra).
  - apply Qle_refl.
  - by apply round_pos_nonneg.
  - pose proof (round_pos_nonneg (- x) ltac:(lra)). lra.
  - pose proof (round_pos_mono (- y) (- x) ltac:(lra) ltac:(lra)). lra.
  - pose proof (round_pos_nonneg (- x) ltac:(lra)).
    pose proof (round_pos_nonneg y Hy). lra.
  - by apply round_pos_mono.
Qed.

Lemma round64_0 : round64 0 = 0%Q.
Proof. reflexivity. Qed.

Lemma Qpow_mono (g : Q) (t1 t2 : nat) :
  (0 < g)%Q → (g < 1)%Q → (t1 ≤ t2)%nat →
  (g ^ Z.of_nat t2 <= g ^ Z.of_nat t1)%Q.
Proof.
  intros H0 H1 Ht. destruct (decide (t1 = t2)) as [->|Hne]; [apply Qle_refl|].
  replace t2 with (t1 + S (t2 - t1 - 1))%nat by lia.
  rewrite Nat2Z.inj_add, Qpower_plus;
    [|intros E; rewrite E in H0; by apply Qlt_irrefl in H0].
  pose proof (Qpow_lt_1 g (t2 - t1 - 1) H0 H1).
  pose proof (Qpower_0_lt g (Z.of_nat t1) H0).
  pose proof (Qpower_0_lt g (Z.of_nat (S (t2 - t1 - 1))) H0).
  nra.
Qed.

Lemma shaped64_magnitude (g r : Q) (t1 t2 : nat) :
  (0 < g)%Q → (g < 1)%Q → (t1 ≤ t2)%nat →
  (Qabs (shaped64 g t2 r) <= Qabs (shaped64 g t1 r))%Q.
Proof.
  intros H0 H1 Ht. unfold shaped64.
  pose proof (Qpow_mono g t1 t2 H0 H1 Ht) as Hp.
  pose proof (Qpower_0_le g (Z.of_nat t2) (Qlt_le_weak _ _ H0)) as Hp0.
  apply round64_mono in Hp, Hp0. rewrite round64_0 in Hp0.
  set (p1 := round64 (g ^ Z.of_nat t1)) in *.
  set (p2 := round64 (g ^ Z.of_nat t2)) in *.
  destruct (Qlt_le_dec r 0) as [Hr|Hr].
  - assert (r * p1 <= r * p2)%Q as H12 by nra.
    assert (r * p2 <= 0)%Q as H20 by nra.
    apply round64_mono in H12, H20. rewrite round64_0 in H20.
    rewrite !Qabs_neg by lra. lra.
  - assert (r * p2 <= r * p1)%Q as H21 by nra.
    assert (0 <= r * p2)%Q as H20 by nra.
    apply round64_mono in H21, H20. rewrite round64_0 in H20.
    rewrite !Qabs_pos by lra. lra.
Qed.

(** C6, as doubles compute it.  Between two states of an environment
    with [gamma] in (0, 1), the later one shapes the same raw reward to a
    double of no larger magnitude; the exact product, before any rounding,
    is strictly smaller in magnitude when the raw reward is not zero. *)
Theorem reward_magnitude_never_grows (st1 st2 : Env) (r : Q) :
  gamma (args st2) = gamma (args st1) →
  (0 < gamma (args st1))%Q → (gamma (args st1) < 1)%Q →
  (step_count st1 < step_count st2)%nat →
  (Qabs (_reward64 st2 r) <= Qabs (_reward64 st1 r))%Q ∧
  (¬ (r == 0)%Q → (Qabs (_reward st2 r) < Qabs (_reward st1 r))%Q).
Proof.
  intros Hg H0 H1 Ht. unfold _reward64, _reward. rewrite Hg. split.
  - apply shaped64_magnitude; [done|done|lia].
  - intros Hr. by apply shaped_strictly_decreasing.
Qed.

(** The goal reward of 10, before the first tick of [duo_env] and two
    ticks later. *)
Lemma reward_magnitude_never_grows_witness :
  (Qabs (_reward64 duo_later 10) <= Qabs (_reward64 duo_env 10))%Q ∧
  (¬ (10 == 0)%Q → (Qabs (_reward duo_later 10) < Qabs (_reward duo_env 10))%Q).
Proof.
  apply (reward_magnitude_never_grows duo_env duo_later 10);
    [reflexivity|reflexivity|reflexivity|vm_compute; lia].
Defined.

(** C6 fails as worded.  A raw reward of zero is shaped to zero at every
    step count.  And with [gamma] = 1/2 the power underflows: at the step
    counts 1076 and 1077 the reward of 10 is shaped to the double 0.0
    both times, so its magnitude has stopped decreasing. *)
Lemma shaped_reward_stops_decreasing :
  (0 < gamma (args duo_env))%Q ∧ (gamma (args duo_env) < 1)%Q ∧
  (step_count duo_env < step_count duo_later)%nat ∧
  gamma (args duo_later) = gamma (args duo_env) ∧
  ¬ (Qabs (_reward duo_later 0) < Qabs (_reward duo_env 0))%Q ∧
  ¬ (Qabs (_reward64 duo_later 0) < Qabs (_reward64 duo_env 0))%Q ∧
  (_reward64 (set_step_count duo_env 1076) 10 == 0)%Q ∧
  (_reward64 (set_step_count duo_env 1077) 10 == 0)%Q ∧
  ¬ (Qabs (_reward64 (set_step_count duo_env 1077) 10)
     < Qabs (_reward64 (set_step_count duo_env 1076) 10))%Q.
Proof.
  split; [done|]. split; [done|].
  split; [vm_compute; lia|]. split; [done|].
  split; [vm_compute; discriminate|].
  split; [vm_compute; discriminate|].
  split; [vm_compute; reflexivity|].
  split; [vm_compute; reflexivity|].
  vm_compute. discriminate.
Qed.

(** ** The move resolver *)

Lemma set_agent_Ok g x y a g' :
  Grid.set_agent g x y a = Ok g' →
  Grid.in_bounds g x y = true ∧ Grid.width g' = Grid.width g ∧
  Grid.height g' = Grid.height g ∧ Grid.cells g' = Grid.cells g ∧
  Grid.agent_cells g' =
    match a with
    | Some i => <[(x, y) := i]> (Grid.agent_cells g)
    | None => delete (x, y) (Grid.agent_cells g)
    end.
Proof.
  unfold Grid.set_agent. destruct (Grid.in_bounds g x y); [|done].
  by intros [= <-].
Qed.

Lemma frame_refl st : frame st st.
Proof. by repeat split. Qed.

Lemma frame_trans st1 st2 st3 : frame st1 st2 → frame st2 st3 → frame st1 st3.
Proof.
  intros (? & ? & ? & ? & ? & ? & ?) (? & ? & ? & ? & ? & ? & ?).
  repeat split; try congruence. lia.
Qed.

Lemma relocate_Ok st i p st' :
  relocate st i p = Ok st' →
  ∃ a g1 g2, agents st !! i = Some a ∧
    Grid.set_agent (grid st) p.1 p.2 (Some i) = Ok g1 ∧
    Grid.set_agent g1 (cur_pos a).1 (cur_pos a).2 None = Ok g2 ∧
    st' = set_agents (set_grid st g2) (<[i := set_cur_pos a p]> (agents st)).
Proof.
  unfold relocate. intros H.
  apply bind_Ok in H as (a & Ha%of_option_Ok & H).
  apply bind_Ok in H as (g1 & Hg1 & H).
  apply bind_Ok in H as (g2 & Hg2 & [= <-]).
  by exists a, g1, g2.
Qed.

Lemma relocate_frame st i p st' :
  relocate st i p = Ok st' → frame st st' ∧ goals st' = goals st.
Proof.
  intros (a & g1 & g2 & _ & H1 & H2 & ->)%relocate_Ok.
  apply set_agent_Ok in H1 as (_ & Hw1 & Hh1 & _).
  apply set_agent_Ok in H2 as (_ & Hw2 & Hh2 & _).
  repeat split; simpl; try done; [by rewrite length_insert|congruence|congruence].
Qed.

(** With both cells inside the grid, the agent is moved: it is set at the
    new cell, its old cell is cleared, and nothing else changes. *)
Lemma relocate_in_bounds st i a (p : pos) :
  agents st !! i = Some a →
  Grid.in_bounds (grid st) p.1 p.2 = true →
  Grid.in_bounds (grid st) (cur_pos a).1 (cur_pos a).2 = true →
  ∃ st', relocate st i p = Ok st' ∧
    agents st' = <[i := set_cur_pos a p]> (agents st) ∧
    Grid.agent_cells (grid st') =
      delete (cur_pos a) (<[p := i]> (Grid.agent_cells (grid st))) ∧
    Grid.cells (grid st') = Grid.cells (grid st) ∧
    goals st' = goals st ∧ num_collected st' = num_collected st.
Proof.
  intros Ha Hp Hold. unfold relocate. rewrite Ha. simpl.
  unfold Grid.set_agent at 2. rewrite Hp. simpl.
  unfold Grid.set_agent, Grid.in_bounds in *. simpl. rewrite Hold.
  eexists. split; [done|]. simpl.
  by rewrite <- !surjective_pairing.
Qed.

Lemma handle_overlap_frame st i p c r st' :
  _handle_overlap st i p c = Ok (r, st') → frame st st'.
Proof.
  unfold _handle_overlap. intros H.
  apply bind_Ok in H as ([reward st1] & H1 & H).
  apply bind_Ok in H as (st2 & [Hf _]%relocate_frame & [= _ <-]).
  eapply frame_trans; [|exact Hf].
  destruct c as [k|o|]; [| |done].
  - apply bind_Ok in H1 as (g & _ & H1).
    destruct (negb (collected g)); injection H1 as _ <-.
    + repeat split; simpl; try done. lia.
    + apply frame_refl.
  - injection H1 as _ <-. apply frame_refl.
Qed.

Lemma resolve_move_frame oco st rewards i action st' rewards' :
  resolve_move oco st rewards i action = Ok (st', rewards') →
  frame st st' ∧ length rewards' = length rewards ∧
  (i < length (agents st))%nat.
Proof.
  unfold resolve_move. intros H.
  apply bind_Ok in H as (a & Ha%of_option_Ok & H).
  apply bind_Ok in H as (cell & _ & H).
  apply bind_Ok in H as (agent & _ & H).
  split; [|split; [|by eapply lookup_lt_Some]].
  - destruct (_ && _).
    + apply bind_Ok in H as (st1 & [Hf _]%relocate_frame & [= <- _]). done.
    + destruct cell as [c|]; [destruct (can_overlap oco c)|].
      * apply bind_Ok in H as ([r st1] & Hf%handle_overlap_frame & [= <- _]). done.
      * injection H as <- _. apply frame_refl.
      * injection H as <- _. apply frame_refl.
  - destruct (_ && _).
    + apply bind_Ok in H as (st1 & _ & [= _ <-]). done.
    + destruct cell as [c|]; [destruct (can_overlap oco c)|].
      * apply bind_Ok in H as ([r st1] & _ & [= _ <-]). by rewrite length_insert.
      * injection H as _ <-. by rewrite length_insert.
      * injection H as _ <-. by rewrite length_insert.
Qed.

Lemma new_pos_ne action p : new_pos action p ≠ p.
Proof.
  destruct p as [x y], action; simpl; intros [=]; lia.
Qed.

(** A wall, an obstacle that cannot be overlapped, or an agent on a cell
    with no content: the state is left as it is and the reward is the
    shaped literal -5. *)
Lemma blocked_move_keeps_state oco st rewards i action a cell occupant :
  agents st !! i = Some a →
  Grid.get (grid st) (new_pos action (cur_pos a)).1
           (new_pos action (cur_pos a)).2 = Ok cell →
  Grid.get_agent (grid st) (new_pos action (cur_pos a)).1
                 (new_pos action (cur_pos a)).2 = Ok occupant →
  cell = Some WallObj
  ∨ (∃ o, cell = Some (ObstacleRef o) ∧ oco = false)
  ∨ (cell = None ∧ is_Some occupant) →
  resolve_move oco st rewards i action =
  Ok (st, <[i := _reward st (-5)]> rewards).
Proof.
  intros Ha Hc Ho Hcase. unfold resolve_move. rewrite Ha. simpl.
  rewrite Hc, Ho. simpl.
  destruct Hcase as [->|[(o & -> & ->)|[-> [k ->]]]]; done.
Qed.

(** A target outside the grid is not classified at all: the grid access
    raises. *)
Lemma out_of_bounds_move_raises oco st rewards i action a :
  agents st !! i = Some a →
  Grid.in_bounds (grid st) (new_pos action (cur_pos a)).1
                 (new_pos action (cur_pos a)).2 = false →
  resolve_move oco st rewards i action = Err BoundsError.
Proof.
  intros Ha Hb. unfold resolve_move. rewrite Ha. simpl.
  unfold Grid.get. by rewrite Hb.
Qed.




(** C3's defect, on [duo_env]: both agents stand on the bottom row and walk
    down into the wall.  Neither moves; each is handed the shaped literal -5,
    which is not the shaped [penalty_invalid_move] the environment was
    configured with (-1 here). *)
Theorem invalid_move_ignores_configured_penalty (oco : bool) :
  positions duo_env = [(1, 3); (3, 3)] ∧
  (λ x, positions x.2) <$> ok_value (step oco duo_env [down; down])
    = Some [(1, 3); (3, 3)] ∧
  (λ x, res_rewards x.1) <$> ok_value (step oco duo_env [down; down])
    = Some [shaped (1 # 2) 1 (-5); shaped (1 # 2) 1 (-5)] ∧
  penalty_invalid_move (args duo_env) = (-1)%Q ∧
  gamma (args duo_env) = (1 # 2)%Q ∧
  ¬ (shaped (1 # 2) 1 (-5) == shaped (1 # 2) 1 (penalty_invalid_move (args duo_env)))%Q.
Proof.
  split; [vm_compute; reflexivity|].
  split; [destruct oco; vm_compute; reflexivity|].
  split; [destruct oco; vm_compute; reflexivity|].
  split; [vm_compute; reflexivity|].
  split; [vm_compute; reflexivity|].
  vm_compute. discriminate.
Qed.

(** C1's defect, on [duo_env].  After one tick the agents stand at (1, 2)
    and (3, 2), either side of the goal of (2, 2).  In the next tick the
    first walks right onto the goal and collects it; the second walks left
    onto the same cell: the overlap branch never asks the occupancy map.
    Both positions are (2, 2), and the map knows the second agent only. *)
Theorem two_agents_end_on_one_cell (oco : bool) :
  positions duo_env = [(1, 3); (3, 3)] ∧
  positions <$> ok_value (run oco duo_env [[up; up]]) = Some [(1, 2); (3, 2)] ∧
  positions <$> ok_value (run oco duo_env [[up; up]; [right; left]])
    = Some [(2, 2); (2, 2)] ∧
  (λ st, agent_at st (2, 2)) <$> ok_value (run oco duo_env [[up; up]; [right; left]])
    = Some (Some 1%nat) ∧
  (λ st, collected <$> goals st) <$> ok_value (run oco duo_env [[up; up]; [right; left]])
    = Some [true; false].
Proof.
  split; [vm_compute; reflexivity|].
  repeat split; destruct oco; vm_compute; reflexivity.
Qed.

(** ** Termination flags *)

Lemma agent_done_mono st st' :
  frame st st' → agent_done st = true → agent_done st' = true.
Proof.
  intros (Ha & Hs & _ & _ & Hn & _). unfold agent_done, max_steps.
  rewrite Ha, Hs, !orb_true_iff, !Z.leb_le. lia.
Qed.

Lemma any_insert_true (l : list bool) (i : nat) :
  (i < length l)%nat → any (<[i := true]> l) = true.
Proof.
  intros Hi. unfold any. apply existsb_exists. exists true. split; [|done].
  apply list_elem_of_In, list_elem_of_lookup. exists i.
  by apply list_lookup_insert_eq.
Qed.

Lemma any_replicate_false (n : nat) : any (replicate n false) = false.
Proof. induction n as [|n IH]; [done|]. exact IH. Qed.

Lemma sync_dones (l : list bool) :
  ((λ d : bool, if any l then true else d) <$> l) = replicate (length l) (any l).
Proof.
  destruct (any l) eqn:E.
  - clear E. induction l as [|d l IH]; [done|].
    rewrite fmap_cons. cbn [length replicate]. by f_equal.
  - assert (Forall (λ d, d = false) l) as Hall.
    { apply Forall_forall. intros d Hd. destruct d; [|done].
      assert (any l = true) as Ht; [|congruence].
      apply existsb_exists. exists true. split; [by apply list_elem_of_In|done]. }
    clear E. induction Hall as [|d l -> _ IH]; [done|].
    rewrite fmap_cons. cbn [length replicate]. by f_equal.
Qed.

Lemma any_replicate (n : nat) (b : bool) :
  any (replicate n b) = bool_decide (n ≠ 0%nat) && b.
Proof.
  destruct n as [|n]; [done|]. rewrite bool_decide_eq_true_2 by done.
  destruct b; [done|]. apply any_replicate_false.
Qed.

Lemma step_loop_frame oco actions : ∀ i st rewards dones st' rewards' dones',
  step_loop oco i actions (st, rewards, dones) = Ok (st', rewards', dones') →
  frame st st' ∧ length rewards' = length rewards ∧ length dones' = length dones.
Proof.
  induction actions as [|action rest IH]; intros i st rw dn st' rw' dn' H; simpl in H.
  - injection H as <- <- <-. split; [apply frame_refl|done].
  - apply bind_Ok in H as ([st1 rw1] & (Hf & Hr & _)%resolve_move_frame & H).
    apply IH in H as (Hf' & Hr' & Hd').
    split; [by eapply frame_trans|]. split; [congruence|].
    rewrite Hd'. destruct (agent_done st1); [by rewrite length_insert|done].
Qed.

Lemma step_loop_any oco actions : ∀ i st rewards dones st' rewards' dones',
  step_loop oco i actions (st, rewards, dones) = Ok (st', rewards', dones') →
  length dones = length (agents st) →
  any dones' = any dones || (bool_decide (actions ≠ []) && agent_done st').
Proof.
  induction actions as [|action rest IH]; intros i st rw dn st' rw' dn' H Hlen; simpl in H.
  - injection H as <- <- <-. by rewrite orb_false_r.
  - apply bind_Ok in H as ([st1 rw1] & (Hf & Hr & Hi)%resolve_move_frame & H).
    simpl in H. pose proof H as (Hf' & _ & _)%step_loop_frame.
    rewrite (bool_decide_eq_true_2 (action :: rest ≠ [])) by done.
    destruct (agent_done st1) eqn:E.
    + apply IH in H; [|destruct Hf as (_ & _ & _ & -> & _); by rewrite length_insert].
      rewrite H, any_insert_true by lia.
      rewrite (agent_done_mono _ _ Hf' E). simpl. by rewrite orb_true_r.
    + destruct rest as [|action' rest'].
      * simpl in H. injection H as <- _ <-. by rewrite E, orb_false_r.
      * apply IH in H; [|by destruct Hf as (_ & _ & _ & -> & _)].
        by rewrite H, (bool_decide_eq_true_2 (action' :: rest' ≠ [])).
Qed.

(** The loop over [l1 ++ l2] is the loop over [l1], then the loop over [l2]
    from the index reached. *)
Lemma step_loop_app oco l1 : ∀ l2 i s,
  step_loop oco i (l1 ++ l2) s =
  step_loop oco i l1 s ≫= step_loop oco (i + length l1) l2.
Proof.
  induction l1 as [|action l1 IH]; intros l2 i s; simpl.
  - by rewrite Nat.add_0_r.
  - destruct (resolve_move oco s.1.1 s.1.2 i action) as [[st' rw']|e]; simpl; [|done].
    rewrite IH. by replace (S i + length l1)%nat with (i + S (length l1))%nat by lia.
Qed.

(** The loop from index [i] over [actions] writes the flags of
    [i .. i + length actions - 1] and no other. *)
Lemma step_loop_flags_outside oco actions : ∀ i st rewards dones st' rewards' dones' k,
  step_loop oco i actions (st, rewards, dones) = Ok (st', rewards', dones') →
  (k < i ∨ i + length actions ≤ k)%nat →
  dones' !! k = dones !! k.
Proof.
  induction actions as [|action rest IH]; intros i st rw dn st' rw' dn' k H Hk; simpl in H.
  - by injection H as <- <- <-.
  - apply bind_Ok in H as ([st1 rw1] & _ & H). simpl in H.
    apply (IH _ _ _ _ _ _ _ k) in H; [|simpl in Hk; lia].
    rewrite H. destruct (agent_done st1); [|done].
    apply list_lookup_insert_ne. simpl in Hk. lia.
Qed.

(** The flag of agent [i] is the done test on the state its move left. *)
Lemma step_loop_flag oco actions i action st rewards dones st' rewards' dones' :
  step_loop oco 0 actions (st, rewards, dones) = Ok (st', rewards', dones') →
  actions !! i = Some action →
  dones !! i = Some false →
  ∃ st_i rewards_i dones_i,
    step_loop oco 0 (take (S i) actions) (st, rewards, dones)
      = Ok (st_i, rewards_i, dones_i) ∧
    dones' !! i = Some (agent_done st_i).
Proof.
  intros H Hact Hflag.
  pose proof (take_drop_middle _ _ _ Hact) as Hsplit.
  assert (length (take i actions) = i) as Hlen.
  { rewrite length_take. apply lookup_lt_Some in Hact. lia. }
  rewrite <- Hsplit in H. rewrite step_loop_app, Hlen in H.
  apply bind_Ok in H as ([[st_a rw_a] dn_a] & Ha & H).
  simpl in H. apply bind_Ok in H as ([st_i rw_i] & Hres & H). simpl in H.
  exists st_i, rw_i, (if agent_done st_i then <[i := true]> dn_a else dn_a).
  split.
  - rewrite (take_S_r _ _ _ Hact), step_loop_app, Hlen, Ha. simpl.
    by rewrite Hres.
  - rewrite (step_loop_flags_outside _ _ _ _ _ _ _ _ _ i H) by lia.
    pose proof (step_loop_flags_outside _ _ _ _ _ _ _ _ _ i Ha) as Houtside.
    rewrite Hlen in Houtside. specialize (Houtside ltac:(lia)).
    destruct (agent_done st_i).
    + apply list_lookup_insert_eq. apply lookup_lt_is_Some.
      rewrite Houtside, Hflag. by eexists.
    + by rewrite Houtside.
Qed.

Lemma step_loop_in_range oco actions : ∀ i st rewards dones s' k,
  step_loop oco i actions (st, rewards, dones) = Ok s' →
  (i ≤ k < i + length actions)%nat → (k < length (agents st))%nat.
Proof.
  induction actions as [|action rest IH]; intros i st rw dn s' k H Hk; simpl in *; [lia|].
  apply bind_Ok in H as ([st1 rw1] & (Hf & _ & Hi)%resolve_move_frame & H).
  destruct (decide (k = i)) as [->|Hne]; [done|].
  destruct Hf as (_ & _ & _ & <- & _).
  eapply (IH (S i)); [exact H|lia].
Qed.

Lemma step_Ok oco st actions r st' :
  step oco st actions = Ok (r, st') →
  ∃ st1 rewards dones0,
    step_loop oco 0 actions (loop_start st) = Ok (st1, rewards, dones0) ∧
    res_rewards r = rewards ∧
    res_dones r = replicate (length dones0) (any dones0) ∧
    res_obs r = (observe_agents (_update_seen_cells st1)).1 ∧
    st' = (observe_agents (_update_seen_cells st1)).2 ∧
    info_seen_percentage (res_info r)
      = _calculate_seen_percentage (_update_seen_cells st1) ∧
    (any (replicate (length dones0) (any dones0)) = true →
     num_goals (args st1) ≠ 0).
Proof.
  unfold step. fold (loop_start st). intros H.
  apply bind_Ok in H as ([[st1 rewards] dones0] & Hloop & H).
  rewrite sync_dones in H.
  apply bind_Ok in H as (info & Hinfo & H).
  injection H as <- <-. exists st1, rewards, dones0. simpl.
  split; [done|]. split; [done|]. split; [done|]. split; [done|]. split; [done|].
  split.
  - destruct (any (replicate _ _)).
    + destruct (_ =? _); [done|]. by injection Hinfo as <-.
    + by injection Hinfo as <-.
  - intros Hany. rewrite Hany in Hinfo.
    change (args (_update_seen_cells st1)) with (args st1) in Hinfo.
    destruct (num_goals (args st1) =? 0) eqn:E; [done|]. by apply Z.eqb_neq.
Qed.

Lemma agent_done_observed st :
  agent_done (observe_agents (_update_seen_cells st)).2 = agent_done st.
Proof. reflexivity. Qed.

(** C4.  The flag of each agent that acts is its done test (the step cap
    reached, or the goal target reached) on the state its own move left;
    the agents past the end of [actions] keep a false flag.  The vector
    [step] returns is uniform: every entry is true when some flag is, every
    entry is false otherwise.  Some flag is true exactly when an agent acted
    and the test holds on the state [step] ends in. *)
Theorem dones_are_synchronized (oco : bool) (st : Env) (actions : list Actions)
    (r : StepResult) (st' : Env) :
  step oco st actions = Ok (r, st') →
  ∃ flags : list bool,
    length flags = length (agents st) ∧
    (∀ i action, actions !! i = Some action →
       ∃ st_i rewards_i dones_i,
         step_loop oco 0 (take (S i) actions) (loop_start st)
           = Ok (st_i, rewards_i, dones_i) ∧
         flags !! i = Some (agent_done st_i)) ∧
    (∀ i, (length actions ≤ i < length (agents st))%nat →
          flags !! i = Some false) ∧
    res_dones r = replicate (length (agents st)) (any flags) ∧
    any flags = bool_decide (actions ≠ []) && agent_done st'.
Proof.
  intros (st1 & rewards & flags & Hloop & _ & Hd & _ & -> & _)%step_Ok.
  pose proof Hloop as (_ & _ & Hlen)%step_loop_frame.
  rewrite length_replicate in Hlen.
  exists flags. split; [done|]. split; [|split; [|split]].
  - intros i action Hact.
    eapply step_loop_flag; [exact Hloop|exact Hact|].
    apply lookup_replicate_2.
    eapply (step_loop_in_range _ _ _ _ _ _ _ i Hloop).
    apply lookup_lt_Some in Hact. lia.
  - intros i [Hi Hn].
    rewrite (step_loop_flags_outside _ _ _ _ _ _ _ _ _ i Hloop) by lia.
    by apply lookup_replicate_2.
  - by rewrite Hd, Hlen.
  - rewrite agent_done_observed.
    rewrite (step_loop_any _ _ _ _ _ _ _ _ _ Hloop)
      by (simpl; by rewrite length_replicate).
    by rewrite any_replicate_false.
Qed.

(** C10.  With [num_goals = 0] and at least one action, [step] returns
    nothing: once the loop over the agents is through, the done test holds
    (0 >= 0) and the division by [num_goals] in the info raises. *)
Theorem zero_goals_step_fails (oco : bool) (st : Env) (actions : list Actions) :
  num_goals (args st) = 0 → actions ≠ [] →
  (∀ x, step oco st actions ≠ Ok x) ∧
  (∀ s1, step_loop oco 0 actions (loop_start st) = Ok s1 →
         step oco st actions = Err ZeroDivisionError).
Proof.
  intros Hzero Hne.
  assert (∀ st1 rewards dones0,
    step_loop oco 0 actions (loop_start st) = Ok (st1, rewards, dones0) →
    any (replicate (length dones0) (any dones0)) = true ∧
    num_goals (args st1) = 0) as Hkey.
  { intros st1 rewards dones0 Hloop.
    pose proof Hloop as ((Hargs & _) & _ & Hlen)%step_loop_frame.
    rewrite length_replicate in Hlen.
    assert (num_goals (args st1) = 0) as Hz by (by rewrite Hargs).
    split; [|done].
    assert (any dones0 = true) as ->.
    { rewrite (step_loop_any _ _ _ _ _ _ _ _ _ Hloop)
        by (simpl; by rewrite length_replicate).
      rewrite any_replicate_false, bool_decide_eq_true_2 by done. simpl.
      unfold agent_done. rewrite Hz. apply orb_true_iff. right.
      apply Z.leb_le. lia. }
    rewrite any_replicate, bool_decide_eq_true_2; [done|].
    rewrite Hlen. destruct actions as [|action rest]; [done|].
    pose proof (step_loop_in_range _ _ _ _ _ _ _ 0%nat Hloop) as Hr.
    simpl in Hr. specialize (Hr ltac:(lia)). lia. }
  split.
  - intros [r st'] (st1 & rewards & dones0 & Hloop & _ & _ & _ & _ & _ & Hnz)%step_Ok.
    destruct (Hkey _ _ _ Hloop) as [Hany Hz]. by apply Hnz.
  - intros [[st1 rewards] dones0] Hloop.
    destruct (Hkey _ _ _ Hloop) as [Hany Hz].
    unfold step. fold (loop_start st). rewrite Hloop. simpl.
    rewrite sync_dones, Hany. simpl. by rewrite Hz.
Qed.

(** One tick of [duo_env], both agents walking up: nobody is done. *)
Lemma dones_are_synchronized_witness :
  ∃ flags : list bool,
    length flags = length (agents duo_env) ∧
    (∀ i action, [up; up] !! i = Some action →
       ∃ st_i rewards_i dones_i,
         step_loop true 0 (take (S i) [up; up]) (loop_start duo_env)
           = Ok (st_i, rewards_i, dones_i) ∧
         flags !! i = Some (agent_done st_i)) ∧
    (∀ i, (length [up; up] ≤ i < length (agents duo_env))%nat →
          flags !! i = Some false) ∧
    res_dones duo_tick.1 = replicate (length (agents duo_env)) (any flags) ∧
    any flags = bool_decide ([up; up] ≠ []) && agent_done duo_tick.2.
Proof.
  apply (dones_are_synchronized true duo_env [up; up] duo_tick.1 duo_tick.2).
  vm_compute; reflexivity.
Defined.

(** [goalless_env] has one agent and no goal to collect. *)
Lemma zero_goals_step_fails_witness :
  (∀ x, step true goalless_env [up] ≠ Ok x) ∧
  (∀ s1, step_loop true 0 [up] (loop_start goalless_env) = Ok s1 →
         step true goalless_env [up] = Err ZeroDivisionError).
Proof.
  apply (zero_goals_step_fails true goalless_env [up]); [reflexivity|done].
Defined.

(** ** The coverage tracker *)

Lemma mark_seen_lookup m a b a' b' :
  lookup2 (mark_seen m a b) a' b' =
  (λ v, v || bool_decide (a = a' ∧ b = b')) <$> lookup2 m a' b'.
Proof.
  unfold lookup2, mark_seen. destruct (decide (a = a')) as [<-|Ha].
  - rewrite list_lookup_alter_eq. destruct (m !! a) as [row|]; simpl; [|done].
    destruct (decide (b = b')) as [<-|Hb].
    + destruct (row !! b) as [v|] eqn:E.
      * rewrite list_lookup_insert_eq by (by eapply lookup_lt_Some).
        simpl. case_bool_decide; [|tauto]. by rewrite orb_true_r.
      * rewrite list_insert_ge by (by apply lookup_ge_None). by rewrite E.
    + rewrite list_lookup_insert_ne by done.
      destruct (row !! b') as [v|]; simpl; [|done].
      case_bool_decide; [tauto|]. by rewrite orb_false_r.
  - rewrite list_lookup_alter_ne by done.
    destruct (m !! a' ≫= (.!! b')) as [v|]; simpl; [|done].
    case_bool_decide; [tauto|]. by rewrite orb_false_r.
Qed.

Lemma foldl_marks_lookup (ps : list (nat * nat)) : ∀ m a b,
  lookup2 (foldl (λ m' p, mark_seen m' p.1 p.2) m ps) a b =
  (λ v, v || bool_decide ((a, b) ∈ ps)) <$> lookup2 m a b.
Proof.
  induction ps as [|[a0 b0] ps IH]; intros m a b.
  - cbn [foldl]. rewrite bool_decide_eq_false_2 by apply not_elem_of_nil.
    destruct (lookup2 m a b) as [v|]; [|done]. cbn. by rewrite orb_false_r.
  - change (foldl (λ m' p, mark_seen m' p.1 p.2) m ((a0, b0) :: ps))
      with (foldl (λ m' p, mark_seen m' p.1 p.2) (mark_seen m a0 b0) ps).
    rewrite IH, mark_seen_lookup.
    assert (bool_decide ((a, b) ∈ (a0, b0) :: ps)
            = bool_decide (a0 = a ∧ b0 = b) || bool_decide ((a, b) ∈ ps)) as ->.
    { apply eq_true_iff_eq.
      rewrite orb_true_iff, !bool_decide_eq_true, elem_of_cons.
      split; [intros [[= -> ->]|?]|intros [[-> ->]|?]]; tauto. }
    destruct (lookup2 m a b) as [v|]; [|done].
    cbn. by rewrite orb_assoc.
Qed.

Lemma update_as_marks st :
  seen_cells (_update_seen_cells st) =
  foldl (λ m' p, mark_seen m' p.1 p.2) (seen_cells st) (seen_marks st).
Proof.
  unfold _update_seen_cells, seen_marks. simpl.
  generalize (seen_cells st) as m. generalize (seqZ 1 (width st - 2)) as rows.
  induction rows as [|i rows IH]; intros m; [done|].
  rewrite bind_cons, foldl_app. simpl. rewrite IH. f_equal.
  generalize (seqZ 1 (height st - 2)) as cols. clear IH. revert m.
  intros m cols. revert m.
  induction cols as [|j cols IH]; intros m; [done|].
  simpl. rewrite filter_cons. destruct (any_agent_sees st i j) eqn:E.
  - rewrite decide_True by done. simpl. by rewrite IH.
  - rewrite decide_False by done. by rewrite IH.
Qed.

Lemma elem_of_seen_marks st (a b : nat) :
  (a, b) ∈ seen_marks st ↔
  Z.of_nat a < width st - 2 ∧ Z.of_nat b < height st - 2 ∧
  any_agent_sees st (Z.of_nat a + 1) (Z.of_nat b + 1) = true.
Proof.
  unfold seen_marks. rewrite list_elem_of_bind. split.
  - intros (i & Hin & Hi). apply elem_of_seqZ in Hi.
    apply list_elem_of_fmap in Hin as (j & [= -> ->] & Hj).
    apply list_elem_of_filter in Hj as [Hs Hj]. apply elem_of_seqZ in Hj.
    rewrite !Z2Nat.id by lia.
    replace (i - 1 + 1) with i by lia. replace (j - 1 + 1) with j by lia.
    repeat split; [lia|lia|done].
  - intros (Ha & Hb & Hs). exists (Z.of_nat a + 1). split.
    + apply list_elem_of_fmap. exists (Z.of_nat b + 1). split.
      * f_equal; lia.
      * apply list_elem_of_filter. split; [done|]. apply elem_of_seqZ. lia.
    + apply elem_of_seqZ. lia.
Qed.

(** Counting *)
Lemma count_true_insert row b : (count_true row ≤ count_true (<[b := true]> row))%nat.
Proof.
  revert b. induction row as [|v row IH]; intros [|b]; simpl; [done|done| |].
  - destruct v; lia.
  - specialize (IH b). lia.
Qed.

Lemma sum_seen_cons row m : sum_seen (row :: m) = (count_true row + sum_seen m)%nat.
Proof. reflexivity. Qed.

Lemma mark_seen_here row m b : mark_seen (row :: m) 0 b = <[b := true]> row :: m.
Proof. reflexivity. Qed.

Lemma mark_seen_below row m a b :
  mark_seen (row :: m) (S a) b = row :: mark_seen m a b.
Proof. reflexivity. Qed.

Lemma sum_seen_mark m a b : (sum_seen m ≤ sum_seen (mark_seen m a b))%nat.
Proof.
  revert a. induction m as [|row m IH]; intros [|a]; [done|done| |].
  - rewrite mark_seen_here, !sum_seen_cons.
    pose proof (count_true_insert row b). lia.
  - rewrite mark_seen_below, !sum_seen_cons. specialize (IH a). lia.
Qed.

Lemma sum_seen_marks ps : ∀ m,
  (sum_seen m ≤ sum_seen (foldl (λ m' p, mark_seen m' p.1 p.2) m ps))%nat.
Proof.
  induction ps as [|p ps IH]; intros m; simpl; [done|].
  etrans; [apply (sum_seen_mark m p.1 p.2)|apply IH].
Qed.

Lemma mark_seen_shape m a b : (length <$> mark_seen m a b) = (length <$> m).
Proof.
  revert a. induction m as [|row m IH]; intros [|a]; [done|done| |].
  - rewrite mark_seen_here, !fmap_cons. by rewrite length_insert.
  - rewrite mark_seen_below, !fmap_cons. by rewrite IH.
Qed.

Lemma marks_shape ps : ∀ m,
  (length <$> foldl (λ m' p, mark_seen m' p.1 p.2) m ps) = (length <$> m).
Proof.
  induction ps as [|p ps IH]; intros m; simpl; [done|].
  rewrite IH. apply mark_seen_shape.
Qed.

Lemma update_seen_lookup st a b :
  lookup2 (seen_cells (_update_seen_cells st)) a b =
  (λ v, v || bool_decide (Z.of_nat a < width st - 2 ∧ Z.of_nat b < height st - 2)
            && any_agent_sees st (Z.of_nat a + 1) (Z.of_nat b + 1))
  <$> lookup2 (seen_cells st) a b.
Proof.
  rewrite update_as_marks, foldl_marks_lookup.
  destruct (lookup2 (seen_cells st) a b) as [v|]; [|done]. cbn. do 2 f_equal.
  apply eq_true_iff_eq.
  rewrite andb_true_iff, !bool_decide_eq_true, elem_of_seen_marks. tauto.
Qed.

Lemma update_seen_shape st : shape_ok st → shape_ok (_update_seen_cells st).
Proof.
  unfold shape_ok. intros H. rewrite update_as_marks, marks_shape. exact H.
Qed.

Lemma update_seen_sum st :
  (sum_seen (seen_cells st) ≤ sum_seen (seen_cells (_update_seen_cells st)))%nat.
Proof. rewrite update_as_marks. apply sum_seen_marks. Qed.

Lemma shape_lookup st a b :
  shape_ok st →
  is_Some (lookup2 (seen_cells st) a b) ↔
  Z.of_nat a < width st - 2 ∧ Z.of_nat b < height st - 2.
Proof.
  unfold shape_ok, lookup2. intros Hshape.
  pose proof (f_equal (λ l, l !! a) Hshape) as Ha. simpl in Ha.
  rewrite list_lookup_fmap in Ha.
  destruct (seen_cells st !! a) as [row|] eqn:E; simpl in *.
  - symmetry in Ha. apply lookup_replicate in Ha as [Hlen Hlt].
    rewrite lookup_lt_is_Some. lia.
  - symmetry in Ha. apply lookup_replicate_None in Ha.
    split; [by intros [? [=]]|]. lia.
Qed.

Lemma any_agent_sees_observed st i j :
  any_agent_sees (observe_agents st).2 i j = any_agent_sees st i j.
Proof.
  unfold any_agent_sees, observe_agents. simpl.
  induction (agents st) as [|a l IH]; [done|].
  rewrite !fmap_cons. simpl. by rewrite IH.
Qed.

Lemma seen_percentage_mono st st' :
  args st' = args st → 2 < width st →
  (sum_seen (seen_cells st) ≤ sum_seen (seen_cells st'))%nat →
  (_calculate_seen_percentage st <= _calculate_seen_percentage st')%Q.
Proof.
  intros Hargs Hw Hsum. unfold _calculate_seen_percentage, total_cells, width, height in *.
  rewrite Hargs. unfold Qdiv.
  apply Qmult_le_compat_r; [|discriminate].
  apply Qmult_le_compat_r.
  - rewrite <- Zle_Qle. lia.
  - apply Qinv_le_0_compat. change 0%Q with (inject_Z 0). rewrite <- Zle_Qle. nia.
Qed.

(** The state a returning [step] ends in, seen from the state its loop
    left: the coverage pass, then the observations. *)
Lemma step_final_state oco st actions r st' :
  step oco st actions = Ok (r, st') →
  ∃ st1, st' = (observe_agents (_update_seen_cells st1)).2 ∧
         args st1 = args st ∧ seen_cells st1 = seen_cells st ∧
         info_seen_percentage (res_info r)
           = _calculate_seen_percentage (_update_seen_cells st1).
Proof.
  intros (st1 & rewards & dones0 & Hloop & _ & _ & _ & -> & Hinfo & _)%step_Ok.
  pose proof Hloop as ((Hargs & _ & Hseen & _) & _)%step_loop_frame.
  by exists st1.
Qed.

Lemma step_seen_exact oco st actions r st' a b :
  step oco st actions = Ok (r, st') →
  lookup2 (seen_cells st') a b =
  (λ v, v || bool_decide (Z.of_nat a < width st - 2 ∧ Z.of_nat b < height st - 2)
            && any_agent_sees st' (Z.of_nat a + 1) (Z.of_nat b + 1))
  <$> lookup2 (seen_cells st) a b.
Proof.
  intros (st1 & -> & Hargs & Hseen & _)%step_final_state.
  rewrite any_agent_sees_observed.
  change (seen_cells (observe_agents (_update_seen_cells st1)).2)
    with (seen_cells (_update_seen_cells st1)).
  rewrite update_seen_lookup. unfold width, height. by rewrite Hargs, Hseen.
Qed.

Lemma step_shape oco st actions r st' :
  step oco st actions = Ok (r, st') → shape_ok st → shape_ok st'.
Proof.
  intros (st1 & -> & Hargs & Hseen & _)%step_final_state Hshape.
  apply (update_seen_shape st1).
  unfold shape_ok, width, height in *. by rewrite Hseen, Hargs.
Qed.

Lemma step_sum_seen oco st actions r st' :
  step oco st actions = Ok (r, st') →
  (sum_seen (seen_cells st) ≤ sum_seen (seen_cells st'))%nat.
Proof.
  intros (st1 & -> & _ & Hseen & _)%step_final_state.
  rewrite <- Hseen. apply update_seen_sum.
Qed.

Lemma step_args oco st actions x :
  step oco st actions = Ok x → args x.2 = args st.
Proof.
  destruct x as [r st']. by intros (st1 & -> & Hargs & _)%step_final_state.
Qed.

Lemma step_seen_kept oco st actions r st' a b :
  step oco st actions = Ok (r, st') →
  lookup2 (seen_cells st) a b = Some true →
  lookup2 (seen_cells st') a b = Some true.
Proof.
  intros Hstep Hab. by rewrite (step_seen_exact _ _ _ _ _ _ _ Hstep), Hab.
Qed.

(** C9.  From one tick to the next, on a matrix of the shape [__init__]
    gives it: the shape is kept, with one entry for each interior cell and
    none for the perimeter; an entry is true after the tick exactly when it
    was true before or some agent, where the tick left it, is within
    [max_edge_dist] of the entry's cell; so no entry falls back to false,
    the count of seen cells does not drop, and the reported percentage,
    which is that count over the number of interior cells times 100, does
    not drop either. *)
Theorem coverage_only_grows (oco : bool) (st : Env) (actions : list Actions)
    (r : StepResult) (st' : Env) :
  step oco st actions = Ok (r, st') →
  shape_ok st → 2 < width st →
  shape_ok st' ∧
  (∀ a b, is_Some (lookup2 (seen_cells st') a b) ↔
          Z.of_nat a < width st - 2 ∧ Z.of_nat b < height st - 2) ∧
  (∀ a b, lookup2 (seen_cells st') a b =
          (λ v, v || bool_decide (Z.of_nat a < width st - 2 ∧ Z.of_nat b < height st - 2)
                    && any_agent_sees st' (Z.of_nat a + 1) (Z.of_nat b + 1))
          <$> lookup2 (seen_cells st) a b) ∧
  (∀ a b, lookup2 (seen_cells st) a b = Some true →
          lookup2 (seen_cells st') a b = Some true) ∧
  (sum_seen (seen_cells st) ≤ sum_seen (seen_cells st'))%nat ∧
  (_calculate_seen_percentage st <= _calculate_seen_percentage st')%Q ∧
  info_seen_percentage (res_info r) = _calculate_seen_percentage st' ∧
  _calculate_seen_percentage st' =
    (inject_Z (Z.of_nat (sum_seen (seen_cells st')))
     / inject_Z ((width st - 2) * (height st - 2)) * 100)%Q.
Proof.
  intros Hstep Hshape Hw.
  pose proof (step_shape _ _ _ _ _ Hstep Hshape) as Hshape'.
  pose proof (step_args _ _ _ _ Hstep) as Hargs. simpl in Hargs.
  pose proof (step_sum_seen _ _ _ _ _ Hstep) as Hsum.
  split; [done|]. split.
  { intros a b. rewrite (shape_lookup _ a b Hshape').
    unfold width, height. by rewrite Hargs. }
  split; [intros a b; by eapply step_seen_exact|].
  split; [intros a b; by eapply step_seen_kept|].
  split; [done|].
  split; [by apply seen_percentage_mono|].
  split.
  { by destruct (step_final_state _ _ _ _ _ Hstep) as (st1 & -> & _ & _ & ->). }
  unfold _calculate_seen_percentage, total_cells, width, height.
  by rewrite Hargs.
Qed.

(** The first tick of [duo_env]. *)
Lemma coverage_only_grows_witness :
  shape_ok duo_tick.2 ∧
  (∀ a b, is_Some (lookup2 (seen_cells duo_tick.2) a b) ↔
          Z.of_nat a < width duo_env - 2 ∧ Z.of_nat b < height duo_env - 2) ∧
  (∀ a b, lookup2 (seen_cells duo_tick.2) a b =
          (λ v, v || bool_decide (Z.of_nat a < width duo_env - 2
                                  ∧ Z.of_nat b < height duo_env - 2)
                    && any_agent_sees duo_tick.2 (Z.of_nat a + 1) (Z.of_nat b + 1))
          <$> lookup2 (seen_cells duo_env) a b) ∧
  (∀ a b, lookup2 (seen_cells duo_env) a b = Some true →
          lookup2 (seen_cells duo_tick.2) a b = Some true) ∧
  (sum_seen (seen_cells duo_env) ≤ sum_seen (seen_cells duo_tick.2))%nat ∧
  (_calculate_seen_percentage duo_env <= _calculate_seen_percentage duo_tick.2)%Q ∧
  info_seen_percentage (res_info duo_tick.1) = _calculate_seen_percentage duo_tick.2 ∧
  _calculate_seen_percentage duo_tick.2 =
    (inject_Z (Z.of_nat (sum_seen (seen_cells duo_tick.2)))
     / inject_Z ((width duo_env - 2) * (height duo_env - 2)) * 100)%Q.
Proof.
  apply (coverage_only_grows true duo_env [up; up] duo_tick.1 duo_tick.2);
    vm_compute; reflexivity.
Defined.

Lemma init_shape_ok cfg ags : shape_ok (init cfg ags).
Proof.
  unfold shape_ok, init, width, height. simpl.
  by rewrite fmap_replicate, length_replicate.
Qed.

(** Over any number of ticks: nothing seen is lost and the percentage does
    not drop. *)
Lemma run_coverage_monotone oco ticks : ∀ st st',
  run oco st ticks = Ok st' →
  shape_ok st → 2 < width st →
  args st' = args st ∧ shape_ok st' ∧
  (∀ a b, lookup2 (seen_cells st) a b = Some true →
          lookup2 (seen_cells st') a b = Some true) ∧
  (_calculate_seen_percentage st <= _calculate_seen_percentage st')%Q.
Proof.
  induction ticks as [|actions rest IH]; intros st st' H Hshape Hw; simpl in H.
  - injection H as <-. repeat split; try done. apply Qle_refl.
  - apply bind_Ok in H as ([r st1] & Hstep & H).
    pose proof (step_args _ _ _ _ Hstep) as Hargs. simpl in Hargs.
    pose proof (step_shape _ _ _ _ _ Hstep Hshape) as Hshape1.
    pose proof (seen_percentage_mono st st1 Hargs Hw
                  (step_sum_seen _ _ _ _ _ Hstep)) as Hpct.
    apply IH in H as (Hargs' & Hshape' & Hkeep' & Hpct');
      [|done|unfold width in *; by rewrite Hargs].
    split; [congruence|]. split; [done|]. split.
    + intros a b Hab. apply Hkeep'. by eapply step_seen_kept.
    + by eapply Qle_trans.
Qed.

(** ** The placement planner *)

Lemma rand_pos_sample st r :
  3 < width st →
  _rand_pos 1 (width st - 2) 1 (height st - 2) r = Ok (sample st r 0, advance r 2).
Proof.
  intros Hw. unfold _rand_pos, integers, sample, height, width in *.
  assert ((1 <? grid_size (args st) - 2) = true) as -> by (apply Z.ltb_lt; lia).
  reflexivity.
Qed.

Lemma sample_in_region st r n :
  3 < width st →
  1 ≤ (sample st r n).1 < width st - 2 ∧ 1 ≤ (sample st r n).2 < height st - 2.
Proof.
  intros Hw. unfold sample, height, width in *. simpl.
  split; match goal with |- context [?a `mod` ?b] =>
    pose proof (Z.mod_pos_bound a b ltac:(lia)) end; lia.
Qed.

Lemma sample_advance st r n : sample st (advance r 2) n = sample st r (S n).
Proof.
  unfold sample, advance. simpl.
  replace (n + (n + 0) + S (S (cursor r)))%nat with (S (n + S (n + 0) + cursor r)) by lia.
  done.
Qed.

Lemma advance_advance r j k : advance (advance r j) k = advance r (k + j).
Proof. unfold advance. simpl. f_equal. lia. Qed.

Lemma get_sample st r n :
  3 < width st → grid_dims_ok st →
  Grid.get (grid st) (sample st r n).1 (sample st r n).2 =
  Ok (Grid.cells (grid st) !! sample st r n).
Proof.
  intros Hw [Hgw Hgh]. pose proof (sample_in_region st r n Hw) as [Hx Hy].
  unfold Grid.get, Grid.in_bounds. rewrite Hgw, Hgh. unfold height, width in *.
  destruct (sample st r n) as [x y]; simpl in *.
  repeat (rewrite (proj2 (Z.leb_le _ _)) by lia).
  repeat (rewrite (proj2 (Z.ltb_lt _ _)) by lia). done.
Qed.

Lemma place_object_step st obj r fuel :
  3 < width st → grid_dims_ok st →
  _place_object (S fuel) r st obj =
  match Grid.cells (grid st) !! sample st r 0 with
  | Some _ => _place_object fuel (advance r 2) st obj
  | None => Some (st' ← put_object st obj (sample st r 0).1 (sample st r 0).2;
                  Ok (st', advance r 2))
  end.
Proof.
  intros Hw Hd. simpl. rewrite rand_pos_sample by done.
  by rewrite get_sample.
Qed.

Lemma place_object_spins st obj fuel : ∀ r,
  3 < width st → grid_dims_ok st →
  (∀ n, (n < fuel)%nat → occupied st (sample st r n)) →
  _place_object fuel r st obj = None.
Proof.
  induction fuel as [|fuel IH]; intros r Hw Hd Hocc; [done|].
  rewrite place_object_step by done.
  destruct (Hocc 0%nat ltac:(lia)) as [c ->].
  apply IH; [done|done|]. intros n Hn. rewrite sample_advance. apply Hocc. lia.
Qed.

Lemma place_object_first_empty st obj k : ∀ r fuel,
  3 < width st → grid_dims_ok st →
  (∀ n, (n < k)%nat → occupied st (sample st r n)) →
  Grid.cells (grid st) !! sample st r k = None →
  (k < fuel)%nat →
  _place_object fuel r st obj =
  Some (st' ← put_object st obj (sample st r k).1 (sample st r k).2;
        Ok (st', advance r (2 * S k))).
Proof.
  induction k as [|k IH]; intros r fuel Hw Hd Hocc Hfree Hfuel;
    (destruct fuel as [|fuel]; [lia|]); rewrite place_object_step by done.
  - by rewrite Hfree.
  - destruct (Hocc 0%nat ltac:(lia)) as [c ->].
    rewrite (IH (advance r 2) fuel); try done; try lia.
    + rewrite sample_advance, advance_advance.
      by replace (2 * S k + 2)%nat with (2 * S (S k))%nat by lia.
    + intros n Hn. rewrite sample_advance. apply Hocc. lia.
    + by rewrite sample_advance.
Qed.

Lemma put_object_Ok st obj x y :
  Grid.in_bounds (grid st) x y = true →
  ∃ st', put_object st obj x y = Ok st' ∧
    Grid.cells (grid st') !! (x, y) =
      Some (match obj with
            | NewGoal => GoalRef (length (goals st))
            | NewObstacle => ObstacleRef (length (obstacles st))
            end) ∧
    goals st' = match obj with
                | NewGoal => goals st ++ [mkGoal (x, y) false green]
                | NewObstacle => goals st
                end ∧
    obstacles st' = match obj with
                    | NewGoal => obstacles st
                    | NewObstacle => obstacles st ++ [(x, y)]
                    end.
Proof.
  intros Hb. unfold put_object, Grid.set. rewrite Hb.
  destruct obj; simpl; eexists; (split; [done|]); simpl;
    by rewrite lookup_insert_eq.
Qed.

(** ** Agents apart *)

Lemma consistent_apart st i j a b :
  occupancy_consistent st →
  agents st !! i = Some a → agents st !! j = Some b →
  cur_pos a = cur_pos b → i = j.
Proof.
  intros Hc Ha Hb Heq. apply Hc in Ha, Hb. rewrite Heq in Ha. congruence.
Qed.

Lemma relocate_keeps_consistent st i p st' :
  occupancy_consistent st →
  agent_at st p = None →
  relocate st i p = Ok st' →
  occupancy_consistent st'.
Proof.
  intros Hc Hfree (a & g1 & g2 & Ha & Hg1 & Hg2 & ->)%relocate_Ok j b Hb.
  apply set_agent_Ok in Hg1 as (_ & _ & _ & _ & Hm1).
  apply set_agent_Ok in Hg2 as (_ & _ & _ & _ & Hm2).
  unfold agent_at in *. cbn [grid set_agents set_grid agents]. cbn [agents set_agents] in Hb.
  rewrite Hm2, Hm1, <- !surjective_pairing.
  assert (p ≠ cur_pos a) as Hne.
  { intros Heq. apply Hc in Ha. unfold agent_at in Ha. rewrite <- Heq in Ha. congruence. }
  destruct (decide (j = i)) as [->|Hji].
  - rewrite list_lookup_insert_eq in Hb by (by eapply lookup_lt_Some).
    injection Hb as <-. simpl.
    rewrite lookup_delete_ne by done. by rewrite lookup_insert_eq.
  - rewrite list_lookup_insert_ne in Hb by done.
    pose proof (Hc _ _ Hb) as Hjb.
    assert (cur_pos b ≠ cur_pos a) as Hba.
    { intros Heq. apply Hji. by eapply (consistent_apart st j i b a). }
    assert (cur_pos b ≠ p) as Hbp.
    { intros Heq. rewrite Heq in Hjb. unfold agent_at in Hjb. congruence. }
    rewrite lookup_delete_ne by done. by rewrite lookup_insert_ne.
Qed.

(** A move whose target cell no agent stands on keeps every agent where the
    occupancy map has it, and so keeps the agents apart. *)
Lemma move_to_free_cell_keeps_consistent oco st rewards i action a st' rewards' :
  occupancy_consistent st →
  agents st !! i = Some a →
  agent_at st (new_pos action (cur_pos a)) = None →
  resolve_move oco st rewards i action = Ok (st', rewards') →
  occupancy_consistent st'.
Proof.
  intros Hc Ha Hfree H. unfold resolve_move in H. rewrite Ha in H. simpl in H.
  apply bind_Ok in H as (cell & _ & H).
  apply bind_Ok in H as (agent & _ & H).
  destruct (_ && _).
  - apply bind_Ok in H as (st1 & Hr & [= <- _]).
    by eapply relocate_keeps_consistent.
  - destruct cell as [c|]; [destruct (can_overlap oco c)|].
    + apply bind_Ok in H as ([r st1] & Ho & [= <- _]).
      unfold _handle_overlap in Ho.
      apply bind_Ok in Ho as ([reward st2] & H2 & Ho).
      apply bind_Ok in Ho as (st3 & Hr & [= _ <-]).
      eapply relocate_keeps_consistent; [|
        |exact Hr].
      * destruct c as [k|o|]; [| |done].
        -- apply bind_Ok in H2 as (g & _ & H2).
           destruct (negb (collected g)); injection H2 as _ <-; done.
        -- by injection H2 as _ <-.
      * destruct c as [k|o|]; [| |done].
        -- apply bind_Ok in H2 as (g & _ & H2).
           destruct (negb (collected g)); injection H2 as _ <-; done.
        -- by injection H2 as _ <-.
    + by injection H as <- _.
    + by injection H as <- _.
Qed.

(** ** Reset and the reachable states *)

Lemma placement_frame_refl st : placement_frame st st.
Proof. by repeat split. Qed.

Lemma placement_frame_trans st1 st2 st3 :
  placement_frame st1 st2 → placement_frame st2 st3 → placement_frame st1 st3.
Proof.
  intros (? & ? & ? & ? & ? & ? & ?) (? & ? & ? & ? & ? & ? & ?).
  repeat split; congruence.
Qed.

Lemma set_Ok g x y v g' :
  Grid.set g x y v = Ok g' → same_dims g g'.
Proof.
  unfold Grid.set. destruct (Grid.in_bounds g x y); [|done]. by intros [= <-].
Qed.

Lemma wall_rect_dims g x y w h g' :
  Grid.wall_rect g x y w h = Ok g' → same_dims g g'.
Proof.
  unfold Grid.wall_rect. generalize (Grid.wall_cells x y w h) as cs.
  intros cs. revert g. induction cs as [|c cs IH]; intros g H; simpl in H.
  - by injection H as <-.
  - destruct (Grid.set g c.1 c.2 (Some WallObj)) as [g1|e] eqn:E; simpl in H.
    + apply set_Ok in E as [Hw Hh]. apply IH in H as [Hw' Hh'].
      split; congruence.
    + exfalso. clear IH E. induction cs as [|c' cs IH]; simpl in H; [done|].
      by apply IH.
Qed.

Lemma place_agent_frame st i x y st' :
  _place_agent st i x y = Ok st' → placement_frame st st'.
Proof.
  unfold _place_agent. intros H.
  apply bind_Ok in H as (a & _ & H).
  apply bind_Ok in H as (g & (_ & Hw & Hh & _)%set_agent_Ok & [= <-]).
  repeat split; simpl; try done. by rewrite length_insert.
Qed.

Lemma foldl_place_agents_frame (ps : list (nat * pos)) : ∀ (acc : result Env) st',
  foldl (λ (r : result Env) (ip : nat * pos),
           st1 ← r; _place_agent st1 ip.1 ip.2.1 ip.2.2) acc ps = Ok st' →
  ∃ st, acc = Ok st ∧ placement_frame st st'.
Proof.
  induction ps as [|ip ps IH]; intros acc st' H; simpl in H.
  - exists st'. split; [done|apply placement_frame_refl].
  - apply IH in H as (st1 & H & Hf).
    apply bind_Ok in H as (st & -> & Hp%place_agent_frame).
    exists st. split; [done|]. by eapply placement_frame_trans.
Qed.

Lemma put_object_frame st obj x y st' :
  put_object st obj x y = Ok st' → placement_frame st st'.
Proof.
  unfold put_object. destruct obj; intros H;
    apply bind_Ok in H as (g & [Hw Hh]%set_Ok & [= <-]); by repeat split.
Qed.

Lemma place_object_frame fuel : ∀ r st obj st' r',
  _place_object fuel r st obj = Some (Ok (st', r')) → placement_frame st st'.
Proof.
  induction fuel as [|fuel IH]; intros r st obj st' r' H; simpl in H; [done|].
  destruct (_rand_pos _ _ _ _ r) as [[p r1]|e]; [|done].
  destruct (Grid.get (grid st) p.1 p.2) as [[c|]|e]; [by eapply IH| |done].
  injection H as H. by apply bind_Ok in H as (st1 & Hp%put_object_frame & [= <- _]).
Qed.

Lemma place_objects_frame fuel obj n : ∀ st r st' r',
  place_objects fuel n obj (st, r) = Some (Ok (st', r')) → placement_frame st st'.
Proof.
  induction n as [|n IH]; intros st r st' r' H; simpl in H.
  - injection H as <- _. apply placement_frame_refl.
  - destruct (_place_object fuel r st obj) as [[[st1 r1]|e]|] eqn:E; simpl in H; try done.
    apply place_object_frame in E. apply IH in H.
    by eapply placement_frame_trans.
Qed.

Lemma gen_grid_frame gep fuel r st w h st' r' :
  _gen_grid gep fuel r st w h = Some (Ok (st', r')) →
  args st' = args st ∧ seen_cells st' = seen_cells st ∧
  step_count st' = step_count st ∧ num_collected st' = num_collected st ∧
  length (agents st') = length (agents st) ∧
  Grid.width (grid st') = w ∧ Grid.height (grid st') = h.
Proof.
  unfold _gen_grid. intros H.
  destruct (Grid.wall_rect (Grid.new w h) 0 0 w h) as [g|e] eqn:Eg; [|done].
  apply wall_rect_dims in Eg as [Hgw Hgh]. simpl in *.
  assert (∀ st1, placement_frame (set_grid st g) st1 →
    args st1 = args st ∧ seen_cells st1 = seen_cells st ∧
    step_count st1 = step_count st ∧ num_collected st1 = num_collected st ∧
    length (agents st1) = length (agents st) ∧
    Grid.width (grid st1) = w ∧ Grid.height (grid st1) = h) as Hdone.
  { intros st1 (? & ? & ? & ? & ? & Hw & Hh). simpl in *.
    repeat split; congruence. }
  cbn [agents set_grid] in H.
  match type of H with
  | match ?m with Ok _ => _ | Err _ => _ end = _ =>
      destruct m as [st1|e] eqn:E1; [|done]
  end.
  assert (placement_frame (set_grid st g) st1) as Hf1.
  { destruct (length (agents st)) as [|[|[|[|[|k]]]]].
    - apply bind_Ok in E1 as (ps & _ & E1).
      by apply foldl_place_agents_frame in E1 as (? & [= <-] & ?).
    - by apply place_agent_frame in E1.
    - by apply foldl_place_agents_frame in E1 as (? & [= <-] & ?).
    - by apply foldl_place_agents_frame in E1 as (? & [= <-] & ?).
    - by apply foldl_place_agents_frame in E1 as (? & [= <-] & ?).
    - apply bind_Ok in E1 as (ps & _ & E1).
      by apply foldl_place_agents_frame in E1 as (? & [= <-] & ?). }
  destruct (place_objects fuel _ NewGoal (st1, r)) as [[[st2 r2]|e]|] eqn:E2;
    simpl in H; try done.
  apply place_objects_frame in E2. apply place_objects_frame in H.
  apply Hdone. eapply placement_frame_trans; [exact Hf1|].
  by eapply placement_frame_trans.
Qed.

Lemma sum_seen_cleared (m : list (list bool)) :
  sum_seen ((λ row : list bool, (λ _ : bool, false) <$> row) <$> m) = 0%nat.
Proof.
  induction m as [|row m IH]; [done|].
  rewrite fmap_cons, sum_seen_cons, IH.
  assert (count_true ((λ _ : bool, false) <$> row) = 0%nat) as ->; [|done].
  induction row as [|b row IHrow]; [done|]. by rewrite fmap_cons.
Qed.

(** A [reset] that returns: same configuration, counters at zero, the
    matrix of the same shape with nothing seen, a grid of the configured
    size, and one observation of eleven scalars per agent. *)
Lemma reset_well_formed gep fuel r st observations st' r' :
  reset gep fuel r st = Some (Ok (observations, st', r')) →
  args st' = args st ∧ step_count st' = 0%nat ∧ num_collected st' = 0%nat ∧
  (length <$> seen_cells st') = (length <$> seen_cells st) ∧
  sum_seen (seen_cells st') = 0%nat ∧ grid_dims_ok st' ∧
  length observations = length (agents st) ∧
  Forall (λ o, length o = 11%nat) observations.
Proof.
  unfold reset. intros H.
  match type of H with
  | loop_bind ?m _ = _ => destruct m as [[[st1 r1]|e]|] eqn:E; [|done|done]
  end.
  apply gen_grid_frame in E as (Hargs & Hseen & Hsc & Hnc & Hlen & Hw & Hh).
  simpl in *. injection H as <- <- <-.
  split; [done|]. split; [done|]. split; [done|]. simpl. rewrite Hseen.
  split.
  { rewrite <- list_fmap_compose. apply list_fmap_ext. intros _ row _.
    simpl. by rewrite length_fmap. }
  split; [apply sum_seen_cleared|].
  split.
  { unfold grid_dims_ok, width, height. simpl. by rewrite Hargs. }
  split; [by rewrite !length_fmap|].
  rewrite <- list_fmap_compose. apply Forall_fmap, Forall_forall.
  intros a _. apply length_obs_vector.
Qed.

Lemma step_grid_dims oco st actions r st' :
  step oco st actions = Ok (r, st') → same_dims (grid st) (grid st').
Proof.
  intros (st1 & rewards & dones0 & Hloop & _ & _ & _ & -> & _)%step_Ok.
  by pose proof Hloop as ((_ & _ & _ & _ & _ & Hd) & _)%step_loop_frame.
Qed.

Lemma step_observations oco st actions r st' :
  step oco st actions = Ok (r, st') →
  length (res_obs r) = length (agents st) ∧
  Forall (λ o, length o = 11%nat) (res_obs r).
Proof.
  intros (st1 & rewards & dones0 & Hloop & _ & _ & -> & _)%step_Ok.
  pose proof Hloop as ((_ & _ & _ & Hlen & _) & _)%step_loop_frame.
  simpl in Hlen.
  destruct (observe_agents_eleven (_update_seen_cells st1)) as [H1 H2].
  split; [by rewrite H1|done].
Qed.

(** C8.  Whatever the state and the agent, the observation is the agent's
    position, one slot of three scalars for each of the at most three goals
    selected, and zeros up to three slots: eleven scalars in all.  So are
    the observations a [step] or a [reset] returns, one per agent. *)
Theorem observation_has_eleven_scalars (oco : bool)
    (gep : Z → Z → nat → result (list pos)) (st : Env) (a : Agent) :
  (length (goals_in_fov st a) ≤ 3)%nat ∧
  (_get_obs st a).1 =
    [(cur_pos a).1; (cur_pos a).2] ++ (goals_in_fov st a ≫= goal_slot)
    ++ replicate (3 * (3 - length (goals_in_fov st a))) 0 ∧
  length (_get_obs st a).1 = 11%nat ∧
  obs (_get_obs st a).2 = (_get_obs st a).1 ∧
  (∀ actions r st',
     step oco st actions = Ok (r, st') →
     length (res_obs r) = length (agents st) ∧
     Forall (λ o, length o = 11%nat) (res_obs r)) ∧
  (∀ fuel rng observations st' rng',
     reset gep fuel rng st = Some (Ok (observations, st', rng')) →
     length observations = length (agents st) ∧
     Forall (λ o, length o = 11%nat) observations).
Proof.
  split; [apply length_goals_in_fov|].
  split; [apply obs_vector_slots|].
  split; [apply length_obs_vector|].
  split; [done|].
  split.
  - intros actions r st'. apply step_observations.
  - intros fuel rng observations st' rng' H.
    by apply reset_well_formed in H as (_ & _ & _ & _ & _ & _ & Hlen & Hall).
Qed.

(** The first tick of [duo_env], and the [reset] that made [duo_env]. *)
Lemma observation_has_eleven_scalars_witness :
  (length (res_obs duo_tick.1) = length (agents duo_env) ∧
   Forall (λ o, length o = 11%nat) (res_obs duo_tick.1)) ∧
  (length (obs <$> agents duo_env) = length (agents duo_start) ∧
   Forall (λ o, length o = 11%nat) (obs <$> agents duo_env)).
Proof.
  destruct (observation_has_eleven_scalars true no_edge_positions duo_env
              (first_agent duo_env)) as (_ & _ & _ & _ & Hstep & _).
  destruct (observation_has_eleven_scalars true no_edge_positions duo_start
              (first_agent duo_start)) as (_ & _ & _ & _ & _ & Hreset).
  split.
  - apply (Hstep [up; up] duo_tick.1 duo_tick.2). vm_compute; reflexivity.
  - apply (Hreset 1%nat ones_then_zeros (obs <$> agents duo_env) duo_env
             (advance ones_then_zeros 4)).
    vm_compute; reflexivity.
Defined.

(** In every reachable state the coverage matrix has the shape of the
    interior and the grid has the configured size. *)
Lemma reachable_well_formed oco gep st :
  reachable oco gep st → shape_ok st ∧ grid_dims_ok st.
Proof.
  induction 1 as [cfg ags|st fuel r observations st' r' _ [IHs IHg] Hreset
                 |st actions res st' _ [IHs IHg] Hstep].
  - split; [apply init_shape_ok|done].
  - apply reset_well_formed in Hreset as (Hargs & _ & _ & Hlen & _ & Hd & _ & _).
    split; [|done]. unfold shape_ok, width, height in *. by rewrite Hlen, Hargs.
  - split; [by eapply step_shape|].
    pose proof (step_args _ _ _ _ Hstep) as Hargs. simpl in Hargs.
    destruct (step_grid_dims _ _ _ _ _ Hstep) as [Hw Hh].
    destruct IHg as [Hgw Hgh].
    unfold grid_dims_ok, width, height in *. rewrite Hargs. split; congruence.
Qed.

(** ** The general lemmas at the example environments *)

(** The first agent of [duo_env] walks down into the wall. *)
Lemma blocked_move_keeps_state_witness :
  resolve_move true duo_env [0%Q; 0%Q] 0 down =
  Ok (duo_env, <[0%nat := _reward duo_env (-5)]> [0%Q; 0%Q]).
Proof.
  apply (blocked_move_keeps_state true duo_env [0%Q; 0%Q] 0 down
           (first_agent duo_env) (Some WallObj) None);
    [vm_compute; reflexivity|vm_compute; reflexivity|vm_compute; reflexivity|].
  by left.
Defined.

Lemma duo_env_consistent : occupancy_consistent duo_env.
Proof.
  intros [|[|i]] a H; vm_compute in H; [| |done];
    injection H as <-; vm_compute; reflexivity.
Qed.

(** The first agent of [duo_env] walks up onto a cell nobody stands on. *)
Lemma move_to_free_cell_keeps_consistent_witness :
  occupancy_consistent duo_first_move.1.
Proof.
  apply (move_to_free_cell_keeps_consistent true duo_env [0%Q; 0%Q] 0 up
           (first_agent duo_env) duo_first_move.1 duo_first_move.2);
    [apply duo_env_consistent|vm_compute; reflexivity|vm_compute; reflexivity
    |vm_compute; reflexivity].
Defined.

(** Two ticks of [duo_env]. *)
Lemma run_coverage_monotone_witness :
  args duo_later = args duo_env ∧ shape_ok duo_later ∧
  (∀ a b, lookup2 (seen_cells duo_env) a b = Some true →
          lookup2 (seen_cells duo_later) a b = Some true) ∧
  (_calculate_seen_percentage duo_env <= _calculate_seen_percentage duo_later)%Q.
Proof.
  apply (run_coverage_monotone true [[up; up]; [right; up]] duo_env duo_later);
    vm_compute; reflexivity.
Defined.

(** [duo_env] is what [reset] makes of a fresh environment. *)
Lemma reachable_well_formed_witness : shape_ok duo_env ∧ grid_dims_ok duo_env.
Proof.
  apply (reachable_well_formed true no_edge_positions duo_env).
  apply (reachable_reset true no_edge_positions duo_start 1 ones_then_zeros
           (obs <$> agents duo_env) duo_env (advance ones_then_zeros 4)).
  - apply reachable_init.
  - vm_compute. reflexivity.
Defined.

(** [goalless_env]: one action and [step] raises; no action, and the loop
    does not run, no flag is set and nothing is divided. *)
Lemma goalless_step_raises :
  step true goalless_env [up] = Err ZeroDivisionError ∧
  res_dones <$> (fst <$> ok_value (step true goalless_env [])) = Some [false].
Proof. split; vm_compute; reflexivity. Qed.

(** ** The state of an episode *)

Lemma same_static_refl st : same_static st st.
Proof. by repeat split. Qed.

Lemma same_static_trans st1 st2 st3 :
  same_static st1 st2 → same_static st2 st3 → same_static st1 st3.
Proof.
  intros (? & ? & ? & ? & ? & ? & ?) (? & ? & ? & ? & ? & ? & ?).
  repeat split; congruence.
Qed.

Lemma same_static_ok st st' : same_static st st' → static_ok st → static_ok st'.
Proof.
  intros (Ha & Hg & Ho & Hn & Hc & Hw & Hh) (Hd & Hb & Hwalls & Hr & Hcol & Hcnt).
  unfold static_ok, grid_dims_ok, cells_in_bounds, walls_ok, refs_ok,
    colours_ok, counter_ok, width, height in *.
  rewrite Ha, Hg, Ho, Hn, Hc, Hw, Hh. done.
Qed.

Lemma set_cells_Ok g x y v g' :
  Grid.set g x y v = Ok g' →
  Grid.in_bounds g x y = true ∧ same_dims g g' ∧
  Grid.agent_cells g' = Grid.agent_cells g ∧
  Grid.cells g' =
    match v with
    | Some o => <[(x, y) := o]> (Grid.cells g)
    | None => delete (x, y) (Grid.cells g)
    end.
Proof.
  unfold Grid.set. destruct (Grid.in_bounds g x y); [|done].
  by intros [= <-].
Qed.

Lemma in_bounds_iff g x y :
  Grid.in_bounds g x y = true ↔ 0 ≤ x < Grid.width g ∧ 0 ≤ y < Grid.height g.
Proof.
  unfold Grid.in_bounds. rewrite !andb_true_iff, !Z.leb_le, !Z.ltb_lt. lia.
Qed.

Lemma foldl_set_walls (cs : list (Z * Z)) : ∀ (acc : result Grid.t) g',
  foldl (λ (r : result Grid.t) (c : Z * Z), g1 ← r; Grid.set g1 c.1 c.2 (Some WallObj))
        acc cs = Ok g' →
  ∃ g, acc = Ok g ∧ same_dims g g' ∧
       Grid.agent_cells g' = Grid.agent_cells g ∧
       (∀ c, c ∈ cs → Grid.in_bounds g c.1 c.2 = true) ∧
       (∀ p, Grid.cells g' !! p =
             if decide (p ∈ cs) then Some WallObj else Grid.cells g !! p).
Proof.
  induction cs as [|c cs IH]; intros acc g' H; simpl in H.
  - exists g'. repeat split; try done. intros c Hc. by apply elem_of_nil in Hc.
  - apply IH in H as (g1 & H & [Hw Hh] & Hag & Hin & Hcells).
    apply bind_Ok in H as (g & -> & (Hb & [Hw1 Hh1] & Hag1 & Hc1)%set_cells_Ok).
    exists g. split; [done|]. split; [split; congruence|]. split; [congruence|].
    split.
    + intros c' [->|Hc']%elem_of_cons; [done|].
      specialize (Hin c' Hc'). apply in_bounds_iff in Hin. apply in_bounds_iff.
      by rewrite <- Hw1, <- Hh1.
    + intros p. rewrite Hcells, Hc1, <- surjective_pairing.
      destruct (decide (p ∈ cs)) as [Hp|Hp].
      * rewrite decide_True; [done|]. by right.
      * destruct (decide (p = c)) as [->|Hne].
        -- rewrite decide_True by left. by rewrite lookup_insert_eq.
        -- rewrite decide_False; [by rewrite lookup_insert_ne|].
           by intros [->|?]%elem_of_cons.
Qed.

Lemma elem_of_wall_cells w h p :
  p ∈ Grid.wall_cells 0 0 w h ↔
  (0 ≤ p.1 < w ∧ (p.2 = 0 ∨ p.2 = h - 1)) ∨
  (0 ≤ p.2 < h ∧ (p.1 = 0 ∨ p.1 = w - 1)).
Proof.
  unfold Grid.wall_cells. rewrite !elem_of_app, !list_elem_of_fmap.
  destruct p as [x y]. simpl. split.
  - intros [(i & [= -> ->] & Hi%elem_of_seqZ)|[(i & [= -> ->] & Hi%elem_of_seqZ)
      |[(j & [= -> ->] & Hj%elem_of_seqZ)|(j & [= -> ->] & Hj%elem_of_seqZ)]]]; lia.
  - intros [[Hx [->| ->]]|[Hy [->| ->]]].
    + left. exists x. split; [done|]. apply elem_of_seqZ. lia.
    + right; left. exists x. split; [f_equal; lia|]. apply elem_of_seqZ. lia.
    + do 2 right; left. exists y. split; [done|]. apply elem_of_seqZ. lia.
    + do 3 right. exists y. split; [f_equal; lia|]. apply elem_of_seqZ. lia.
Qed.

(** [wall_rect] on a fresh grid: walls on the perimeter, nothing else, no
    agent. *)
Lemma wall_rect_new w h g :
  Grid.wall_rect (Grid.new w h) 0 0 w h = Ok g →
  Grid.width g = w ∧ Grid.height g = h ∧ Grid.agent_cells g = ∅ ∧
  ∀ p, Grid.cells g !! p =
       if decide (on_perimeter w h p) then Some WallObj else None.
Proof.
  unfold Grid.wall_rect. intros H.
  apply foldl_set_walls in H as (g0 & [= <-] & [Hw Hh] & Hag & Hin & Hcells).
  split; [done|]. split; [done|]. split; [done|].
  intros p. rewrite Hcells. cbn [Grid.new Grid.cells]. rewrite lookup_empty.
  case_decide as Hp; case_decide as Hq; try done; exfalso.
  - apply Hq. pose proof (Hin p Hp) as Hb.
    apply in_bounds_iff in Hb. cbn [Grid.new Grid.width Grid.height] in Hb.
    apply elem_of_wall_cells in Hp. unfold on_perimeter. lia.
  - apply Hp. destruct Hq as [Hb Hring]. apply elem_of_wall_cells. lia.
Qed.

Lemma place_agent_Ok st i x y st' :
  _place_agent st i x y = Ok st' →
  same_static st st' ∧ Grid.in_bounds (grid st) x y = true ∧
  ∃ a, agents st !! i = Some a ∧
       agents st' = <[i := mkAgent (x, y) (x, y) 3 (obs a) (agent_goals a)]> (agents st) ∧
       Grid.agent_cells (grid st') = <[(x, y) := i]> (Grid.agent_cells (grid st)).
Proof.
  unfold _place_agent. intros H.
  apply bind_Ok in H as (a & Ha%of_option_Ok & H).
  apply bind_Ok in H as (g & (Hb & Hw & Hh & Hc & Hm)%set_agent_Ok & [= <-]).
  split; [by repeat split|]. split; [done|]. by exists a.
Qed.

Lemma foldl_place_agents_static (ps : list (nat * pos)) : ∀ (acc : result Env) st',
  foldl (λ (r : result Env) (ip : nat * pos),
           st1 ← r; _place_agent st1 ip.1 ip.2.1 ip.2.2) acc ps = Ok st' →
  ∃ st, acc = Ok st ∧ same_static st st'.
Proof.
  induction ps as [|ip ps IH]; intros acc st' H; simpl in H.
  - exists st'. split; [done|apply same_static_refl].
  - apply IH in H as (st1 & H & Hf).
    apply bind_Ok in H as (st & -> & [Hp _]%place_agent_Ok).
    exists st. split; [done|]. by eapply same_static_trans.
Qed.

Lemma count_collected_app gs gs' :
  count_collected (gs ++ gs') = (count_collected gs + count_collected gs')%nat.
Proof. unfold count_collected. by rewrite filter_app, length_app. Qed.

Lemma put_object_static_ok st obj x y st' :
  static_ok st →
  Grid.cells (grid st) !! (x, y) = None →
  put_object st obj x y = Ok st' →
  static_ok st' ∧ args st' = args st ∧ agents st' = agents st ∧
  Grid.agent_cells (grid st') = Grid.agent_cells (grid st) ∧
  length (goals st') =
    (length (goals st) + match obj with NewGoal => 1 | NewObstacle => 0 end)%nat ∧
  length (obstacles st') =
    (length (obstacles st) + match obj with NewGoal => 0 | NewObstacle => 1 end)%nat.
Proof.
  intros ([Hdw Hdh] & Hb & Hwalls & (Hr1 & Hr2 & Hr3 & Hr4) & Hcol & Hcnt) Hfree H.
  assert (∀ ref g,
    Grid.set (grid st) x y (Some ref) = Ok g →
    ref ≠ WallObj →
    Grid.width g = width st ∧ Grid.height g = height st ∧
    (∀ p, is_Some (Grid.cells g !! p) → 0 ≤ p.1 < width st ∧ 0 ≤ p.2 < height st) ∧
    (∀ p, Grid.cells g !! p = Some WallObj ↔ on_perimeter (width st) (height st) p) ∧
    Grid.cells g = <[(x, y) := ref]> (Grid.cells (grid st)) ∧
    Grid.agent_cells g = Grid.agent_cells (grid st)) as Hset.
  { intros ref g (Hin & [Hw Hh] & Hag & Hc)%set_cells_Ok Hnw.
    apply in_bounds_iff in Hin.
    split; [congruence|]. split; [congruence|]. rewrite Hc. split; [|split; [|done]].
    - intros p. destruct (decide (p = (x, y))) as [->|Hne].
      + intros _. simpl. lia.
      + rewrite lookup_insert_ne by done. apply Hb.
    - intros p. destruct (decide (p = (x, y))) as [->|Hne].
      + rewrite lookup_insert_eq. split; [intros [=]; congruence|].
        intros Hp. apply Hwalls in Hp.
        by pose proof (eq_trans (eq_sym Hp) Hfree).
      + rewrite lookup_insert_ne by done. apply Hwalls. }
  assert (∀ p v, Grid.cells (grid st) !! p = Some v → (x, y) ≠ p) as Hocc.
  { intros p v Hp <-. by pose proof (eq_trans (eq_sym Hp) Hfree). }
  unfold put_object in H. destruct obj.
  - apply bind_Ok in H as (g & Hg & [= <-]).
    destruct (Hset _ _ Hg ltac:(done)) as (Hw & Hh & Hb' & Hwalls' & Hc & Hag).
    split; [|simpl; rewrite ?length_app; simpl; repeat split; try done; lia].
    unfold static_ok, grid_dims_ok, cells_in_bounds, walls_ok, refs_ok,
      colours_ok, counter_ok, width, height in *. simpl.
    split; [done|]. split; [done|]. split; [done|]. rewrite Hc.
    split; [|split].
    + split; [|split; [|split]].
      * intros k g0 Hk. apply lookup_app_Some in Hk as [Hk|[Hlen Hk]].
        -- rewrite lookup_insert_ne; [by apply Hr1|].
           eapply Hocc. by apply Hr1.
        -- apply list_lookup_singleton_Some in Hk as [Hk <-]. simpl.
           rewrite lookup_insert_eq. do 2 f_equal. lia.
      * intros p k. destruct (decide (p = (x, y))) as [->|Hne].
        -- rewrite lookup_insert_eq. intros [= <-].
           exists (mkGoal (x, y) false green). split; [|done].
           by rewrite lookup_app_r, Nat.sub_diag by lia.
        -- rewrite lookup_insert_ne by done. intros (g0 & Hk & Hp)%Hr2.
           exists g0. split; [|done]. by apply lookup_app_l_Some.
      * intros o q Ho. rewrite lookup_insert_ne; [by apply Hr3|].
        eapply Hocc. by apply Hr3.
      * intros p o. destruct (decide (p = (x, y))) as [->|Hne].
        -- rewrite lookup_insert_eq. by intros [=].
        -- rewrite lookup_insert_ne by done. apply Hr4.
    + intros k g0 Hk. apply lookup_app_Some in Hk as [Hk|[Hlen Hk]].
      * by eapply Hcol.
      * by apply list_lookup_singleton_Some in Hk as [Hk <-].
    + rewrite count_collected_app. unfold count_collected at 2.
      rewrite filter_cons, decide_False by done. simpl. lia.
  - apply bind_Ok in H as (g & Hg & [= <-]).
    destruct (Hset _ _ Hg ltac:(done)) as (Hw & Hh & Hb' & Hwalls' & Hc & Hag).
    split; [|simpl; rewrite ?length_app; simpl; repeat split; try done; lia].
    unfold static_ok, grid_dims_ok, cells_in_bounds, walls_ok, refs_ok,
      colours_ok, counter_ok, width, height in *. simpl.
    split; [done|]. split; [done|]. split; [done|]. rewrite Hc.
    split; [|by split].
    split; [|split; [|split]].
    + intros k g0 Hk. rewrite lookup_insert_ne; [by apply Hr1|].
      eapply Hocc. by apply Hr1.
    + intros p k. destruct (decide (p = (x, y))) as [->|Hne].
      * rewrite lookup_insert_eq. by intros [=].
      * rewrite lookup_insert_ne by done. apply Hr2.
    + intros o q Ho. apply lookup_app_Some in Ho as [Ho|[Hlen Ho]].
      * rewrite lookup_insert_ne; [by apply Hr3|].
        eapply Hocc. by apply Hr3.
      * apply list_lookup_singleton_Some in Ho as [Ho <-].
        rewrite lookup_insert_eq. do 2 f_equal. lia.
    + intros p o. destruct (decide (p = (x, y))) as [->|Hne].
      * rewrite lookup_insert_eq. intros [= <-].
        by apply list_lookup_middle.
      * rewrite lookup_insert_ne by done. intros Ho%Hr4.
        by apply lookup_app_l_Some.
Qed.

Lemma same_agents_refl st : same_agents st st.
Proof. by repeat split. Qed.

Lemma same_agents_trans st1 st2 st3 :
  same_agents st1 st2 → same_agents st2 st3 → same_agents st1 st3.
Proof. intros (? & ? & ? & ?) (? & ? & ? & ?). repeat split; congruence. Qed.

Lemma integers_Ok low high r v r' :
  integers low high r = Ok (v, r') → low ≤ v < high.
Proof.
  unfold integers. destruct (low <? high) eqn:E; [|done].
  apply Z.ltb_lt in E. intros [= <- _].
  pose proof (Z.mod_pos_bound (Z.of_nat (draws r (cursor r))) (high - low)
                ltac:(lia)). lia.
Qed.

Lemma rand_pos_Ok xl xh yl yh r p r' :
  _rand_pos xl xh yl yh r = Ok (p, r') → xl ≤ p.1 < xh ∧ yl ≤ p.2 < yh.
Proof.
  unfold _rand_pos. intros H.
  apply bind_Ok in H as ([x r1] & Hx%integers_Ok & H).
  apply bind_Ok in H as ([y r2] & Hy%integers_Ok & [= <- _]). done.
Qed.

Lemma place_object_Ok fuel : ∀ r st obj st' r',
  _place_object fuel r st obj = Some (Ok (st', r')) →
  ∃ x y, (1 ≤ x < width st - 2 ∧ 1 ≤ y < height st - 2) ∧
         Grid.cells (grid st) !! (x, y) = None ∧
         put_object st obj x y = Ok st'.
Proof.
  induction fuel as [|fuel IH]; intros r st obj st' r' H; simpl in H; [done|].
  destruct (_rand_pos _ _ _ _ r) as [[p r1]|e] eqn:Ep; [|done].
  apply rand_pos_Ok in Ep.
  destruct (Grid.get (grid st) p.1 p.2) as [[c|]|e] eqn:Eg; [by eapply IH| |done].
  injection H as H. apply bind_Ok in H as (st1 & Hp & [= <- _]).
  exists p.1, p.2. split; [done|]. split; [|done].
  unfold Grid.get in Eg. destruct (Grid.in_bounds _ _ _); [|done].
  injection Eg as Eg. by rewrite <- surjective_pairing.
Qed.

Lemma put_object_lists st obj x y st' :
  put_object st obj x y = Ok st' →
  goals st' = match obj with
              | NewGoal => goals st ++ [mkGoal (x, y) false green]
              | NewObstacle => goals st
              end ∧
  obstacles st' = match obj with
                  | NewGoal => obstacles st
                  | NewObstacle => obstacles st ++ [(x, y)]
                  end ∧
  num_collected st' = num_collected st.
Proof.
  unfold put_object. destruct obj; intros H;
    by apply bind_Ok in H as (g & _ & [= <-]).
Qed.

Lemma place_object_placed fuel r st obj st' r' :
  placed_ok st →
  _place_object fuel r st obj = Some (Ok (st', r')) →
  placed_ok st' ∧ same_agents st st' ∧
  length (goals st') =
    (length (goals st) + match obj with NewGoal => 1 | NewObstacle => 0 end)%nat ∧
  length (obstacles st') =
    (length (obstacles st) + match obj with NewGoal => 0 | NewObstacle => 1 end)%nat.
Proof.
  intros (Hs & [Hrg Hro] & Hun) (x & y & [Hx Hy] & Hfree & Hput)%place_object_Ok.
  destruct (put_object_static_ok _ _ _ _ _ Hs Hfree Hput)
    as (Hs' & Ha & Hag & Hac & Hlg & Hlo).
  destruct (put_object_lists _ _ _ _ _ Hput) as (Hg & Ho & Hn).
  split; [|by repeat split].
  split; [done|].
  assert (in_sampled_region st' (x, y)) as Hin.
  { unfold in_sampled_region, width, height in *. rewrite Ha. simpl. lia. }
  assert (∀ p, in_sampled_region st p → in_sampled_region st' p) as Hkeep.
  { intros p. unfold in_sampled_region, width, height. by rewrite Ha. }
  unfold objects_in_region, all_uncollected. rewrite Hg, Ho.
  destruct obj.
  - split; [split|].
    + intros k g [Hk|[_ Hk]]%lookup_app_Some; [by eapply Hkeep, Hrg|].
      by apply list_lookup_singleton_Some in Hk as [_ <-].
    + intros o q Hq. by eapply Hkeep, Hro.
    + intros k g [Hk|[_ Hk]]%lookup_app_Some; [by eapply Hun|].
      by apply list_lookup_singleton_Some in Hk as [_ <-].
  - split; [split|done].
    + intros k g Hk. by eapply Hkeep, Hrg.
    + intros o q [Hq|[_ Hq]]%lookup_app_Some; [by eapply Hkeep, Hro|].
      by apply list_lookup_singleton_Some in Hq as [_ <-].
Qed.

Lemma place_objects_placed fuel obj n : ∀ st r st' r',
  placed_ok st →
  place_objects fuel n obj (st, r) = Some (Ok (st', r')) →
  placed_ok st' ∧ same_agents st st' ∧
  length (goals st') =
    (length (goals st) + match obj with NewGoal => n | NewObstacle => 0 end)%nat ∧
  length (obstacles st') =
    (length (obstacles st) + match obj with NewGoal => 0 | NewObstacle => n end)%nat.
Proof.
  induction n as [|n IH]; intros st r st' r' Hok H; simpl in H.
  - injection H as <- _. split; [done|]. split; [apply same_agents_refl|].
    destruct obj; lia.
  - destruct (_place_object fuel r st obj) as [[[st1 r1]|e]|] eqn:E; simpl in H; try done.
    destruct (place_object_placed _ _ _ _ _ _ Hok E) as (Hok1 & Hsa1 & Hg1 & Ho1).
    destruct (IH _ _ _ _ Hok1 H) as (Hok2 & Hsa2 & Hg2 & Ho2).
    split; [done|]. split; [by eapply same_agents_trans|].
    destruct obj; lia.
Qed.

Lemma gen_grid_inv gep fuel r st w h st' r' :
  _gen_grid gep fuel r st w h = Some (Ok (st', r')) →
  ∃ g st1 st2 r2,
    Grid.wall_rect (Grid.new w h) 0 0 w h = Ok g ∧
    match length (agents st) with
    | 1%nat => _place_agent (set_grid st g) 0 (w `div` 2) (h - 2)
    | 2%nat => place_agents (set_grid st g) [(1, h - 2); (w - 2, h - 2)]
    | 3%nat => place_agents (set_grid st g)
                 [(1, h - 2); (w - 2, h - 2); (w `div` 2, 1)]
    | 4%nat => place_agents (set_grid st g)
                 [(1, 1); (w - 2, 1); (1, h - 2); (w - 2, h - 2)]
    | n => positions ← gep w h n; place_agents (set_grid st g) positions
    end = Ok st1 ∧
    place_objects fuel (Z.to_nat (num_goals (args st))) NewGoal (st1, r)
      = Some (Ok (st2, r2)) ∧
    place_objects fuel (Z.to_nat (num_obstacles (args st))) NewObstacle (st2, r2)
      = Some (Ok (st', r')).
Proof.
  unfold _gen_grid. intros H.
  destruct (Grid.wall_rect (Grid.new w h) 0 0 w h) as [g|e] eqn:Eg; [|done].
  cbn [loop_bind mbind result_bind agents set_grid] in H.
  match type of H with
  | match ?m with Ok _ => _ | Err _ => _ end = _ =>
      destruct m as [st1|e] eqn:E1; [|done]
  end.
  destruct (place_objects fuel _ NewGoal (st1, r)) as [[[st2 r2]|e]|] eqn:E2;
    simpl in H; try done.
  by exists g, st1, st2, r2.
Qed.

Lemma gen_grid_agents_static gep st g w h st1 :
  match length (agents st) with
  | 1%nat => _place_agent (set_grid st g) 0 (w `div` 2) (h - 2)
  | 2%nat => place_agents (set_grid st g) [(1, h - 2); (w - 2, h - 2)]
  | 3%nat => place_agents (set_grid st g)
               [(1, h - 2); (w - 2, h - 2); (w `div` 2, 1)]
  | 4%nat => place_agents (set_grid st g)
               [(1, 1); (w - 2, 1); (1, h - 2); (w - 2, h - 2)]
  | n => positions ← gep w h n; place_agents (set_grid st g) positions
  end = Ok st1 →
  same_static (set_grid st g) st1.
Proof.
  intros E1. destruct (length (agents st)) as [|[|[|[|[|k]]]]].
  - apply bind_Ok in E1 as (ps & _ & E1).
    by apply foldl_place_agents_static in E1 as (? & [= <-] & ?).
  - by apply place_agent_Ok in E1 as [? _].
  - by apply foldl_place_agents_static in E1 as (? & [= <-] & ?).
  - by apply foldl_place_agents_static in E1 as (? & [= <-] & ?).
  - by apply foldl_place_agents_static in E1 as (? & [= <-] & ?).
  - apply bind_Ok in E1 as (ps & _ & E1).
    by apply foldl_place_agents_static in E1 as (? & [= <-] & ?).
Qed.

Lemma walled_placed_ok st g :
  goals st = [] → obstacles st = [] → num_collected st = 0%nat →
  Grid.wall_rect (Grid.new (width st) (height st)) 0 0 (width st) (height st) = Ok g →
  placed_ok (set_grid st g).
Proof.
  intros Hg Ho Hn (Hw & Hh & _ & Hc)%wall_rect_new.
  unfold placed_ok, static_ok, grid_dims_ok, cells_in_bounds, walls_ok, refs_ok,
    colours_ok, counter_ok, objects_in_region, all_uncollected.
  change (grid (set_grid st g)) with g. change (width (set_grid st g)) with (width st).
  change (height (set_grid st g)) with (height st).
  change (goals (set_grid st g)) with (goals st).
  change (obstacles (set_grid st g)) with (obstacles st).
  change (num_collected (set_grid st g)) with (num_collected st).
  rewrite Hg, Ho, Hn.
  split; [|by split; [split|]; intros ? ? ?].
  split; [done|]. split.
  { intros p [c Hp]. rewrite Hc in Hp. case_decide as Hper; [|done]. apply Hper. }
  split.
  { intros p. rewrite Hc. case_decide; naive_solver. }
  split; [|done].
  split; [done|]. split.
  { intros p k. rewrite Hc. by case_decide. }
  split; [done|]. intros p o. rewrite Hc. by case_decide.
Qed.

Lemma gen_grid_placed gep fuel r st st' r' :
  goals st = [] → obstacles st = [] → num_collected st = 0%nat →
  _gen_grid gep fuel r st (width st) (height st) = Some (Ok (st', r')) →
  ∃ g st1,
    Grid.wall_rect (Grid.new (width st) (height st)) 0 0 (width st) (height st)
      = Ok g ∧
    match length (agents st) with
    | 1%nat => _place_agent (set_grid st g) 0 (width st `div` 2) (height st - 2)
    | 2%nat => place_agents (set_grid st g)
                 [(1, height st - 2); (width st - 2, height st - 2)]
    | 3%nat => place_agents (set_grid st g)
                 [(1, height st - 2); (width st - 2, height st - 2);
                  (width st `div` 2, 1)]
    | 4%nat => place_agents (set_grid st g)
                 [(1, 1); (width st - 2, 1); (1, height st - 2);
                  (width st - 2, height st - 2)]
    | n => positions ← gep (width st) (height st) n;
           place_agents (set_grid st g) positions
    end = Ok st1 ∧
    same_agents st1 st' ∧
    placed_ok st' ∧ counts_ok st' ∧ args st' = args st ∧
    num_collected st' = 0%nat.
Proof.
  intros Hg Ho Hn (g & st1 & st2 & r2 & Eg & E1 & E2 & E3)%gen_grid_inv.
  exists g, st1. split; [done|]. split; [done|].
  apply gen_grid_agents_static in E1 as Hs1.
  pose proof (walled_placed_ok _ _ Hg Ho Hn Eg) as (Hst & [Hrg Hro] & Hun).
  assert (placed_ok st1) as Hok1.
  { destruct Hs1 as (Ha & Hg1 & Ho1 & Hn1 & Hc1 & Hd1).
    split; [by eapply same_static_ok|].
    unfold objects_in_region, all_uncollected, in_sampled_region, width, height.
    rewrite Hg1, Ho1, Ha. done. }
  destruct (place_objects_placed _ _ _ _ _ _ _ Hok1 E2)
    as (Hok2 & Hsa2 & Hlg2 & Hlo2).
  destruct (place_objects_placed _ _ _ _ _ _ _ Hok2 E3)
    as (Hok3 & Hsa3 & Hlg3 & Hlo3).
  split; [by eapply same_agents_trans|].
  destruct Hsa2 as (Ha2 & _ & _ & Hn2). destruct Hsa3 as (Ha3 & _ & _ & Hn3).
  destruct Hs1 as (Ha & Hg1 & Ho1 & Hn1 & _).
  simpl in *. split; [done|]. split; [|split; congruence].
  unfold counts_ok. rewrite Hg1, Hg in *. rewrite Ho1, Ho in *. simpl in *.
  rewrite Ha3, Ha2, Ha. split; lia.
Qed.

Lemma observe_agents_static st o st' :
  observe_agents st = (o, st') → same_static st st'.
Proof. unfold observe_agents. intros [= _ <-]. by repeat split. Qed.

Lemma observe_agents_cur_pos st o st' :
  observe_agents st = (o, st') →
  cur_pos <$> agents st' = cur_pos <$> agents st.
Proof.
  unfold observe_agents. intros [= _ <-]. simpl.
  rewrite <- !list_fmap_compose. by apply list_fmap_ext.
Qed.

Lemma same_static_placed st st' :
  same_static st st' → placed_ok st → placed_ok st'.
Proof.
  intros Hs (Hst & Hr & Hun). split; [by eapply same_static_ok|].
  destruct Hs as (Ha & Hg1 & Ho1 & Hn1 & Hc1 & Hd1).
  unfold objects_in_region, all_uncollected, in_sampled_region, width, height.
  by rewrite Hg1, Ho1, Ha.
Qed.

Lemma reset_placed gep fuel r st observations st' r' :
  reset gep fuel r st = Some (Ok (observations, st', r')) →
  placed_ok st' ∧ counts_ok st' ∧ num_collected st' = 0%nat.
Proof.
  unfold reset. intros H.
  match type of H with
  | loop_bind ?m _ = _ => destruct m as [[[st1 r1]|e]|] eqn:E; [|done|done]
  end.
  apply gen_grid_placed in E as (_ & _ & _ & _ & _ & Hok & Hc & Ha & Hn);
    [|done..].
  cbn [loop_bind fst snd] in H.
  destruct (observe_agents st1) as [o st2] eqn:Eo. injection H as _ <- _.
  apply observe_agents_static in Eo as Hs.
  split; [by eapply same_static_placed|].
  destruct Hs as (Ha' & Hg1 & Ho1 & Hn1 & _).
  unfold counts_ok. rewrite Hg1, Ho1, Ha', Hn1. done.
Qed.

(** ** Placement never raises, and cannot outnumber the cells *)

Lemma place_object_no_error st obj e : ∀ fuel r,
  3 < width st → grid_dims_ok st →
  _place_object fuel r st obj ≠ Some (Err e).
Proof.
  induction fuel as [|fuel IH]; intros r Hw Hd; [done|].
  rewrite place_object_step by done.
  destruct (Grid.cells (grid st) !! sample st r 0) as [c|] eqn:Ec; [by apply IH|].
  destruct (put_object_Ok st obj (sample st r 0).1 (sample st r 0).2)
    as (st' & -> & _); [|done].
  pose proof (get_sample st r 0 Hw Hd) as Hget. unfold Grid.get in Hget.
  by destruct (Grid.in_bounds _ _ _).
Qed.

Lemma placement_frame_dims st st' :
  placement_frame st st' → grid_dims_ok st →
  width st' = width st ∧ grid_dims_ok st'.
Proof.
  intros (Ha & _ & _ & _ & _ & Hw & Hh) [Hgw Hgh].
  unfold grid_dims_ok, width, height in *. rewrite Ha. repeat split; congruence.
Qed.

Lemma place_objects_no_error fuel obj e n : ∀ st r,
  3 < width st → grid_dims_ok st →
  place_objects fuel n obj (st, r) ≠ Some (Err e).
Proof.
  induction n as [|n IH]; intros st r Hw Hd; [done|]. cbn [place_objects fst snd].
  destruct (_place_object fuel r st obj) as [[[st1 r1]|e1]|] eqn:E; cbn [loop_bind];
    [|by eapply place_object_no_error in E|done].
  apply place_object_frame in E.
  destruct (placement_frame_dims _ _ E Hd) as [Hw1 Hd1].
  apply IH; [lia|done].
Qed.

Lemma gen_grid_stages gep fuel r st w h :
  _gen_grid gep fuel r st w h =
  loop_bind (Some (walls_and_agents gep st w h))
    (λ st1,
       loop_bind (place_objects fuel (Z.to_nat (num_goals (args st))) NewGoal (st1, r))
                 (place_objects fuel (Z.to_nat (num_obstacles (args st))) NewObstacle)).
Proof. reflexivity. Qed.

Lemma walls_and_agents_dims gep st w h st1 :
  walls_and_agents gep st w h = Ok st1 →
  args st1 = args st ∧ Grid.width (grid st1) = w ∧ Grid.height (grid st1) = h.
Proof.
  unfold walls_and_agents. intros H.
  destruct (Grid.wall_rect (Grid.new w h) 0 0 w h) as [g|e] eqn:Eg; [|done].
  cbn [mbind result_bind] in H.
  apply wall_rect_dims in Eg as [Hgw Hgh].
  apply gen_grid_agents_static in H as (Ha & _ & _ & _ & _ & Hw & Hh).
  simpl in *. repeat split; congruence.
Qed.

(** Past the walls and the agents, [_gen_grid] raises nothing on a grid
    wider than 3. *)
Lemma gen_grid_no_error gep fuel r st w h st1 e :
  walls_and_agents gep st w h = Ok st1 →
  w = width st → h = height st → 3 < w →
  _gen_grid gep fuel r st w h ≠ Some (Err e).
Proof.
  intros H1 -> -> Hw. rewrite gen_grid_stages, H1. cbn [loop_bind].
  apply walls_and_agents_dims in H1 as (Ha & Hgw & Hgh).
  assert (3 < width st1 ∧ grid_dims_ok st1) as [Hw1 Hd1].
  { unfold grid_dims_ok, width, height in *. rewrite Ha. done. }
  destruct (place_objects fuel _ NewGoal (st1, r)) as [[[st2 r2]|e2]|] eqn:E2;
    cbn [loop_bind]; [|by eapply place_objects_no_error in E2|done].
  apply place_objects_frame in E2.
  destruct (placement_frame_dims _ _ E2 Hd1) as [Hw2 Hd2].
  apply place_objects_no_error; [lia|done].
Qed.

(** Distinct objects sit on distinct cells off the perimeter. *)
Lemma object_cells_interior st p c :
  static_ok st → Grid.cells (grid st) !! p = Some c → c ≠ WallObj →
  1 ≤ p.1 ≤ width st - 2 ∧ 1 ≤ p.2 ≤ height st - 2.
Proof.
  intros (_ & Hb & Hwalls & _) Hc Hne.
  destruct (Hb p ltac:(by eexists)) as [Hx Hy].
  assert (¬ on_perimeter (width st) (height st) p) as Hnp.
  { intros Hp%Hwalls. pose proof (eq_trans (eq_sym Hc) Hp) as [= ->]. done. }
  unfold on_perimeter in Hnp. lia.
Qed.

Lemma object_cells_NoDup st : static_ok st → NoDup (object_cells st).
Proof.
  intros (_ & _ & _ & (Hg & _ & Ho & _) & _). unfold object_cells.
  apply NoDup_app. split; [|split].
  - apply NoDup_alt. intros i j p Hi Hj.
    apply list_lookup_fmap_Some in Hi as (g1 & -> & Hi).
    apply list_lookup_fmap_Some in Hj as (g2 & Heq & Hj).
    apply Hg in Hi, Hj. rewrite Heq in Hi.
    pose proof (eq_trans (eq_sym Hi) Hj) as [=]. done.
  - intros p (g & -> & (k & Hk)%list_elem_of_lookup)%list_elem_of_fmap
             (o & Ho')%list_elem_of_lookup.
    apply Hg in Hk. apply Ho in Ho'.
    pose proof (eq_trans (eq_sym Hk) Ho') as [=].
  - apply NoDup_alt. intros i j p Hi Hj. apply Ho in Hi, Hj.
    pose proof (eq_trans (eq_sym Hi) Hj) as [=]. done.
Qed.

Lemma object_cells_inside st p :
  static_ok st → p ∈ object_cells st →
  1 ≤ p.1 ≤ width st - 2 ∧ 1 ≤ p.2 ≤ height st - 2.
Proof.
  intros Hok Hp. pose proof Hok as (_ & _ & _ & (Hg & _ & Ho & _) & _).
  unfold object_cells in Hp. apply elem_of_app in Hp as [Hp|Hp].
  - apply list_elem_of_fmap in Hp as (g & -> & (k & Hk)%list_elem_of_lookup).
    apply Hg in Hk. by eapply object_cells_interior.
  - apply list_elem_of_lookup in Hp as (o & Ho').
    apply Ho in Ho'. by eapply object_cells_interior.
Qed.

(** A list of distinct cells of the interior is no longer than the interior
    has cells. *)
Lemma interior_capacity (w h : Z) (l : list pos) :
  NoDup l →
  (∀ p, p ∈ l → 1 ≤ p.1 ≤ w - 2 ∧ 1 ≤ p.2 ≤ h - 2) →
  (length l ≤ Z.to_nat ((w - 2) * (h - 2)))%nat.
Proof.
  intros Hnd Hin.
  set (f := λ p : pos, Z.to_nat ((p.1 - 1) * (h - 2) + (p.2 - 1))).
  assert (NoDup (f <$> l)) as Hnd'.
  { apply NoDup_fmap_2_strong; [|done].
    intros p q Hp%Hin Hq%Hin Hf. unfold f in Hf.
    destruct p as [x y], q as [x' y']; simpl in *.
    apply Z2Nat.inj in Hf; [|nia|nia].
    assert (x = x') by nia. subst x'. f_equal. nia. }
  assert (f <$> l ⊆+ seq 0 (Z.to_nat ((w - 2) * (h - 2)))) as Hsub.
  { apply NoDup_submseteq; [done|].
    intros n (p & -> & Hp%Hin)%list_elem_of_fmap. apply elem_of_seq.
    unfold f. destruct p as [x y]; simpl in *. split; [lia|].
    simpl. apply Z2Nat.inj_lt; nia. }
  apply submseteq_length in Hsub. by rewrite length_fmap, length_seq in Hsub.
Qed.

(** What a returning [reset] has placed fits the interior. *)
Lemma reset_fits_interior gep fuel r st observations st' r' :
  reset gep fuel r st = Some (Ok (observations, st', r')) →
  (requested st ≤ Z.to_nat (total_cells st))%nat.
Proof.
  intros H. pose proof H as (Hargs & _)%reset_well_formed.
  apply reset_placed in H as ((Hok & _ & _) & [Hg Ho] & _).
  pose proof (interior_capacity (width st') (height st') (object_cells st')
                (object_cells_NoDup st' Hok)
                (λ p Hp, object_cells_inside st' p Hok Hp)) as Hcap.
  unfold object_cells in Hcap. rewrite length_app, length_fmap, Hg, Ho in Hcap.
  unfold requested, total_cells, width, height in *. by rewrite Hargs in Hcap.
Qed.

Lemma reset_no_error gep fuel r st st1 e :
  walls_and_agents gep
    (mkEnv (args st) (agents st) [] [] [] 0%nat 0%nat (grid st)
       ((λ row : list bool, (λ _ : bool, false) <$> row) <$> seen_cells st))
    (width st) (height st) = Ok st1 →
  3 < width st →
  reset gep fuel r st ≠ Some (Err e).
Proof.
  intros H1 Hw. unfold reset.
  match goal with
  | |- loop_bind ?m _ ≠ _ => destruct m as [[[s1 r1]|e1]|] eqn:E
  end; cbn [loop_bind].
  - by destruct (observe_agents _).
  - by eapply gen_grid_no_error in E.
  - done.
Qed.

(** C5, as the code has it.  The loop of [_place_object] has no bound on
    its attempts and no error of its own.  It returns at the first sample
    that hits a cell without content, with the object set there and
    recorded, so after finitely many samples; as long as the samples hit
    cells that hold something it is still running, neither returned nor
    raised, whatever the fuel; and when more goals and obstacles are
    requested than the interior has cells, [reset] does not return. *)
Theorem placement_loop_outcome (st : Env) (obj : NewObj) (r : Rng) :
  grid_dims_ok st → 3 < width st →
  (∀ k, (∀ n, (n < k)%nat → occupied st (sample st r n)) →
        Grid.cells (grid st) !! sample st r k = None →
        ∀ fuel, (k < fuel)%nat →
        ∃ st',
          _place_object fuel r st obj = Some (Ok (st', advance r (2 * S k))) ∧
          put_object st obj (sample st r k).1 (sample st r k).2 = Ok st' ∧
          Grid.cells (grid st') !! sample st r k =
            Some (match obj with
                  | NewGoal => GoalRef (length (goals st))
                  | NewObstacle => ObstacleRef (length (obstacles st))
                  end) ∧
          goals st' =
            match obj with
            | NewGoal => goals st ++ [mkGoal (sample st r k) false green]
            | NewObstacle => goals st
            end ∧
          obstacles st' =
            match obj with
            | NewGoal => obstacles st
            | NewObstacle => obstacles st ++ [sample st r k]
            end) ∧
  (∀ fuel, (∀ n, (n < fuel)%nat → occupied st (sample st r n)) →
           _place_object fuel r st obj = None) ∧
  ((Z.to_nat (total_cells st) < requested st)%nat →
   ∀ gep fuel observations st' r',
     reset gep fuel r st ≠ Some (Ok (observations, st', r'))).
Proof.
  intros Hd Hw. split; [|split].
  - intros k Hocc Hfree fuel Hfuel.
    rewrite (place_object_first_empty st obj k r fuel) by done.
    destruct (put_object_Ok st obj (sample st r k).1 (sample st r k).2)
      as (st' & Hput & Hcell & Hgoals & Hobs).
    { pose proof (get_sample st r k Hw Hd) as Hget. unfold Grid.get in Hget.
      by destruct (Grid.in_bounds _ _ _). }
    exists st'. rewrite Hput. simpl.
    rewrite <- !surjective_pairing in *. done.
  - intros fuel Hocc. by apply place_object_spins.
  - intros Hmany gep fuel observations st' r' H.
    apply reset_fits_interior in H. lia.
Qed.

(** In [duo_env] the generator [ones] draws (2, 2), where the first goal
    is. *)
Lemma placement_loop_outcome_witness :
  (∀ k, (∀ n, (n < k)%nat → occupied duo_env (sample duo_env ones n)) →
        Grid.cells (grid duo_env) !! sample duo_env ones k = None →
        ∀ fuel, (k < fuel)%nat →
        ∃ st',
          _place_object fuel ones duo_env NewObstacle
            = Some (Ok (st', advance ones (2 * S k))) ∧
          put_object duo_env NewObstacle (sample duo_env ones k).1
                     (sample duo_env ones k).2 = Ok st' ∧
          Grid.cells (grid st') !! sample duo_env ones k =
            Some (ObstacleRef (length (obstacles duo_env))) ∧
          goals st' = goals duo_env ∧
          obstacles st' = obstacles duo_env ++ [sample duo_env ones k]) ∧
  (∀ fuel, (∀ n, (n < fuel)%nat → occupied duo_env (sample duo_env ones n)) →
           _place_object fuel ones duo_env NewObstacle = None) ∧
  ((Z.to_nat (total_cells duo_env) < requested duo_env)%nat →
   ∀ gep fuel observations st' r',
     reset gep fuel ones duo_env ≠ Some (Ok (observations, st', r'))).
Proof.
  apply (placement_loop_outcome duo_env NewObstacle ones).
  - split; vm_compute; reflexivity.
  - vm_compute. reflexivity.
Defined.

(** C5 fails as worded.  [packed_start] asks for ten goals on a 5 x 5 grid,
    whose interior has nine cells: [reset] never returns and never raises,
    whatever the generator draws and however long it is left to run. *)
Lemma placement_spins_when_goals_outnumber_cells :
  requested packed_start = 10%nat ∧ total_cells packed_start = 9 ∧
  never_returns packed_start.
Proof.
  split; [reflexivity|]. split; [reflexivity|].
  intros gep fuel r.
  destruct (reset gep fuel r packed_start) as [[[[o st'] r']|e]|] eqn:E; [| |done].
  - apply reset_fits_interior in E. vm_compute in E. lia.
  - exfalso. revert E.
    eapply (reset_no_error gep fuel r packed_start
      (match walls_and_agents gep
         (mkEnv (args packed_start) (agents packed_start) [] [] [] 0%nat 0%nat
            (grid packed_start)
            ((λ row : list bool, (λ _ : bool, false) <$> row) <$> seen_cells packed_start))
         (width packed_start) (height packed_start) with
       | Ok s => s | Err _ => packed_start end)); [|done].
    vm_compute. reflexivity.
Qed.

(** ** Ticks and the state of an episode *)

Lemma progress_refl st : progress st st.
Proof. repeat split; try done. intros k g Hk. by exists g. Qed.

Lemma progress_trans st1 st2 st3 :
  progress st1 st2 → progress st2 st3 → progress st1 st3.
Proof.
  intros (Ha & Ho & Hc & [Hw Hh] & Hl & Hg) (Ha' & Ho' & Hc' & [Hw' Hh'] & Hl' & Hg').
  repeat split; try congruence.
  intros k g (g1 & Hk1 & Hp1 & Hc1)%Hg.
  destruct (Hg' _ _ Hk1) as (g2 & Hk2 & Hp2 & Hc2).
  exists g2. split; [done|]. split; [congruence|].
  intros Hcol. specialize (Hc1 Hcol). subst g1. by apply Hc2.
Qed.

Lemma same_static_progress st st' : same_static st st' → progress st st'.
Proof.
  intros (Ha & Hg & Ho & Hn & Hc & Hd). repeat split; try done; try apply Hd.
  - by rewrite Hg.
  - intros k g Hk. exists g. by rewrite Hg.
Qed.

Lemma relocate_static st i p st' :
  relocate st i p = Ok st' → same_static st st'.
Proof.
  intros (a & g1 & g2 & _ & H1 & H2 & ->)%relocate_Ok.
  apply set_agent_Ok in H1 as (_ & Hw1 & Hh1 & Hc1 & _).
  apply set_agent_Ok in H2 as (_ & Hw2 & Hh2 & Hc2 & _).
  repeat split; simpl; congruence.
Qed.

Lemma count_collected_insert gs k g g' :
  gs !! k = Some g → collected g = false → collected g' = true →
  count_collected (<[k := g']> gs) = S (count_collected gs).
Proof.
  intros Hk Hg Hg'.
  rewrite <- (take_drop_middle gs k g Hk) at 2.
  rewrite insert_take_drop by (by eapply lookup_lt_Some).
  rewrite !count_collected_app.
  change (g' :: drop (S k) gs) with ([g'] ++ drop (S k) gs).
  change (g :: drop (S k) gs) with ([g] ++ drop (S k) gs).
  rewrite !count_collected_app. unfold count_collected at 2 5.
  rewrite !filter_cons, decide_True, decide_False by congruence. simpl. lia.
Qed.

(** Collecting goal [k]: the statements of the first branch of
    [_handle_overlap]. *)
Lemma collect_static_ok st k g :
  static_ok st → goals st !! k = Some g → collected g = false →
  static_ok (set_num_collected
               (set_goals st (<[k := mkGoal (goal_cur_pos g) true grey]> (goals st)))
               (S (num_collected st))).
Proof.
  intros (Hd & Hb & Hwalls & (Hr1 & Hr2 & Hr3 & Hr4) & Hcol & Hcnt) Hk Hg.
  unfold static_ok, grid_dims_ok, cells_in_bounds, walls_ok, refs_ok,
    colours_ok, counter_ok, width, height in *. simpl.
  split; [done|]. split; [done|]. split; [done|]. split; [|split].
  - split; [|split; [|done]].
    + intros k' g' [(-> & <- & _)|[Hne Hk']]%list_lookup_insert_Some; [|by apply Hr1].
      simpl. by apply Hr1.
    + intros p k' (g' & Hk' & Hp)%Hr2. destruct (decide (k = k')) as [->|Hne].
      * exists (mkGoal (goal_cur_pos g) true grey). split.
        -- apply list_lookup_insert_eq. by eapply lookup_lt_Some.
        -- simpl. congruence.
      * exists g'. split; [|done]. apply list_lookup_insert_Some. by right.
  - intros k' g' [(-> & <- & _)|[Hne Hk']]%list_lookup_insert_Some;
      [done|by eapply Hcol].
  - rewrite Hcnt. symmetry. by eapply count_collected_insert.
Qed.

Lemma collect_progress st k g :
  goals st !! k = Some g → collected g = false →
  progress st (set_num_collected
                 (set_goals st (<[k := mkGoal (goal_cur_pos g) true grey]> (goals st)))
                 (S (num_collected st))).
Proof.
  intros Hk Hg. repeat split; simpl; try done; [by rewrite length_insert|].
  intros k' g' Hk'. destruct (decide (k = k')) as [->|Hne].
  - assert (g' = g) as -> by congruence.
    exists (mkGoal (goal_cur_pos g) true grey). split.
    + apply list_lookup_insert_eq. by eapply lookup_lt_Some.
    + split; [done|]. congruence.
  - exists g'. split; [|done]. apply list_lookup_insert_Some. by right.
Qed.

Lemma handle_overlap_inv st i p c r st' :
  _handle_overlap st i p c = Ok (r, st') →
  ∃ st1, relocate st1 i p = Ok st' ∧ agents st1 = agents st ∧
    grid st1 = grid st ∧ args st1 = args st ∧
    ((st1 = st ∧
      (r = _reward st (penalty_goal (args st))
       ∨ r = _reward st (penalty_obstacle (args st))))
     ∨ (∃ k g, c = GoalRef k ∧ goals st !! k = Some g ∧ collected g = false ∧
          r = _reward st (reward_goal (args st)) ∧
          st1 = set_num_collected
                  (set_goals st (<[k := mkGoal (goal_cur_pos g) true grey]> (goals st)))
                  (S (num_collected st)))).
Proof.
  unfold _handle_overlap. intros H.
  apply bind_Ok in H as ([reward st1] & H1 & H).
  apply bind_Ok in H as (st2 & Hrel & [= <- <-]).
  exists st1. split; [done|].
  destruct c as [k|o|]; [| |done].
  - apply bind_Ok in H1 as (g & Hk%of_option_Ok & H1).
    destruct (collected g) eqn:Eg; simpl in H1; injection H1 as <- <-.
    + do 3 (split; [done|]). left. split; [done|]. by left.
    + do 3 (split; [done|]). right. by exists k, g.
  - injection H1 as <- <-. do 3 (split; [done|]). left.
    split; [done|]. by right.
Qed.

Lemma handle_overlap_progress st i p c r st' :
  _handle_overlap st i p c = Ok (r, st') → progress st st'.
Proof.
  intros (st1 & Hrel%relocate_static & _ & _ & _ & Hcase)%handle_overlap_inv.
  destruct Hcase as [[-> _]|(k & g & _ & Hk & Hg & _ & ->)].
  - by apply same_static_progress.
  - eapply progress_trans; [by apply collect_progress|].
    by apply same_static_progress.
Qed.

Lemma handle_overlap_static st i p c r st' :
  static_ok st → _handle_overlap st i p c = Ok (r, st') → static_ok st'.
Proof.
  intros Hok (st1 & Hrel%relocate_static & _ & _ & _ & Hcase)%handle_overlap_inv.
  destruct Hcase as [[-> _]|(k & g & _ & Hk & Hg & _ & ->)].
  - by eapply same_static_ok.
  - eapply same_static_ok; [exact Hrel|]. by apply collect_static_ok.
Qed.

Lemma resolve_move_inv oco st rewards i action st' rewards' :
  resolve_move oco st rewards i action = Ok (st', rewards') →
  ∃ a cell occupant,
    agents st !! i = Some a ∧
    Grid.get (grid st) (new_pos action (cur_pos a)).1
             (new_pos action (cur_pos a)).2 = Ok cell ∧
    Grid.get_agent (grid st) (new_pos action (cur_pos a)).1
                   (new_pos action (cur_pos a)).2 = Ok occupant ∧
    ((cell = None ∧ occupant = None ∧ rewards' = rewards ∧
      relocate st i (new_pos action (cur_pos a)) = Ok st')
     ∨ (∃ c r, cell = Some c ∧ can_overlap oco c = true ∧
          _handle_overlap st i (new_pos action (cur_pos a)) c = Ok (r, st') ∧
          rewards' = <[i := r]> rewards)
     ∨ (st' = st ∧ rewards' = <[i := _reward st (-5)]> rewards)).
Proof.
  unfold resolve_move. intros H.
  apply bind_Ok in H as (a & Ha%of_option_Ok & H).
  apply bind_Ok in H as (cell & Hcell & H).
  apply bind_Ok in H as (occupant & Hocc & H).
  exists a, cell, occupant. split; [done|]. split; [done|]. split; [done|].
  destruct (bool_decide (cell = None)) eqn:E1;
    [destruct (bool_decide (occupant = None)) eqn:E2|]; simpl in H.
  - apply bool_decide_eq_true in E1 as ->. apply bool_decide_eq_true in E2 as ->.
    destruct (_ && _) eqn:E3.
    + apply bind_Ok in H as (st1 & Hrel & [= <- <-]). by left.
    + injection H as <- <-. by right; right.
  - apply bool_decide_eq_true in E1 as ->. injection H as <- <-. by right; right.
  - destruct cell as [c|]; [|by apply bool_decide_eq_false in E1].
    destruct (can_overlap oco c) eqn:Ec.
    + apply bind_Ok in H as ([r st1] & Hh & [= <- <-]).
      right; left. by exists c, r.
    + injection H as <- <-. by right; right.
Qed.

Lemma resolve_move_progress oco st rewards i action st' rewards' :
  resolve_move oco st rewards i action = Ok (st', rewards') → progress st st'.
Proof.
  intros (a & cell & occ & _ & _ & _ & Hcase)%resolve_move_inv.
  destruct Hcase as [(_ & _ & _ & Hrel%relocate_static)
                    |[(c & r & _ & _ & Hh & _)|[-> _]]].
  - by apply same_static_progress.
  - by eapply handle_overlap_progress.
  - apply progress_refl.
Qed.

Lemma resolve_move_static oco st rewards i action st' rewards' :
  static_ok st →
  resolve_move oco st rewards i action = Ok (st', rewards') → static_ok st'.
Proof.
  intros Hok (a & cell & occ & _ & _ & _ & Hcase)%resolve_move_inv.
  destruct Hcase as [(_ & _ & _ & Hrel%relocate_static)
                    |[(c & r & _ & _ & Hh & _)|[-> _]]].
  - by eapply same_static_ok.
  - by eapply handle_overlap_static.
  - done.
Qed.

Lemma step_loop_invariant oco (P : Env → Prop) :
  (∀ st rw i action st' rw',
     P st → resolve_move oco st rw i action = Ok (st', rw') → P st') →
  ∀ actions i s s',
    P s.1.1 → step_loop oco i actions s = Ok s' → P s'.1.1.
Proof.
  intros Hstep. induction actions as [|action rest IH]; intros i s s' HP H;
    simpl in H.
  - by injection H as <-.
  - apply bind_Ok in H as ([st1 rw1] & H1 & H).
    apply IH in H; [done|]. simpl. by eapply Hstep.
Qed.

Lemma step_progress oco st actions r st' :
  step oco st actions = Ok (r, st') → progress st st'.
Proof.
  intros (st1 & rewards & dones0 & Hloop & _ & _ & _ & -> & _)%step_Ok.
  apply (step_loop_invariant oco (progress st)) in Hloop.
  - eapply progress_trans; [exact Hloop|]. apply same_static_progress.
    by repeat split.
  - intros s rw i action s' rw' Hp Hres%resolve_move_progress.
    by eapply progress_trans.
  - apply same_static_progress. by repeat split.
Qed.

Lemma step_static oco st actions r st' :
  static_ok st → step oco st actions = Ok (r, st') → static_ok st'.
Proof.
  intros Hok (st1 & rewards & dones0 & Hloop & _ & _ & _ & -> & _)%step_Ok.
  apply (step_loop_invariant oco static_ok) in Hloop.
  - eapply same_static_ok; [|exact Hloop]. by repeat split.
  - intros s rw i action s' rw' Hs Hres. by eapply resolve_move_static.
  - eapply same_static_ok; [|exact Hok]. by repeat split.
Qed.

Lemma progress_counts st st' : progress st st' → counts_ok st → counts_ok st'.
Proof.
  intros (Ha & Ho & _ & _ & Hl & _) [Hg Hob]. unfold counts_ok.
  by rewrite Hl, Ho, Ha.
Qed.

Lemma progress_region st st' :
  progress st st' → objects_in_region st → objects_in_region st'.
Proof.
  intros (Ha & Ho & _ & _ & Hl & Hg) [Hrg Hro].
  unfold objects_in_region, in_sampled_region, width, height in *.
  rewrite Ha, Ho. split; [|done].
  intros k g' Hk'.
  destruct (goals st !! k) as [g|] eqn:Hk.
  - destruct (Hg _ _ Hk) as (g1 & Hk1 & Hp & _).
    assert (g1 = g') as -> by congruence. rewrite Hp. by eapply Hrg.
  - apply lookup_ge_None in Hk. apply lookup_lt_Some in Hk'. lia.
Qed.

(** A cell of the grid that holds no wall is an interior cell. *)
Lemma no_wall_interior st x y c :
  static_ok st → Grid.get (grid st) x y = Ok c → c ≠ Some WallObj →
  1 ≤ x ≤ width st - 2 ∧ 1 ≤ y ≤ height st - 2.
Proof.
  intros ([Hw Hh] & _ & Hwalls & _) Hget Hc. unfold Grid.get in Hget.
  destruct (Grid.in_bounds (grid st) x y) eqn:Hb; [|done].
  injection Hget as <-. apply in_bounds_iff in Hb. rewrite Hw, Hh in Hb.
  assert (¬ on_perimeter (width st) (height st) (x, y)) as Hper.
  { intros Hper%Hwalls. by apply Hc. }
  unfold on_perimeter in Hper. simpl in Hper. lia.
Qed.

Lemma relocate_inside st i (p : pos) st' :
  agents_inside st → relocate st i p = Ok st' →
  1 ≤ p.1 ≤ width st - 2 ∧ 1 ≤ p.2 ≤ height st - 2 →
  agents_inside st'.
Proof.
  intros Hin (a & g1 & g2 & Ha & _ & _ & ->)%relocate_Ok Hp j b.
  unfold width, height in *. simpl.
  intros [(-> & <- & _)|[_ Hj]]%list_lookup_insert_Some; [done|].
  by eapply Hin.
Qed.

Lemma resolve_move_inside oco st rewards i action st' rewards' :
  static_ok st → agents_inside st →
  resolve_move oco st rewards i action = Ok (st', rewards') →
  agents_inside st'.
Proof.
  intros Hok Hin (a & cell & occ & Ha & Hcell & _ & Hcase)%resolve_move_inv.
  destruct Hcase as [(-> & _ & _ & Hrel)|[(c & r & -> & Hc & Hh & _)|[-> _]]];
    [| |done].
  - eapply relocate_inside; [done|done|]. by eapply no_wall_interior.
  - apply handle_overlap_inv in Hh as (st1 & Hrel & Hags & _ & Hargs & _).
    assert (1 ≤ (new_pos action (cur_pos a)).1 ≤ width st - 2 ∧
            1 ≤ (new_pos action (cur_pos a)).2 ≤ height st - 2) as Hp.
    { eapply no_wall_interior; [done|done|]. intros [= ->]. by destruct oco. }
    eapply relocate_inside; [|exact Hrel|].
    + unfold agents_inside, width, height in *. by rewrite Hags, Hargs.
    + unfold width, height in *. by rewrite Hargs.
Qed.

Lemma inside_in_bounds st i a :
  static_ok st → agents_inside st → agents st !! i = Some a →
  Grid.in_bounds (grid st) (cur_pos a).1 (cur_pos a).2 = true ∧
  ∀ action, Grid.in_bounds (grid st) (new_pos action (cur_pos a)).1
                           (new_pos action (cur_pos a)).2 = true.
Proof.
  intros ([Hw Hh] & _) Hin Ha. specialize (Hin _ _ Ha).
  split; [|intros action]; apply in_bounds_iff; rewrite Hw, Hh;
    [|destruct action; simpl]; lia.
Qed.

Lemma resolve_move_returns oco st rewards i action :
  static_ok st → agents_inside st → (i < length (agents st))%nat →
  ∃ out, resolve_move oco st rewards i action = Ok out.
Proof.
  intros Hok Hin [a Ha]%lookup_lt_is_Some.
  destruct (inside_in_bounds _ _ _ Hok Hin Ha) as [Hcur Hnew].
  specialize (Hnew action).
  unfold resolve_move. rewrite Ha. cbn [of_option mbind result_bind].
  unfold Grid.get, Grid.get_agent. rewrite Hnew. cbn [mbind result_bind].
  set (p := new_pos action (cur_pos a)) in *.
  destruct (relocate_in_bounds _ _ _ p Ha Hnew Hcur) as (st1 & Hrel & _).
  destruct (_ && _).
  { rewrite Hrel. by eexists. }
  destruct (Grid.cells (grid st) !! (p.1, p.2)) as [c|] eqn:Hc; [|by eexists].
  destruct (can_overlap oco c) eqn:Hov; [|by eexists].
  unfold _handle_overlap. destruct c as [k|o|]; [| |done].
  - destruct Hok as (_ & _ & _ & (_ & Hr2 & _) & _).
    apply Hr2 in Hc as (g & Hk & _). rewrite Hk. cbn [of_option mbind result_bind].
    destruct (collected g); cbn [negb mbind result_bind].
    + rewrite Hrel. by eexists.
    + match goal with |- context [relocate ?s i p] =>
        destruct (relocate_in_bounds s i a p Ha Hnew Hcur) as (st2 & -> & _)
      end. by eexists.
  - cbn [mbind result_bind]. rewrite Hrel. by eexists.
Qed.

Lemma step_loop_returns oco actions : ∀ i s,
  static_ok s.1.1 → agents_inside s.1.1 →
  (i + length actions ≤ length (agents s.1.1))%nat →
  ∃ s', step_loop oco i actions s = Ok s'.
Proof.
  induction actions as [|action rest IH]; intros i s Hok Hin Hlen; simpl.
  - by eexists.
  - simpl in Hlen.
    destruct (resolve_move_returns oco s.1.1 s.1.2 i action Hok Hin ltac:(lia))
      as ([st1 rw1] & Hres).
    rewrite Hres. cbn [mbind result_bind].
    pose proof Hres as Hok1%resolve_move_static; [|done].
    pose proof Hres as Hin1%resolve_move_inside; [|done..].
    pose proof Hres as ((_ & _ & _ & Hl & _) & _)%resolve_move_frame.
    apply IH; simpl; [done|done|lia].
Qed.

Lemma observe_agents_lookup st i a' :
  agents (observe_agents st).2 !! i = Some a' →
  ∃ a, agents st !! i = Some a ∧ cur_pos a' = cur_pos a ∧
       init_pos a' = init_pos a ∧ direction a' = direction a.
Proof.
  unfold observe_agents. simpl. rewrite <- list_fmap_compose, list_lookup_fmap.
  destruct (agents st !! i) as [a|]; [|done]. intros [= <-]. by exists a.
Qed.

Lemma observed_inside st :
  agents_inside st → agents_inside (observe_agents (_update_seen_cells st)).2.
Proof.
  intros Hin i a' (a & Ha & Hp & _)%observe_agents_lookup. rewrite Hp.
  by apply (Hin i a).
Qed.

Lemma step_inside oco st actions r st' :
  static_ok st → agents_inside st →
  step oco st actions = Ok (r, st') → agents_inside st'.
Proof.
  intros Hok Hin (st1 & rewards & dones0 & Hloop & _ & _ & _ & -> & _)%step_Ok.
  apply observed_inside.
  apply (step_loop_invariant oco (λ s, static_ok s ∧ agents_inside s)) in Hloop
    as [_ H]; [done| |done].
  intros s rw i action s' rw' [Hs Hi] Hres. split.
  - by eapply resolve_move_static.
  - by eapply resolve_move_inside.
Qed.

Lemma step_returns oco st actions :
  static_ok st → agents_inside st →
  (length actions ≤ length (agents st))%nat → num_goals (args st) ≠ 0 →
  ∃ out, step oco st actions = Ok out.
Proof.
  intros Hok Hin Hlen Hgoals. unfold step. fold (loop_start st).
  destruct (step_loop_returns oco actions 0 (loop_start st) Hok Hin Hlen)
    as ([[st1 rewards] dones0] & Hloop).
  rewrite Hloop. cbn [mbind result_bind].
  apply step_loop_frame in Hloop as ((Hargs & _) & _). simpl in Hargs.
  change (args (_update_seen_cells st1)) with (args st1). rewrite Hargs.
  apply Z.eqb_neq in Hgoals. rewrite Hgoals.
  match goal with |- context [if ?b then Ok ?x else Ok ?y] => destruct b end;
    cbn [mbind result_bind];
    destruct (observe_agents (_update_seen_cells st1)); by eexists.
Qed.

(** ** Where [reset] puts the agents *)

Lemma foldl_place_agents_spec (ps : list pos) : ∀ n st st',
  foldl (λ (r : result Env) (ip : nat * pos),
           st1 ← r; _place_agent st1 ip.1 ip.2.1 ip.2.2)
        (Ok st) (imap (λ i p, ((n + i)%nat, p)) ps) = Ok st' →
  (∀ i a', agents st' !! i = Some a' →
     (∃ p, (n ≤ i)%nat ∧ ps !! (i - n)%nat = Some p ∧ placed_at a' p)
     ∨ (((i < n)%nat ∨ (n + length ps ≤ i)%nat) ∧ agents st !! i = Some a')) ∧
  (∀ j p, ps !! j = Some p → (∀ j', (j < j')%nat → ps !! j' ≠ Some p) →
          Grid.agent_cells (grid st') !! p = Some (n + j)%nat) ∧
  (∀ q, q ∉ ps →
        Grid.agent_cells (grid st') !! q = Grid.agent_cells (grid st) !! q).
Proof.
  induction ps as [|[x y] ps IH]; intros n st st' H.
  - injection H as <-. split; [|split; [done|done]].
    intros i a' Ha. right. split; [simpl; lia|done].
  - rewrite imap_cons in H. cbn [foldl] in H.
    pose proof H as (st1 & H1 & _)%foldl_place_agents_static.
    rewrite H1 in H. cbn [mbind result_bind fst snd] in H1.
    apply place_agent_Ok in H1 as (_ & _ & a & Ha & Hags & Hcells).
    rewrite (imap_ext _ (λ i p, ((S n + i)%nat, p))) in H
      by (intros i q _; simpl; f_equal; lia).
    apply IH in H as (IH1 & IH2 & IH3).
    split; [|split].
    + intros i a' [(q & Hle & Hq & Hpl)|[Hout Hi]]%IH1.
      * left. exists q. split; [lia|]. split; [|done].
        replace (i - n)%nat with (S (i - S n)) by lia. done.
      * rewrite Hags, Nat.add_0_r in Hi.
        apply list_lookup_insert_Some in Hi as [(-> & <- & _)|[Hne Hi]].
        -- left. exists (x, y). split; [lia|]. by rewrite Nat.sub_diag.
        -- right. split; [simpl; lia|done].
    + intros [|j] q Hq Hlast.
      * injection Hq as <-. rewrite IH3, Hcells, lookup_insert_eq; [done|].
        intros (j' & Hj')%list_elem_of_lookup. by apply (Hlast (S j')); [lia|].
      * rewrite (IH2 j q Hq); [f_equal; lia|].
        intros j' Hj'. apply (Hlast (S j')). lia.
    + intros q [Hne Hq]%not_elem_of_cons.
      rewrite IH3, Hcells by done. by rewrite lookup_insert_ne.
Qed.

Lemma place_agents_spec st (ps : list pos) st' :
  length ps = length (agents st) →
  place_agents st ps = Ok st' →
  (∀ i a', agents st' !! i = Some a' → ∃ p, ps !! i = Some p ∧ placed_at a' p) ∧
  (NoDup ps → ∀ i p, ps !! i = Some p →
                     Grid.agent_cells (grid st') !! p = Some i) ∧
  same_static st st'.
Proof.
  intros Hlen H. unfold place_agents in H.
  rewrite <- Hlen, firstn_all in H.
  pose proof H as (? & [= <-] & Hs)%foldl_place_agents_static.
  change (imap pair ps) with (imap (λ i p, ((0 + i)%nat, p)) ps) in H.
  pose proof H as (? & [= <-] & _ & _ & _ & _ & Hl & _)%foldl_place_agents_frame.
  apply foldl_place_agents_spec in H as (H1 & H2 & _).
  split; [|split; [|done]].
  - intros i a' Ha. pose proof (lookup_lt_Some _ _ _ Ha) as Hi.
    apply H1 in Ha as [(p & _ & Hp & Hpl)|[Hout _]].
    + exists p. by rewrite Nat.sub_0_r in Hp.
    + exfalso. simpl in *. lia.
  - intros Hnd i p Hp. apply (H2 i p Hp).
    intros j' Hj' Hp'. pose proof (NoDup_lookup _ _ _ _ Hnd Hp Hp'). lia.
Qed.

Lemma gen_agents_spec gep st g w h st1 :
  (1 ≤ length (agents st) ≤ 4)%nat →
  match length (agents st) with
  | 1%nat => _place_agent (set_grid st g) 0 (w `div` 2) (h - 2)
  | 2%nat => place_agents (set_grid st g) [(1, h - 2); (w - 2, h - 2)]
  | 3%nat => place_agents (set_grid st g)
               [(1, h - 2); (w - 2, h - 2); (w `div` 2, 1)]
  | 4%nat => place_agents (set_grid st g)
               [(1, 1); (w - 2, 1); (1, h - 2); (w - 2, h - 2)]
  | n => positions ← gep w h n; place_agents (set_grid st g) positions
  end = Ok st1 →
  (∀ i a', agents st1 !! i = Some a' →
     ∃ p, corner_positions w h (length (agents st)) !! i = Some p ∧
          placed_at a' p) ∧
  (NoDup (corner_positions w h (length (agents st))) →
   ∀ i p, corner_positions w h (length (agents st)) !! i = Some p →
          Grid.agent_cells (grid st1) !! p = Some i).
Proof.
  intros Hn E1.
  destruct (length (agents st)) as [|[|[|[|[|k]]]]] eqn:Hlen; try lia.
  - apply place_agent_Ok in E1 as (_ & _ & a & Ha & Hags & Hcells).
    split.
    + intros i a' Hi. rewrite Hags in Hi.
      apply list_lookup_insert_Some in Hi as [(<- & <- & _)|[Hne Hi]].
      * by exists (w `div` 2, h - 2).
      * apply lookup_lt_Some in Hi. simpl in Hi. lia.
    + intros _ [|i] p [= <-]. by rewrite Hcells, lookup_insert_eq.
  - apply place_agents_spec in E1 as (H1 & H2 & _); [by split|simpl; by rewrite Hlen].
  - apply place_agents_spec in E1 as (H1 & H2 & _); [by split|simpl; by rewrite Hlen].
  - apply place_agents_spec in E1 as (H1 & H2 & _); [by split|simpl; by rewrite Hlen].
Qed.

Lemma reset_agents gep fuel r st observations st' r' :
  reset gep fuel r st = Some (Ok (observations, st', r')) →
  (1 ≤ length (agents st) ≤ 4)%nat →
  (∀ i a', agents st' !! i = Some a' →
     ∃ p, corner_positions (width st) (height st) (length (agents st)) !! i
            = Some p ∧ placed_at a' p) ∧
  (NoDup (corner_positions (width st) (height st) (length (agents st))) →
   ∀ i p, corner_positions (width st) (height st) (length (agents st)) !! i
            = Some p →
          Grid.agent_cells (grid st') !! p = Some i).
Proof.
  unfold reset. intros H Hn.
  match type of H with
  | loop_bind ?m _ = _ => destruct m as [[[st2 r2]|e]|] eqn:E; [|done|done]
  end.
  apply gen_grid_placed in E as (g & st1 & _ & E1 & Hsa & _); [|done..].
  apply gen_agents_spec in E1 as [H1 H2]; [|done].
  cbn [loop_bind fst snd] in H.
  destruct (observe_agents st2) as [o st3] eqn:Eo. injection H as _ <- _.
  destruct Hsa as (_ & Hags & Hcells & _).
  assert (st3 = (observe_agents st2).2) as -> by by rewrite Eo.
  split.
  - intros i a' (a & Ha & Hp & Hi & Hd)%observe_agents_lookup.
    rewrite Hags in Ha. destruct (H1 _ _ Ha) as (p & Hp' & Hpl).
    exists p. split; [done|]. unfold placed_at in *. by rewrite Hp, Hi, Hd.
  - intros Hnd i p Hp. change (grid (observe_agents st2).2) with (grid st2).
    rewrite Hcells. by apply H2.
Qed.

Lemma corner_positions_inside w n i (p : pos) :
  3 ≤ w → corner_positions w w n !! i = Some p →
  1 ≤ p.1 ≤ w - 2 ∧ 1 ≤ p.2 ≤ w - 2.
Proof.
  intros Hw Hp.
  pose proof (Z.div_pos w 2 ltac:(lia) ltac:(lia)).
  assert (1 ≤ w `div` 2 ≤ w - 2).
  { split; [apply Z.div_le_lower_bound; lia|].
    assert (w `div` 2 < w - 1); [apply Z.div_lt_upper_bound; lia|lia]. }
  destruct n as [|[|[|[|[|k]]]]]; try done;
    repeat (destruct i as [|i]; [injection Hp as <-; simpl; lia|]); done.
Qed.

Lemma corner_positions_NoDup w n : 4 ≤ w → NoDup (corner_positions w w n).
Proof.
  intros Hw.
  assert (2 ≤ w `div` 2) by (apply Z.div_le_lower_bound; lia).
  destruct n as [|[|[|[|[|k]]]]]; simpl;
    rewrite ?NoDup_cons, ?not_elem_of_cons;
    repeat split; try apply NoDup_nil_2; try apply not_elem_of_nil;
    intros [=]; lia.
Qed.

Lemma corner_positions_stacked n i p :
  corner_positions 3 3 n !! i = Some p → p = (1, 1).
Proof.
  destruct n as [|[|[|[|[|k]]]]]; try done;
    do 4 (destruct i as [|i]; [by intros [= <-]|]; try done).
Qed.

Lemma reset_length_agents gep fuel r st observations st' r' :
  reset gep fuel r st = Some (Ok (observations, st', r')) →
  length (agents st') = length (agents st) ∧ args st' = args st.
Proof.
  unfold reset. intros H.
  match type of H with
  | loop_bind ?m _ = _ => destruct m as [[[st1 r1]|e]|] eqn:E; [|done|done]
  end.
  apply gen_grid_frame in E as (Hargs & _ & _ & _ & Hlen & _).
  simpl in *. injection H as _ <- _. simpl. by rewrite !length_fmap.
Qed.

Lemma step_length_agents oco st actions r st' :
  step oco st actions = Ok (r, st') →
  length (agents st') = length (agents st) ∧ args st' = args st.
Proof.
  intros (st1 & rewards & dones0 & Hloop & _ & _ & _ & -> & _)%step_Ok.
  apply step_loop_frame in Hloop as ((Hargs & _ & _ & Hlen & _) & _).
  simpl in *. by rewrite !length_fmap.
Qed.

Lemma counted_le_goals st :
  counter_ok st → counts_ok st →
  (num_collected st ≤ Z.to_nat (num_goals (args st)))%nat.
Proof.
  intros Hc [Hg _]. rewrite Hc, <- Hg. unfold count_collected.
  apply length_filter.
Qed.

Lemma static_counts_ok st : static_ok st → counts_ok st → episode_ok st.
Proof. intros (? & ? & ? & ? & ? & ?) ?. do 6 (split; [done|]). done. Qed.

Lemma episode_static st : episode_ok st → static_ok st.
Proof. intros (? & ? & ? & ? & ? & ? & ?). do 5 (split; [done|]). done. Qed.

Lemma episode_counts st : episode_ok st → counter_ok st ∧ counts_ok st.
Proof. by intros (? & ? & ? & ? & ? & ? & ?). Qed.

Lemma in_episode_ok oco gep st :
  in_episode oco gep st → episode_ok st ∧ objects_in_region st.
Proof.
  induction 1 as [st fuel r observations st' r' Hreset
                 |st actions res st' _ [IH1 IH2] Hstep].
  - apply reset_placed in Hreset as ((Hs & Hr & _) & Hc & _).
    split; [by apply static_counts_ok|done].
  - pose proof (step_progress _ _ _ _ _ Hstep) as Hp.
    split; [|by eapply progress_region].
    apply static_counts_ok.
    + eapply step_static; [|exact Hstep]. by apply episode_static.
    + eapply progress_counts; [done|]. by apply episode_counts in IH1 as [_ ?].
Qed.

Lemma reset_agents_inside gep fuel r st observations st' r' :
  reset gep fuel r st = Some (Ok (observations, st', r')) →
  (1 ≤ length (agents st) ≤ 4)%nat → 3 ≤ width st →
  agents_inside st'.
Proof.
  intros Hreset Hn Hw.
  pose proof Hreset as [_ Hargs]%reset_length_agents.
  apply reset_agents in Hreset as [H1 _]; [|done].
  intros i a (p & Hp & <- & _)%H1. unfold width, height in *. rewrite Hargs.
  by eapply corner_positions_inside.
Qed.

Lemma in_episode_inside oco gep st :
  in_episode oco gep st →
  (1 ≤ length (agents st) ≤ 4)%nat → 3 ≤ width st → agents_inside st.
Proof.
  induction 1 as [st fuel r observations st' r' Hreset
                 |st actions res st' Hep IH Hstep]; intros Hn Hw.
  - pose proof Hreset as [Hlen Hargs]%reset_length_agents.
    eapply reset_agents_inside; [done|lia|]. unfold width in *. by rewrite <- Hargs.
  - pose proof Hstep as [Hlen Hargs]%step_length_agents.
    eapply step_inside; [| |exact Hstep].
    + apply in_episode_ok in Hep as [Hok _]. by apply episode_static.
    + apply IH; [lia|]. unfold width in *. by rewrite <- Hargs.
Qed.

Lemma duo_env_in_episode oco : in_episode oco no_edge_positions duo_env.
Proof.
  apply (episode_reset oco no_edge_positions duo_start 1 ones_then_zeros
           (obs <$> agents duo_env) duo_env (advance ones_then_zeros 4)).
  vm_compute. reflexivity.
Qed.

(** What [reset] builds, whatever the state it is called in and the
    draws of the generator: a grid of the configured size whose walls are
    exactly the perimeter; as many goals and obstacles as configured, each
    one in the grid at its own position and nowhere else, so no two on one
    cell and none on a wall; every goal uncollected and green, the counter
    at zero; and every goal and obstacle inside [1, width - 3] x
    [1, height - 3], so never in the last interior column or row. *)
Theorem reset_builds_the_world (gep : Z → Z → nat → result (list pos))
    (fuel : nat) (r : Rng) (st : Env) (observations : list (list Z))
    (st' : Env) (r' : Rng) :
  reset gep fuel r st = Some (Ok (observations, st', r')) →
  episode_ok st' ∧ objects_in_region st' ∧ all_uncollected st' ∧
  num_collected st' = 0%nat.
Proof.
  intros ((Hs & Hr & Hu) & Hc & Hn)%reset_placed.
  split; [by apply static_counts_ok|done].
Qed.

Lemma reset_builds_the_world_witness :
  episode_ok duo_env ∧ objects_in_region duo_env ∧ all_uncollected duo_env ∧
  num_collected duo_env = 0%nat.
Proof.
  apply (reset_builds_the_world no_edge_positions 1 ones_then_zeros duo_start
           (obs <$> agents duo_env) duo_env (advance ones_then_zeros 4)).
  vm_compute. reflexivity.
Defined.

(** What a tick never does: it changes neither the configuration,
    nor the obstacles, nor the content of any cell (walls, goals and
    obstacles stay in the grid where they are), nor the size of the grid;
    it adds and removes no goal, moves none, and a goal that was collected
    is left exactly as it was (it is never uncollected or recoloured); and
    it never lowers [num_collected]. *)
Theorem step_never_moves_objects (oco : bool) (st : Env)
    (actions : list Actions) (r : StepResult) (st' : Env) :
  step oco st actions = Ok (r, st') →
  progress st st' ∧ (num_collected st ≤ num_collected st')%nat.
Proof.
  intros Hstep. split; [by eapply step_progress|].
  apply step_Ok in Hstep as (st1 & rewards & dones0 & Hloop & _ & _ & _ & -> & _).
  by apply step_loop_frame in Hloop as ((_ & _ & _ & _ & Hn & _) & _).
Qed.

Lemma step_never_moves_objects_witness :
  progress duo_env duo_tick.2 ∧
  (num_collected duo_env ≤ num_collected duo_tick.2)%nat.
Proof.
  apply (step_never_moves_objects true duo_env [up; up] duo_tick.1).
  vm_compute. reflexivity.
Defined.

(** Throughout an episode (after a [reset], over any number of
    ticks): the walls are the perimeter, the grid and the lists of goals
    and obstacles agree, a goal is grey exactly when it is collected,
    [num_collected] is the number of collected goals and so never exceeds
    the configured number of goals, and no goal or obstacle is in the last
    interior column or row. *)
Theorem episode_state_is_consistent (oco : bool)
    (gep : Z → Z → nat → result (list pos)) (st : Env) :
  in_episode oco gep st →
  episode_ok st ∧ objects_in_region st ∧
  (num_collected st ≤ Z.to_nat (num_goals (args st)))%nat.
Proof.
  intros [Hok Hreg]%in_episode_ok. split; [done|]. split; [done|].
  apply episode_counts in Hok as [Hc Hn]. by apply counted_le_goals.
Qed.

Lemma duo_later_in_episode : in_episode true no_edge_positions duo_later.
Proof.
  apply (episode_step true no_edge_positions duo_tick.2 [right; up]
           (match step true duo_tick.2 [right; up] with
            | Ok x => x.1
            | Err _ => duo_tick.1
            end)).
  - apply (episode_step true no_edge_positions duo_env [up; up] duo_tick.1).
    + apply duo_env_in_episode.
    + vm_compute. reflexivity.
  - vm_compute. reflexivity.
Qed.

Lemma episode_state_is_consistent_witness :
  episode_ok duo_later ∧ objects_in_region duo_later ∧
  (num_collected duo_later ≤ Z.to_nat (num_goals (args duo_later)))%nat.
Proof.
  apply (episode_state_is_consistent true no_edge_positions duo_later).
  apply duo_later_in_episode.
Defined.

(** A tick cannot fail where the world is consistent and the agents
    stand on interior cells: with at most one action per agent and a
    configured number of goals other than zero, [step] returns (no grid
    access out of bounds, no missing agent or goal, no wall handed to
    [_handle_overlap]), the world is consistent again and the agents are
    again on interior cells: an agent never ends on a wall. *)
Theorem step_returns_inside (oco : bool) (st : Env) (actions : list Actions) :
  static_ok st → agents_inside st →
  (length actions ≤ length (agents st))%nat →
  num_goals (args st) ≠ 0 →
  ∃ r st', step oco st actions = Ok (r, st') ∧
           static_ok st' ∧ agents_inside st'.
Proof.
  intros Hok Hin Hlen Hgoals.
  destruct (step_returns oco st actions Hok Hin Hlen Hgoals) as ([r st'] & H).
  exists r, st'. split; [done|]. split.
  - by eapply step_static.
  - by eapply step_inside.
Qed.

Lemma duo_env_static : static_ok duo_env.
Proof.
  destruct (in_episode_ok true _ _ (duo_env_in_episode true)) as [Hok _].
  by apply episode_static.
Qed.

Lemma duo_env_inside : agents_inside duo_env.
Proof.
  apply (in_episode_inside true no_edge_positions); [apply duo_env_in_episode| |];
    vm_compute; [split; lia|done].
Qed.

Lemma step_returns_inside_witness :
  ∃ r st', step false duo_env [up; down] = Ok (r, st') ∧
           static_ok st' ∧ agents_inside st'.
Proof.
  apply (step_returns_inside false duo_env [up; down]).
  - apply duo_env_static.
  - apply duo_env_inside.
  - vm_compute. lia.
  - vm_compute. done.
Defined.

(** Where [reset] puts one to four agents, on a grid of size 3 or
    more: agent [i] is at the [i]-th position of the fixed layout, with
    [init_pos] the same cell and direction 3, and that cell is an interior
    cell.  From size 4 on the cells are pairwise distinct and the
    occupancy map has each agent on its cell; on a grid of size 3 every
    agent is put on the one interior cell (1, 1). *)
Theorem reset_places_agents (gep : Z → Z → nat → result (list pos))
    (fuel : nat) (r : Rng) (st : Env) (observations : list (list Z))
    (st' : Env) (r' : Rng) :
  reset gep fuel r st = Some (Ok (observations, st', r')) →
  (1 ≤ length (agents st) ≤ 4)%nat → 3 ≤ width st →
  (∀ i a, agents st' !! i = Some a →
     ∃ p, corner_positions (width st) (height st) (length (agents st)) !! i
            = Some p ∧ placed_at a p) ∧
  agents_inside st' ∧
  (4 ≤ width st → occupancy_consistent st') ∧
  (width st = 3 → ∀ i a, agents st' !! i = Some a → cur_pos a = (1, 1)).
Proof.
  intros Hreset Hn Hw.
  pose proof (reset_agents_inside _ _ _ _ _ _ _ Hreset Hn Hw) as Hin.
  apply reset_agents in Hreset as [H1 H2]; [|done].
  split; [done|]. split; [done|]. split.
  - intros Hw4 i a Ha. destruct (H1 _ _ Ha) as (p & Hp & <- & _).
    apply H2; [|done]. by apply corner_positions_NoDup.
  - intros Hw3 i a (p & Hp & <- & _)%H1. unfold height in Hp.
    rewrite Hw3 in Hp. change (grid_size (args st)) with (width st) in Hp.
    rewrite Hw3 in Hp. by eapply corner_positions_stacked.
Qed.

Lemma reset_places_agents_witness :
  (∀ i a, agents duo_env !! i = Some a →
     ∃ p, corner_positions 5 5 2 !! i = Some p ∧ placed_at a p) ∧
  agents_inside duo_env ∧
  (4 ≤ 5 → occupancy_consistent duo_env) ∧
  (5 = 3 → ∀ i a, agents duo_env !! i = Some a → cur_pos a = (1, 1)).
Proof.
  apply (reset_places_agents no_edge_positions 1 ones_then_zeros duo_start
           (obs <$> agents duo_env) duo_env (advance ones_then_zeros 4)).
  - vm_compute. reflexivity.
  - vm_compute. split; lia.
  - vm_compute. done.
Defined.

(** An episode of one to four agents on a grid of size 3 or more
    never fails: in every state of it the agents stand on interior cells,
    and a tick with at most one action per agent returns, as long as the
    configured number of goals is not zero. *)
Theorem episode_steps_never_raise (oco : bool)
    (gep : Z → Z → nat → result (list pos)) (st : Env) :
  in_episode oco gep st →
  (1 ≤ length (agents st) ≤ 4)%nat → 3 ≤ width st →
  agents_inside st ∧
  ∀ actions,
    (length actions ≤ length (agents st))%nat → num_goals (args st) ≠ 0 →
    ∃ r st', step oco st actions = Ok (r, st') ∧ in_episode oco gep st'.
Proof.
  intros Hep Hn Hw.
  pose proof (in_episode_inside _ _ _ Hep Hn Hw) as Hin.
  split; [done|]. intros actions Hlen Hgoals.
  pose proof Hep as [Hok%episode_static _]%in_episode_ok.
  destruct (step_returns oco st actions Hok Hin Hlen Hgoals) as ([r st'] & H).
  exists r, st'. split; [done|]. by eapply episode_step.
Qed.

Lemma episode_steps_never_raise_witness :
  agents_inside duo_later ∧
  ∀ actions,
    (length actions ≤ length (agents duo_later))%nat →
    num_goals (args duo_later) ≠ 0 →
    ∃ r st', step true duo_later actions = Ok (r, st') ∧
             in_episode true no_edge_positions st'.
Proof.
  apply (episode_steps_never_raise true no_edge_positions duo_later).
  - apply duo_later_in_episode.
  - vm_compute. split; lia.
  - vm_compute. done.
Defined.

(** ** The rewards of a tick *)

Lemma resolve_move_rewards oco st rewards i action st' rewards' :
  resolve_move oco st rewards i action = Ok (st', rewards') →
  rewards' = rewards ∨
  ∃ x, x ∈ [reward_goal (args st); penalty_goal (args st);
            penalty_obstacle (args st); (-5)%Q] ∧
       rewards' = <[i := _reward st x]> rewards.
Proof.
  intros (a & cell & occ & _ & _ & _ & Hcase)%resolve_move_inv.
  destruct Hcase as [(_ & _ & -> & _)|[(c & r & _ & _ & Hh & ->)|[_ ->]]].
  - by left.
  - right.
    apply handle_overlap_inv in Hh as (st1 & _ & _ & _ & _ & Hcase).
    destruct Hcase as [[_ [->| ->]]|(k & g & _ & _ & _ & -> & _)];
      eexists; (split; [|done]); set_solver.
  - right. eexists. split; [|done]. set_solver.
Qed.

Lemma step_loop_rewards oco (allowed : Q → Prop) (a0 : Config) (t0 : nat) actions :
  ∀ i st rw dn st' rw' dn',
    step_loop oco i actions (st, rw, dn) = Ok (st', rw', dn') →
    args st = a0 → step_count st = t0 →
    (∀ x, x ∈ [reward_goal a0; penalty_goal a0; penalty_obstacle a0; (-5)%Q] →
          allowed (shaped (gamma a0) t0 x)) →
    (∀ k q, rw !! k = Some q → allowed q) →
    (∀ k q, rw' !! k = Some q → allowed q) ∧
    (∀ k, (k < i ∨ i + length actions ≤ k)%nat → rw' !! k = rw !! k).
Proof.
  induction actions as [|action rest IH];
    intros i st rw dn st' rw' dn' H Ha Ht Hall Hrw; simpl in H.
  - injection H as <- <- <-. by split.
  - apply bind_Ok in H as ([st1 rw1] & Hres & H).
    pose proof Hres as ((Ha1 & Ht1 & _) & _)%resolve_move_frame.
    apply IH in H as [H1 H2]; [|congruence|congruence|exact Hall|].
    + split; [done|]. intros k Hk. rewrite H2 by (simpl in Hk; lia).
      apply resolve_move_rewards in Hres as [->|(x & _ & ->)]; [done|].
      apply list_lookup_insert_ne. simpl in Hk. lia.
    + apply resolve_move_rewards in Hres as [->|(x & Hx & ->)]; [done|].
      intros k q [(-> & <- & _)|[_ Hk]]%list_lookup_insert_Some; [|by eapply Hrw].
      unfold _reward. rewrite Ha in Hx |- *. rewrite Ht. by apply Hall.
Qed.

Lemma step_step_count oco st actions r st' :
  step oco st actions = Ok (r, st') → step_count st' = S (step_count st).
Proof.
  intros (st1 & rewards & dones0 & Hloop & _ & _ & _ & -> & _)%step_Ok.
  by apply step_loop_frame in Hloop as ((_ & Ht & _) & _).
Qed.

(** What [step] returns as rewards: one per agent; each one is 0 or one of
    the three configured rewards or the literal -5, times [gamma] to the
    power of the step count with this tick already counted (so the first
    tick of an episode is discounted once); and an agent past the end of
    [actions] has reward 0. *)
Theorem step_rewards_are_shaped (oco : bool) (st : Env)
    (actions : list Actions) (r : StepResult) (st' : Env) :
  step oco st actions = Ok (r, st') →
  step_count st' = S (step_count st) ∧
  length (res_rewards r) = length (agents st) ∧
  (∀ i q, res_rewards r !! i = Some q → q = 0%Q ∨ q ∈ possible_rewards st) ∧
  (∀ i, (length actions ≤ i < length (agents st))%nat →
        res_rewards r !! i = Some 0%Q).
Proof.
  intros Hstep. split; [by eapply step_step_count|].
  apply step_Ok in Hstep as (st1 & rewards & dones0 & Hloop & -> & _).
  pose proof Hloop as (_ & Hlen & _)%step_loop_frame.
  rewrite length_replicate in Hlen. split; [done|].
  apply (step_loop_rewards oco (λ q, q = 0%Q ∨ q ∈ possible_rewards st)
           (args st) (S (step_count st))) in Hloop as [H1 H2]; try done.
  - split; [done|]. intros i Hi. rewrite H2 by lia.
    apply lookup_replicate_2. lia.
  - intros x Hx. right. unfold possible_rewards. by apply list_elem_of_fmap_2.
  - intros k q [-> _]%lookup_replicate. by left.
Qed.

Lemma step_rewards_are_shaped_witness :
  step_count duo_tick.2 = S (step_count duo_env) ∧
  length (res_rewards duo_tick.1) = length (agents duo_env) ∧
  (∀ i q, res_rewards duo_tick.1 !! i = Some q →
          q = 0%Q ∨ q ∈ possible_rewards duo_env) ∧
  (∀ i, (length [up; up] ≤ i < length (agents duo_env))%nat →
        res_rewards duo_tick.1 !! i = Some 0%Q).
Proof.
  apply (step_rewards_are_shaped true duo_env [up; up] duo_tick.1 duo_tick.2).
  vm_compute. reflexivity.
Defined.

(** ** Coverage as a percentage, and the highlight mask *)

Lemma count_true_le row : (count_true row ≤ length row)%nat.
Proof. induction row as [|[] row IH]; simpl; lia. Qed.

Lemma sum_seen_le (m : list (list bool)) (n k : nat) :
  (length <$> m) = replicate n k → (sum_seen m ≤ n * k)%nat.
Proof.
  revert n. induction m as [|row m IH]; intros [|n] H; try done.
  rewrite fmap_cons in H. injection H as Hrow Hm.
  rewrite sum_seen_cons. specialize (IH n Hm).
  pose proof (count_true_le row). lia.
Qed.

(** The seen-percentage is a percentage: between 0 and 100 on a matrix of
    the shape [__init__] gives it, for a grid with an interior. *)
Theorem seen_percentage_in_range (st : Env) :
  shape_ok st → 2 < width st →
  (0 <= _calculate_seen_percentage st)%Q ∧
  (_calculate_seen_percentage st <= 100)%Q.
Proof.
  intros Hshape Hw. apply sum_seen_le in Hshape.
  unfold _calculate_seen_percentage, total_cells, width, height in *.
  set (s := sum_seen (seen_cells st)) in *.
  set (w := grid_size (args st)) in *.
  assert (0 < (w - 2) * (w - 2)) as Hpos by nia.
  assert (Z.of_nat s ≤ (w - 2) * (w - 2)) as Hle by (rewrite <- Z2Nat.id by lia; nia).
  split.
  - apply Qmult_le_0_compat; [|done].
    apply Qle_shift_div_l; [by rewrite <- (Zlt_Qlt 0)|].
    rewrite Qmult_0_l. rewrite <- (Zle_Qle 0). lia.
  - apply (Qle_trans _ (1 * 100)); [|done].
    apply Qmult_le_compat_r; [|done].
    apply Qle_shift_div_r; [by rewrite <- (Zlt_Qlt 0)|].
    rewrite Qmult_1_l. by rewrite <- Zle_Qle.
Qed.

Lemma seen_percentage_in_range_witness :
  (0 <= _calculate_seen_percentage duo_later)%Q ∧
  (_calculate_seen_percentage duo_later <= 100)%Q.
Proof.
  apply (seen_percentage_in_range duo_later); vm_compute; reflexivity.
Defined.

Lemma foldl_nested {A B C} (g : A → C → B → C) (h : A → list B) (l : list A) :
  ∀ m, foldl (λ m' i, foldl (g i) m' (h i)) m l =
       foldl (λ m' (p : A * B), g p.1 m' p.2) m (l ≫= λ i, pair i <$> h i).
Proof.
  induction l as [|i l IH]; intros m; [done|].
  rewrite bind_cons, foldl_app. cbn [foldl]. rewrite IH. f_equal.
  generalize (h i) as bs. clear. intros bs. revert m.
  induction bs as [|b bs IH]; intros m; [done|].
  rewrite fmap_cons. cbn [foldl]. by rewrite IH.
Qed.

Lemma foldl_cond_marks {A} (f : A → bool) (cell : A → nat * nat) (l : list A) :
  ∀ m a b,
    lookup2 (foldl (λ m' x, if f x then mark_seen m' (cell x).1 (cell x).2 else m')
                   m l) a b =
    (λ v, v || existsb (λ x, f x && bool_decide (cell x = (a, b))) l)
    <$> lookup2 m a b.
Proof.
  induction l as [|x l IH]; intros m a b.
  - cbn [foldl existsb].
    destruct (lookup2 m a b) as [v|]; [|done]. cbn. by rewrite orb_false_r.
  - cbn [foldl existsb]. rewrite IH.
    assert (lookup2 (if f x then mark_seen m (cell x).1 (cell x).2 else m) a b
            = (λ v, v || (f x && bool_decide (cell x = (a, b))))
              <$> lookup2 m a b) as ->.
    { destruct (f x).
      - rewrite mark_seen_lookup. destruct (lookup2 m a b) as [v|]; [|done].
        cbn. do 2 f_equal. apply bool_decide_ext.
        destruct (cell x) as [a0 b0]. simpl. split.
        + by intros [-> ->].
        + by intros [= -> ->].
      - destruct (lookup2 m a b) as [v|]; [|done]. cbn.
        by rewrite orb_false_r. }
    destruct (lookup2 m a b) as [v|]; [|done]. cbn. by rewrite <- orb_assoc.
Qed.

Lemma lookup2_zeros (n k a b : nat) :
  lookup2 (replicate n (replicate k false)) a b =
  if bool_decide ((a < n)%nat ∧ (b < k)%nat) then Some false else None.
Proof.
  unfold lookup2. destruct (decide (a < n)%nat) as [Ha|Ha].
  - rewrite lookup_replicate_2 by done. simpl.
    destruct (decide (b < k)%nat) as [Hb|Hb].
    + rewrite lookup_replicate_2 by done. by rewrite bool_decide_eq_true_2.
    + assert (replicate k false !! b = None) as ->
        by (apply lookup_replicate_None; lia).
      rewrite bool_decide_eq_false_2; [done|]. lia.
  - assert (replicate n (replicate k false) !! a = None) as ->
      by (apply lookup_replicate_None; lia).
    simpl. rewrite bool_decide_eq_false_2; [done|]. lia.
Qed.

(** Entry by entry: the mask has the shape of the whole grid, walls
    included, and an entry is set exactly when some agent is within
    [max_edge_dist] of its cell. *)
Lemma highlight_masks_lookup st (a b : nat) :
  lookup2 (highlight_masks st) a b =
  if bool_decide (Z.of_nat a < width st ∧ Z.of_nat b < height st)
  then Some (any_agent_sees st (Z.of_nat a) (Z.of_nat b))
  else None.
Proof.
  unfold highlight_masks.
  rewrite (foldl_nested
             (λ i m' j,
                foldl (λ m'' agent,
                         if within_edge_dist (max_edge_dist (args st))
                                             (dist2 (i, j) (cur_pos agent))
                         then mark_seen m'' (Z.to_nat i) (Z.to_nat j)
                         else m'') m' (agents st))
             (λ _, seqZ 0 (height st))).
  rewrite (foldl_nested
             (λ (p : Z * Z) m'' agent,
                if within_edge_dist (max_edge_dist (args st))
                                    (dist2 (p.1, p.2) (cur_pos agent))
                then mark_seen m'' (Z.to_nat p.1) (Z.to_nat p.2)
                else m'')
             (λ _, agents st)).
  rewrite (foldl_cond_marks
             (λ x : Z * Z * Agent,
                within_edge_dist (max_edge_dist (args st))
                                 (dist2 (x.1.1, x.1.2) (cur_pos x.2)))
             (λ x, (Z.to_nat x.1.1, Z.to_nat x.1.2))).
  rewrite lookup2_zeros.
  assert (bool_decide ((a < Z.to_nat (width st))%nat ∧ (b < Z.to_nat (height st))%nat)
          = bool_decide (Z.of_nat a < width st ∧ Z.of_nat b < height st)) as ->
    by (apply bool_decide_ext; lia).
  case_bool_decide as Hin; [|done]. cbn. f_equal.
  apply eq_true_iff_eq.
  unfold any_agent_sees. rewrite !existsb_exists. split.
  - intros ([[i j] agent] & Hx%list_elem_of_In & [Hf Hc]%andb_true_iff).
    apply bool_decide_eq_true in Hc. injection Hc as <- <-. simpl in *.
    apply list_elem_of_bind in Hx as ([i' j'] & Hx & Hij).
    apply list_elem_of_fmap in Hx as (ag & [= -> -> <-] & Hag).
    apply list_elem_of_bind in Hij as (i'' & Hj & Hi).
    apply list_elem_of_fmap in Hj as (j'' & [= -> ->] & Hj).
    apply elem_of_seqZ in Hi, Hj.
    exists agent. split; [by apply list_elem_of_In|].
    by rewrite !Z2Nat.id by lia.
  - intros (agent & Hag%list_elem_of_In & Hf).
    exists (Z.of_nat a, Z.of_nat b, agent). split;
      [apply list_elem_of_In|apply andb_true_iff; split].
    + apply list_elem_of_bind. exists (Z.of_nat a, Z.of_nat b). split.
      * apply list_elem_of_fmap. by exists agent.
      * apply list_elem_of_bind. exists (Z.of_nat a). split.
        -- apply list_elem_of_fmap. exists (Z.of_nat b). split; [done|].
           apply elem_of_seqZ. lia.
        -- apply elem_of_seqZ. lia.
    + done.
    + apply bool_decide_eq_true. simpl. by rewrite !Nat2Z.id.
Qed.

(** What the renderer highlights after a tick, the tracker has recorded:
    the mask of [get_full_render] covers the whole grid, an entry of it is
    set exactly when some agent is within [max_edge_dist] of the cell, and
    every interior cell it highlights in the state a tick leaves is a seen
    cell of that state. *)
Theorem highlighted_cells_are_seen (oco : bool) (st : Env)
    (actions : list Actions) (r : StepResult) (st' : Env) :
  step oco st actions = Ok (r, st') → shape_ok st →
  (∀ a b, lookup2 (highlight_masks st') a b =
          if bool_decide (Z.of_nat a < width st' ∧ Z.of_nat b < height st')
          then Some (any_agent_sees st' (Z.of_nat a) (Z.of_nat b))
          else None) ∧
  (∀ a b, Z.of_nat a < width st' - 2 → Z.of_nat b < height st' - 2 →
          lookup2 (highlight_masks st') (S a) (S b) = Some true →
          lookup2 (seen_cells st') a b = Some true).
Proof.
  intros Hstep Hshape. split; [intros a b; apply highlight_masks_lookup|].
  intros a b Ha Hb. rewrite highlight_masks_lookup.
  case_bool_decide as Hin; [|done]. intros [= Hsees].
  pose proof (step_args _ _ _ _ Hstep) as Hargs. simpl in Hargs.
  unfold width, height in *. rewrite Hargs in *.
  rewrite (step_seen_exact _ _ _ _ _ _ _ Hstep).
  destruct (proj2 (shape_lookup st a b Hshape) ltac:(done)) as [v ->].
  cbn. f_equal. unfold width, height.
  rewrite bool_decide_eq_true_2 by done.
  replace (Z.of_nat a + 1) with (Z.of_nat (S a)) by lia.
  replace (Z.of_nat b + 1) with (Z.of_nat (S b)) by lia.
  rewrite Hsees. by rewrite orb_true_r.
Qed.

Lemma highlighted_cells_are_seen_witness :
  (∀ a b, lookup2 (highlight_masks duo_tick.2) a b =
          if bool_decide (Z.of_nat a < width duo_tick.2 ∧
                          Z.of_nat b < height duo_tick.2)
          then Some (any_agent_sees duo_tick.2 (Z.of_nat a) (Z.of_nat b))
          else None) ∧
  (∀ a b, Z.of_nat a < width duo_tick.2 - 2 → Z.of_nat b < height duo_tick.2 - 2 →
          lookup2 (highlight_masks duo_tick.2) (S a) (S b) = Some true →
          lookup2 (seen_cells duo_tick.2) a b = Some true).
Proof.
  apply (highlighted_cells_are_seen true duo_env [up; up] duo_tick.1 duo_tick.2);
    vm_compute; reflexivity.
Defined.

(** ** The sampling helpers *)

Lemma rand_elem_Ok {T} (lst : list T) (r : Rng) :
  lst ≠ [] →
  ∃ x, _rand_elem lst r = Ok (x, advance r 1) ∧
       lst !! (draws r (cursor r) `mod` length lst)%nat = Some x.
Proof.
  intros Hne. assert (0 < length lst)%nat as Hlen by (destruct lst; [done|simpl; lia]).
  unfold _rand_elem, _rand_int, integers.
  rewrite (proj2 (Z.ltb_lt _ _)) by lia. cbn [mbind result_bind].
  rewrite Z.add_0_l, Z.sub_0_r, <- Nat2Z.inj_mod, Nat2Z.id.
  destruct (lookup_lt_is_Some_2 lst (draws r (cursor r) `mod` length lst)%nat)
    as [x Hx]; [apply Nat.mod_upper_bound; lia|].
  exists x. rewrite Hx. done.
Qed.

(** [_rand_elem] on an empty list raises numpy's ValueError (the range
    [0, 0) is empty); on any other list it returns an element of the list,
    the one at the draw modulo the length, and uses one draw.  [_rand_bool]
    never raises and uses one draw as well. *)
Theorem rand_elem_is_an_element (T : Type) (lst : list T) (r : Rng) :
  (lst = [] → _rand_elem lst r = Err ValueError) ∧
  (lst ≠ [] → ∃ x, _rand_elem lst r = Ok (x, advance r 1) ∧ x ∈ lst) ∧
  ∃ b, _rand_bool r = Ok (b, advance r 1).
Proof.
  split; [by intros ->|]. split.
  - intros (x & Hx & Hl)%(rand_elem_Ok lst r). exists x. split; [done|].
    by eapply list_elem_of_lookup_2.
  - by eexists.
Qed.

Lemma list_remove_Some {T} `{EqDecision T} (x : T) (lst : list T) :
  x ∈ lst → ∃ lst', list_remove x lst = Some lst' ∧ lst ≡ₚ x :: lst'.
Proof.
  induction lst as [|y lst IH]; [by intros ?%elem_of_nil|].
  intros Hx. simpl. destruct (decide (y = x)) as [->|Hne]; [by eexists|].
  apply elem_of_cons in Hx as [->|Hx]; [done|].
  destruct (IH Hx) as (lst' & -> & Hp). eexists. split; [done|].
  rewrite Hp. apply Permutation_swap.
Qed.

Lemma rand_subset_loop_returns {T} `{EqDecision T} (num_elems : Z) (fuel : nat) :
  ∀ (lst out : list T) (r : Rng),
    (Z.to_nat (num_elems - Z.of_nat (length out)) ≤ length lst)%nat →
    (Z.to_nat (num_elems - Z.of_nat (length out)) ≤ fuel)%nat →
    ∃ picked rest,
      rand_subset_loop fuel lst out num_elems r =
        Some (Ok (out ++ picked,
                  advance r (Z.to_nat (num_elems - Z.of_nat (length out))))) ∧
      length picked = Z.to_nat (num_elems - Z.of_nat (length out)) ∧
      picked ++ rest ≡ₚ lst.
Proof.
  induction fuel as [|fuel IH]; intros lst out r Hlen Hfuel.
  - exists [], lst. destruct r as [d c].
    replace (Z.to_nat (num_elems - Z.of_nat (length out))) with 0%nat by lia.
    simpl. rewrite (proj2 (Z.ltb_ge _ _)) by lia.
    by rewrite app_nil_r.
  - cbn [rand_subset_loop].
    destruct (Z.of_nat (length out) <? num_elems) eqn:E.
    + apply Z.ltb_lt in E.
      assert (lst ≠ []) as Hne by (intros ->; simpl in Hlen; lia).
      destruct (rand_elem_Ok lst r Hne) as (x & -> & Hx).
      apply list_elem_of_lookup_2 in Hx.
      destruct (list_remove_Some x lst Hx) as (lst' & -> & Hp).
      pose proof (Permutation_length Hp) as Hl. simpl in Hl.
      assert (length (out ++ [x]) = S (length out)) as Ho
        by (rewrite length_app; simpl; lia).
      destruct (IH lst' (out ++ [x]) (advance r 1)) as (picked & rest & -> & Hk & Hr);
        [rewrite Ho; lia|rewrite Ho; lia|].
      rewrite Ho in *.
      exists (x :: picked), rest. split; [|split].
      * rewrite <- app_assoc. simpl. do 3 f_equal.
        rewrite advance_advance. f_equal. lia.
      * simpl. rewrite Hk. lia.
      * simpl. by rewrite Hr, Hp.
    + apply Z.ltb_ge in E. exists [], lst. destruct r as [d c].
      replace (Z.to_nat (num_elems - Z.of_nat (length out))) with 0%nat by lia.
      by rewrite app_nil_r.
Qed.

(** [_rand_subset] fails its assertion exactly when more elements are
    asked for than the list has.  Otherwise, with fuel for [num_elems]
    passes, it returns: the loop never raises, it uses one draw for each
    element, and [out] has [num_elems] elements (none for a negative
    count), taken from the list without reuse: [out] with the elements left
    over is a rearrangement of the list, so a list without duplicates gives
    a subset without duplicates. *)
Theorem rand_subset_returns (T : Type) `(EqDecision T) (fuel : nat)
    (lst : list T) (num_elems : Z) (r : Rng) :
  (_rand_subset fuel lst num_elems r = AssertionError ↔
   Z.of_nat (length lst) < num_elems) ∧
  (num_elems ≤ Z.of_nat (length lst) → (Z.to_nat num_elems ≤ fuel)%nat →
   ∃ out rest,
     _rand_subset fuel lst num_elems r =
       Asserted (Some (Ok (out, advance r (Z.to_nat num_elems)))) ∧
     length out = Z.to_nat num_elems ∧
     out ++ rest ≡ₚ lst ∧
     (NoDup lst → NoDup out)).
Proof.
  unfold _rand_subset. split.
  - destruct (num_elems <=? Z.of_nat (length lst)) eqn:E.
    + apply Z.leb_le in E. split; [done|lia].
    + apply Z.leb_gt in E. done.
  - intros Hle Hfuel. rewrite (proj2 (Z.leb_le _ _)) by done.
    destruct (rand_subset_loop_returns num_elems fuel lst [] r)
      as (out & rest & Hloop & Hlen & Hperm); simpl; try lia.
    simpl in *. rewrite Z.sub_0_r in *.
    exists out, rest. split; [by rewrite Hloop|]. split; [done|].
    split; [done|]. intros Hnd. rewrite <- Hperm in Hnd.
    by apply NoDup_app in Hnd as [? _].
Qed.

Lemma rand_subset_returns_witness :
  ∃ out rest,
    _rand_subset 2 [10; 20; 30; 40] 2 ones =
      Asserted (Some (Ok (out, advance ones 2))) ∧
    length out = 2%nat ∧
    out ++ rest ≡ₚ [10; 20; 30; 40] ∧
    (NoDup [10; 20; 30; 40] → NoDup out).
Proof.
  apply (rand_subset_returns Z _ 2 [10; 20; 30; 40] 2 ones);
    vm_compute; [discriminate|lia].
Defined.

(** ** The cell code *)

(** In an episode [encode] never fails on what a grid cell holds, and it
    tells the goals still to collect from everything else: the code is 0
    exactly for an empty cell, 1 exactly for a goal that is not collected,
    and 2 otherwise (a collected goal, an obstacle, a wall); another agent
    is coded 2 as well. *)
Theorem encode_marks_open_goals (oco : bool)
    (gep : Z → Z → nat → result (list pos)) (agent_is_grey : nat → bool)
    (st : Env) (p : pos) (agent : nat) :
  in_episode oco gep st →
  ∃ v, encode agent_is_grey st (StaticCell <$> Grid.cells (grid st) !! p) agent
         = Ok v ∧
       (v = 0 ∨ v = 1 ∨ v = 2) ∧
       (v = 0 ↔ Grid.cells (grid st) !! p = None) ∧
       (v = 1 ↔ ∃ k g, Grid.cells (grid st) !! p = Some (GoalRef k) ∧
                       goals st !! k = Some g ∧ collected g = false) ∧
       (∀ i, i ≠ agent →
             encode agent_is_grey st (Some (AgentCell i)) agent = Ok 2).
Proof.
  intros [(_ & _ & _ & (_ & Hr2 & _) & Hcol & _) _]%in_episode_ok.
  assert (∀ i, i ≠ agent →
               encode agent_is_grey st (Some (AgentCell i)) agent = Ok 2) as Hag.
  { intros i Hi. unfold encode. by rewrite bool_decide_eq_true_2. }
  destruct (Grid.cells (grid st) !! p) as [[k|o|]|] eqn:Hc; cbn [fmap option_fmap option_map encode].
  - destruct (Hr2 _ _ Hc) as (g & Hk & _). rewrite Hk. cbn [of_option mbind result_bind].
    pose proof (Hcol _ _ Hk) as Hg.
    destruct (collected g) eqn:Eg; rewrite Hg.
    + exists 2. split; [done|]. split; [by right; right|]. split; [done|].
      split; [|done]. split; [done|].
      intros (k' & g' & [= <-] & Hk' & Hg'). congruence.
    + exists 1. split; [done|]. split; [by right; left|]. split; [done|].
      split; [|done]. split; [|done]. intros _. by exists k, g.
  - exists 2. split; [done|]. split; [by right; right|]. split; [done|].
    split; [|done]. split; [done|]. by intros (k' & g' & [=] & _).
  - exists 2. split; [done|]. split; [by right; right|]. split; [done|].
    split; [|done]. split; [done|]. by intros (k' & g' & [=] & _).
  - exists 0. split; [done|]. split; [by left|]. split; [done|].
    split; [|done]. split; [done|]. by intros (k' & g' & [=] & _).
Qed.

Lemma encode_marks_open_goals_witness :
  ∃ v, encode (λ _, false) duo_later
         (StaticCell <$> Grid.cells (grid duo_later) !! (2, 2)) 0 = Ok v ∧
       (v = 0 ∨ v = 1 ∨ v = 2) ∧
       (v = 0 ↔ Grid.cells (grid duo_later) !! (2, 2) = None) ∧
       (v = 1 ↔ ∃ k g, Grid.cells (grid duo_later) !! (2, 2) = Some (GoalRef k) ∧
                       goals duo_later !! k = Some g ∧ collected g = false) ∧
       (∀ i, i ≠ 0%nat →
             encode (λ _, false) duo_later (Some (AgentCell i)) 0 = Ok 2).
Proof.
  apply (encode_marks_open_goals true no_edge_positions (λ _, false) duo_later
           (2, 2) 0).
  apply duo_later_in_episode.
Defined.

(** ** Agents along the walls *)

Lemma edge_positions_loop_Ok w h t sp n : ∀ cur acc ps,
  edge_positions_loop w h t sp n cur acc = Ok ps →
  length ps = (length acc + n)%nat ∧
  (∀ i, (i < length acc)%nat → ps !! i = acc !! i) ∧
  (∀ i p, ps !! i = Some p → (length acc ≤ i)%nat →
          ∃ e, p = edge_position w h t e).
Proof.
  induction n as [|n IH]; intros cur acc ps H; simpl in H.
  - injection H as <-. split; [lia|]. split; [done|].
    intros i p Hp%lookup_lt_Some Hi. lia.
  - apply bind_Ok in H as (e & _ & H).
    apply IH in H as (Hlen & Hpre & Hnew). rewrite length_app in *. simpl in *.
    split; [lia|]. split.
    + intros i Hi. rewrite Hpre by lia. by apply lookup_app_l.
    + intros i p Hp Hi. destruct (decide (i = length acc)) as [->|Hne].
      * exists e. rewrite Hpre in Hp by lia.
        rewrite lookup_app_r, Nat.sub_diag in Hp by lia. by injection Hp as <-.
      * apply (Hnew i p Hp). lia.
Qed.

Lemma foldl_set_walls_Ok (cs : list (Z * Z)) : ∀ g,
  (∀ c, c ∈ cs → Grid.in_bounds g c.1 c.2 = true) →
  ∃ g', foldl (λ (r : result Grid.t) (c : Z * Z),
                 g1 ← r; Grid.set g1 c.1 c.2 (Some WallObj)) (Ok g) cs = Ok g'.
Proof.
  induction cs as [|c cs IH]; intros g Hin; [by eexists|].
  cbn [foldl mbind result_bind]. unfold Grid.set at 2.
  rewrite Hin by (apply elem_of_cons; by left).
  apply IH. intros c' Hc'. rewrite <- (Hin c') by (apply elem_of_cons; by right).
  done.
Qed.

Lemma wall_rect_square w :
  ∃ g, Grid.wall_rect (Grid.new w w) 0 0 w w = Ok g.
Proof.
  apply foldl_set_walls_Ok. intros c Hc%elem_of_wall_cells.
  apply in_bounds_iff. simpl. lia.
Qed.

(** The chain of comparisons walks the ring of interior cells next to the
    walls, with one exception.  On a grid of size 3 or more and for an
    index inside the edge length, the cell is an interior cell next to a
    wall, unless the index is the last one of the bottom edge,
    [2 * width + height - 7], where the cell is (0, height - 2), a cell of
    the left wall.  The walk is not one to one either: the top right corner
    is given by two indices in a row. *)
Theorem edge_position_hits_the_wall (w h e : Z) :
  3 ≤ w → 3 ≤ h → 0 ≤ e < 2 * (w - 2) + 2 * (h - 2) →
  let p := edge_position w h (2 * (w - 2) + 2 * (h - 2)) e in
  (e ≠ 2 * w + h - 7 →
   (1 ≤ p.1 ≤ w - 2 ∧ 1 ≤ p.2 ≤ h - 2) ∧
   (p.1 = 1 ∨ p.1 = w - 2 ∨ p.2 = 1 ∨ p.2 = h - 2)) ∧
  (e = 2 * w + h - 7 → p = (0, h - 2)) ∧
  edge_position w h (2 * (w - 2) + 2 * (h - 2)) (w - 3) =
  edge_position w h (2 * (w - 2) + 2 * (h - 2)) (w - 2).
Proof.
  intros Hw Hh He. unfold edge_position. split; [|split].
  - intros Hne.
    destruct (e <? w - 2) eqn:E1; [apply Z.ltb_lt in E1; simpl; lia|].
    destruct (e <? w + h - 4) eqn:E2; [apply Z.ltb_lt in E2; simpl; lia|].
    apply Z.ltb_ge in E1, E2.
    destruct (e <? 2 * w + h - 6) eqn:E3;
      [apply Z.ltb_lt in E3|apply Z.ltb_ge in E3]; simpl; lia.
  - intros ->.
    rewrite (proj2 (Z.ltb_ge _ _)) by lia.
    rewrite (proj2 (Z.ltb_ge _ _)) by lia.
    rewrite (proj2 (Z.ltb_lt _ _)) by lia. f_equal. lia.
  - rewrite (proj2 (Z.ltb_lt (w - 3) _)) by lia.
    rewrite (proj2 (Z.ltb_ge (w - 2) (w - 2))) by lia.
    rewrite (proj2 (Z.ltb_lt (w - 2) _)) by lia. f_equal; lia.
Qed.

Lemma edge_position_hits_the_wall_witness :
  let p := edge_position 5 5 (2 * (5 - 2) + 2 * (5 - 2)) 8 in
  (8 ≠ 2 * 5 + 5 - 7 →
   (1 ≤ p.1 ≤ 5 - 2 ∧ 1 ≤ p.2 ≤ 5 - 2) ∧
   (p.1 = 1 ∨ p.1 = 5 - 2 ∨ p.2 = 1 ∨ p.2 = 5 - 2)) ∧
  (8 = 2 * 5 + 5 - 7 → p = (0, 5 - 2)) ∧
  edge_position 5 5 (2 * (5 - 2) + 2 * (5 - 2)) (5 - 3) =
  edge_position 5 5 (2 * (5 - 2) + 2 * (5 - 2)) (5 - 2).
Proof.
  apply (edge_position_hits_the_wall 5 5 8); lia.
Defined.

(** [_get_edge_positions] without agents divides by zero.  Otherwise,
    when it returns, it gives one position for each agent, the first one
    the cell of index 0, and every one a cell of the chain of comparisons
    for some index. *)
Theorem edge_positions_one_per_agent (w h : Z) (n : nat) :
  (n = 0%nat → _get_edge_positions w h n = Err ZeroDivisionError) ∧
  (∀ ps, _get_edge_positions w h n = Ok ps →
     n ≠ 0%nat ∧ length ps = n ∧
     ps !! 0%nat =
       Some (edge_position w h (2 * (w - 2) + 2 * (h - 2)) 0) ∧
     ∀ i p, ps !! i = Some p →
            ∃ e, p = edge_position w h (2 * (w - 2) + 2 * (h - 2)) e).
Proof.
  split; [by intros ->|]. intros ps H. unfold _get_edge_positions in H.
  destruct n as [|n]; [done|]. cbn [Nat.eqb] in H.
  split; [done|].
  pose proof H as (Hlen & _ & Hnew)%edge_positions_loop_Ok.
  split; [done|]. split; [|intros i p Hp; apply (Hnew i p Hp); simpl; lia].
  cbn [edge_positions_loop] in H.
  change (int_of_float (float_of_Z 0)) with (Some 0) in H.
  cbn [of_option mbind result_bind] in H.
  apply edge_positions_loop_Ok in H as (_ & Hpre & _).
  by rewrite Hpre by (simpl; lia).
Qed.

(** Without agents [reset] raises: [_gen_grid] takes its last branch and
    [_get_edge_positions] divides the edge length by zero. *)
Theorem reset_without_agents_raises (fuel : nat) (r : Rng) (st : Env) :
  agents st = [] →
  reset _get_edge_positions fuel r st = Some (Err ZeroDivisionError).
Proof.
  intros Hags. unfold reset, _gen_grid. cbn [agents width height args].
  rewrite Hags. cbn [length].
  destruct (wall_rect_square (grid_size (args st))) as [g Hg].
  unfold width, height. cbn [args]. rewrite Hg. reflexivity.
Qed.

Lemma reset_without_agents_raises_witness :
  reset _get_edge_positions 1 ones empty_start = Some (Err ZeroDivisionError).
Proof.
  apply (reset_without_agents_raises 1 ones empty_start). reflexivity.
Defined.

Lemma get_edge_positions_length w h n ps :
  _get_edge_positions w h n = Ok ps → length ps = n.
Proof.
  unfold _get_edge_positions. destruct (n =? 0)%nat; [done|].
  by intros (Hlen & _)%edge_positions_loop_Ok.
Qed.

Lemma reset_placed_agents gep fuel r st observations st' r' :
  reset gep fuel r st = Some (Ok (observations, st', r')) →
  ∃ g st1,
    match length (agents st) with
    | 1%nat => _place_agent (set_grid (mkEnv (args st) (agents st) [] [] []
                 0%nat 0%nat (grid st)
                 ((λ row : list bool, (λ _ : bool, false) <$> row) <$> seen_cells st)) g)
                 0 (width st `div` 2) (height st - 2)
    | 2%nat => place_agents (set_grid (mkEnv (args st) (agents st) [] [] []
                 0%nat 0%nat (grid st)
                 ((λ row : list bool, (λ _ : bool, false) <$> row) <$> seen_cells st)) g)
                 [(1, height st - 2); (width st - 2, height st - 2)]
    | 3%nat => place_agents (set_grid (mkEnv (args st) (agents st) [] [] []
                 0%nat 0%nat (grid st)
                 ((λ row : list bool, (λ _ : bool, false) <$> row) <$> seen_cells st)) g)
                 [(1, height st - 2); (width st - 2, height st - 2);
                  (width st `div` 2, 1)]
    | 4%nat => place_agents (set_grid (mkEnv (args st) (agents st) [] [] []
                 0%nat 0%nat (grid st)
                 ((λ row : list bool, (λ _ : bool, false) <$> row) <$> seen_cells st)) g)
                 [(1, 1); (width st - 2, 1); (1, height st - 2);
                  (width st - 2, height st - 2)]
    | n => positions ← gep (width st) (height st) n;
           place_agents (set_grid (mkEnv (args st) (agents st) [] [] []
                 0%nat 0%nat (grid st)
                 ((λ row : list bool, (λ _ : bool, false) <$> row) <$> seen_cells st)) g)
                 positions
    end = Ok st1 ∧
    ∀ i a', agents st' !! i = Some a' →
            ∃ a, agents st1 !! i = Some a ∧ cur_pos a' = cur_pos a ∧
                 init_pos a' = init_pos a ∧ direction a' = direction a.
Proof.
  unfold reset. intros H.
  match type of H with
  | loop_bind ?m _ = _ => destruct m as [[[st2 r2]|e]|] eqn:E; [|done|done]
  end.
  apply gen_grid_placed in E as (g & st1 & _ & E1 & Hsa & _); [|done..].
  exists g, st1. split; [exact E1|].
  cbn [loop_bind fst snd] in H.
  destruct (observe_agents st2) as [o st3] eqn:Eo. injection H as _ <- _.
  destruct Hsa as (_ & Hags & _).
  assert (st3 = (observe_agents st2).2) as -> by by rewrite Eo.
  intros i a' (a & Ha & Hp)%observe_agents_lookup.
  exists a. by rewrite <- Hags.
Qed.

(** Where [reset] puts five agents or more: agent [i] is at the [i]-th
    position [_get_edge_positions] gives for the grid, with [init_pos] the
    same cell and direction 3.  That cell need not be an interior cell: on
    a grid of size 5 with six agents, whatever the generator draws, agent 4
    is put on (0, 3), a cell of the left wall. *)
Theorem reset_places_crowd (fuel : nat) (r : Rng) (st : Env)
    (observations : list (list Z)) (st' : Env) (r' : Rng) :
  reset _get_edge_positions fuel r st = Some (Ok (observations, st', r')) →
  (5 ≤ length (agents st))%nat →
  (∃ ps, _get_edge_positions (width st) (height st) (length (agents st)) = Ok ps ∧
         ∀ i a, agents st' !! i = Some a →
                ∃ p, ps !! i = Some p ∧ placed_at a p) ∧
  (width st = 5 → length (agents st) = 6%nat →
   ∃ a, agents st' !! 4%nat = Some a ∧ cur_pos a = (0, 3) ∧
        Grid.cells (grid st') !! (0, 3) = Some WallObj ∧
        ¬ agents_inside st').
Proof.
  intros Hreset Hn.
  pose proof Hreset as [Hlen Hargs]%reset_length_agents.
  pose proof Hreset as (((_ & _ & Hwalls & _) & _) & _)%reset_placed.
  apply reset_placed_agents in Hreset as (g & st1 & E1 & Hobs).
  destruct (length (agents st)) as [|[|[|[|[|k]]]]] eqn:Hl; try lia.
  apply bind_Ok in E1 as (ps & Hps & E1).
  pose proof (get_edge_positions_length _ _ _ _ Hps) as Hpl.
  apply place_agents_spec in E1 as (H1 & _); [|simpl; congruence].
  assert (∀ i a, agents st' !! i = Some a →
                 ∃ p, ps !! i = Some p ∧ placed_at a p) as Hplaced.
  { intros i a' (a & Ha & Hc & Hi & Hd)%Hobs.
    destruct (H1 _ _ Ha) as (p & Hp & Hpl').
    exists p. split; [done|]. unfold placed_at in *. by rewrite Hc, Hi, Hd. }
  split; [by exists ps|].
  intros Hw [= ->]. unfold height in Hps. change (grid_size (args st)) with (width st) in Hps.
  rewrite Hw in Hps. vm_compute in Hps. injection Hps as <-.
  destruct (lookup_lt_is_Some_2 (agents st') 4) as [a Ha]; [lia|].
  exists a. split; [done|].
  destruct (Hplaced _ _ Ha) as (p & [= <-] & Hc & _).
  split; [done|]. split.
  - apply Hwalls. unfold on_perimeter, width, height in *. rewrite Hargs, Hw.
    simpl. lia.
  - intros Hin. specialize (Hin _ _ Ha). rewrite Hc in Hin. simpl in Hin. lia.
Qed.

Lemma reset_places_crowd_witness :
  (∃ ps, _get_edge_positions 5 5 6 = Ok ps ∧
         ∀ i a, agents crowd_env !! i = Some a →
                ∃ p, ps !! i = Some p ∧ placed_at a p) ∧
  (5 = 5 → 6%nat = 6%nat →
   ∃ a, agents crowd_env !! 4%nat = Some a ∧ cur_pos a = (0, 3) ∧
        Grid.cells (grid crowd_env) !! (0, 3) = Some WallObj ∧
        ¬ agents_inside crowd_env).
Proof.
  apply (reset_places_crowd 1 ones crowd_start (obs <$> agents crowd_env)
           crowd_env (advance ones 0)).
  - vm_compute. reflexivity.
  - vm_compute. lia.
Defined.

Lemma edge_positions_one_per_agent_witness :
  6%nat ≠ 0%nat ∧ length (positions crowd_env) = 6%nat ∧
  positions crowd_env !! 0%nat =
    Some (edge_position 5 5 (2 * (5 - 2) + 2 * (5 - 2)) 0) ∧
  ∀ i p, positions crowd_env !! i = Some p →
         ∃ e, p = edge_position 5 5 (2 * (5 - 2) + 2 * (5 - 2)) e.
Proof.
  apply (proj2 (edge_positions_one_per_agent 5 5 6) (positions crowd_env)).
  vm_compute. reflexivity.
Defined.

(** ** The occupancy map *)

Lemma relocate_sound st i p st' :
  occupancy_sound st → relocate st i p = Ok st' → occupancy_sound st'.
Proof.
  intros Hs (a & g1 & g2 & Ha & H1 & H2 & ->)%relocate_Ok.
  apply set_agent_Ok in H1 as (_ & _ & _ & _ & Hc1).
  apply set_agent_Ok in H2 as (_ & _ & _ & _ & Hc2).
  rewrite <- !surjective_pairing in *.
  intros q j. simpl. rewrite Hc2, Hc1. intros Hq.
  apply lookup_delete_Some in Hq as [Hne Hq].
  apply lookup_insert_Some in Hq as [[<- <-]|[Hne' Hq]].
  - exists (set_cur_pos a p). split; [|done].
    apply list_lookup_insert_eq. by eapply lookup_lt_Some.
  - destruct (Hs _ _ Hq) as (b & Hb & Hpos).
    assert (j ≠ i) as Hji by (intros ->; congruence).
    exists b. split; [|done]. by rewrite list_lookup_insert_ne.
Qed.

Lemma resolve_move_sound oco st rewards i action st' rewards' :
  occupancy_sound st →
  resolve_move oco st rewards i action = Ok (st', rewards') →
  occupancy_sound st'.
Proof.
  intros Hs (a & cell & occ & _ & _ & _ & Hcase)%resolve_move_inv.
  destruct Hcase as [(_ & _ & _ & Hrel)|[(c & r & _ & _ & Hh & _)|[-> _]]];
    [by eapply relocate_sound| |done].
  apply handle_overlap_inv in Hh as (st1 & Hrel & Hags & Hgrid & _).
  eapply relocate_sound; [|exact Hrel].
  unfold occupancy_sound. by rewrite Hags, Hgrid.
Qed.

Lemma observed_sound st :
  occupancy_sound st → occupancy_sound (observe_agents (_update_seen_cells st)).2.
Proof.
  intros Hs q j Hq. destruct (Hs q j Hq) as (a & Ha & Hpos).
  unfold observe_agents. simpl. rewrite <- list_fmap_compose, list_lookup_fmap.
  change (agents (_update_seen_cells st)) with (agents st). rewrite Ha.
  by eexists.
Qed.

Lemma step_sound oco st actions r st' :
  occupancy_sound st → step oco st actions = Ok (r, st') → occupancy_sound st'.
Proof.
  intros Hs (st1 & rewards & dones0 & Hloop & _ & _ & _ & -> & _)%step_Ok.
  apply observed_sound.
  apply (step_loop_invariant oco occupancy_sound) in Hloop; [done| |done].
  intros s rw i action s' rw' Hsound Hres. by eapply resolve_move_sound.
Qed.

Lemma place_agent_sound st n x y st' :
  occupancy_sound st →
  (∀ q j, Grid.agent_cells (grid st) !! q = Some j → (j < n)%nat) →
  _place_agent st n x y = Ok st' →
  occupancy_sound st' ∧
  (∀ q j, Grid.agent_cells (grid st') !! q = Some j → (j < S n)%nat).
Proof.
  intros Hs Hlt (_ & _ & a & Ha & Hags & Hcells)%place_agent_Ok.
  split.
  - intros q j. rewrite Hcells, Hags.
    intros [[<- <-]|[Hne Hq]]%lookup_insert_Some.
    + exists (mkAgent (x, y) (x, y) 3 (obs a) (agent_goals a)). split; [|done].
      apply list_lookup_insert_eq. by eapply lookup_lt_Some.
    + destruct (Hs _ _ Hq) as (b & Hb & Hpos). specialize (Hlt _ _ Hq).
      exists b. split; [|done]. rewrite list_lookup_insert_ne; [done|lia].
  - intros q j. rewrite Hcells.
    intros [[_ <-]|[_ Hq]]%lookup_insert_Some; [lia|].
    specialize (Hlt _ _ Hq). lia.
Qed.

Lemma foldl_place_agents_sound (ps : list pos) : ∀ n st st',
  occupancy_sound st →
  (∀ q j, Grid.agent_cells (grid st) !! q = Some j → (j < n)%nat) →
  foldl (λ (r : result Env) (ip : nat * pos),
           st1 ← r; _place_agent st1 ip.1 ip.2.1 ip.2.2)
        (Ok st) (imap (λ i p, ((n + i)%nat, p)) ps) = Ok st' →
  occupancy_sound st'.
Proof.
  induction ps as [|[x y] ps IH]; intros n st st' Hs Hlt H.
  - by injection H as <-.
  - rewrite imap_cons in H. cbn [foldl] in H.
    pose proof H as (st1 & H1 & _)%foldl_place_agents_static.
    rewrite H1 in H. cbn [mbind result_bind fst snd] in H1.
    rewrite Nat.add_0_r in H1.
    apply place_agent_sound in H1 as [Hs1 Hlt1]; [|done..].
    rewrite (imap_ext _ (λ i p, ((S n + i)%nat, p))) in H
      by (intros i q _; simpl; f_equal; lia).
    by eapply IH.
Qed.

Lemma place_agents_sound st ps st' :
  Grid.agent_cells (grid st) = ∅ →
  place_agents st ps = Ok st' → occupancy_sound st'.
Proof.
  intros Hempty H. unfold place_agents in H.
  change (imap pair (take (length (agents st)) ps))
    with (imap (λ i p, ((0 + i)%nat, p)) (take (length (agents st)) ps)) in H.
  eapply foldl_place_agents_sound; [| |exact H].
  - intros q j. by rewrite Hempty, lookup_empty.
  - intros q j. by rewrite Hempty, lookup_empty.
Qed.

Lemma reset_sound gep fuel r st observations st' r' :
  reset gep fuel r st = Some (Ok (observations, st', r')) →
  occupancy_sound st'.
Proof.
  unfold reset. intros H.
  match type of H with
  | loop_bind ?m _ = _ => destruct m as [[[st2 r2]|e]|] eqn:E; [|done|done]
  end.
  apply gen_grid_placed in E as (g & st1 & Hg & E1 & Hsa & _); [|done..].
  apply wall_rect_new in Hg as (_ & _ & Hempty & _).
  assert (occupancy_sound st1) as Hs1.
  { cbn [agents] in E1.
    destruct (length (agents st)) as [|[|[|[|[|k]]]]].
    - apply bind_Ok in E1 as (ps & _ & E1). eapply place_agents_sound; [|exact E1]; exact Hempty.
    - apply place_agent_sound in E1 as [? _]; [done| |].
      + intros q j. simpl. by rewrite Hempty, lookup_empty.
      + intros q j. simpl. by rewrite Hempty, lookup_empty.
    - eapply place_agents_sound; [|exact E1]; exact Hempty.
    - eapply place_agents_sound; [|exact E1]; exact Hempty.
    - eapply place_agents_sound; [|exact E1]; exact Hempty.
    - apply bind_Ok in E1 as (ps & _ & E1). eapply place_agents_sound; [|exact E1]; exact Hempty. }
  cbn [loop_bind fst snd] in H.
  destruct (observe_agents st2) as [o st3] eqn:Eo. injection H as _ <- _.
  destruct Hsa as (_ & Hags & Hcells & _).
  intros q j Hq.
  assert (st3 = (observe_agents st2).2) as -> by by rewrite Eo.
  change (grid (observe_agents st2).2) with (grid st2) in Hq.
  rewrite Hcells in Hq. destruct (Hs1 _ _ Hq) as (a & Ha & Hpos).
  unfold observe_agents. simpl. rewrite <- list_fmap_compose, list_lookup_fmap.
  rewrite Hags, Ha. by eexists.
Qed.

(** Throughout an episode, whatever the number of agents and wherever
    [_get_edge_positions] puts them, the occupancy map has no stale entry:
    the agent it has on a cell exists and stands on that cell.  (The
    converse fails: an agent can stand on a cell where the map has another
    agent or none.) *)
Theorem occupancy_map_has_no_stale_entry (oco : bool)
    (gep : Z → Z → nat → result (list pos)) (st : Env) :
  in_episode oco gep st → occupancy_sound st.
Proof.
  induction 1 as [st fuel r observations st' r' Hreset
                 |st actions res st' _ IH Hstep].
  - by eapply reset_sound.
  - by eapply step_sound.
Qed.

Lemma occupancy_map_has_no_stale_entry_witness : occupancy_sound duo_later.
Proof.
  apply (occupancy_map_has_no_stale_entry true no_edge_positions duo_later).
  apply duo_later_in_episode.
Defined.

(** ** What a tick reports *)

Lemma observe_agents_current st :
  (observe_agents st).1 = obs_vector (observe_agents st).2
                            <$> agents (observe_agents st).2 ∧
  obs <$> agents (observe_agents st).2 = (observe_agents st).1.
Proof.
  unfold observe_agents. simpl. rewrite <- !list_fmap_compose.
  split; by apply list_fmap_ext.
Qed.

(** The observations a tick returns describe the state it leaves: the
    observation of agent [i] is the one computed from that state (with the
    moves of all the agents made and the goals they collected marked), it
    is what the agent keeps as [agent.obs], and it starts with the cell the
    agent stands on after the tick. *)
Theorem step_observations_are_current (oco : bool) (st : Env)
    (actions : list Actions) (r : StepResult) (st' : Env) :
  step oco st actions = Ok (r, st') →
  res_obs r = obs_vector st' <$> agents st' ∧
  obs <$> agents st' = res_obs r ∧
  ∀ i a, agents st' !! i = Some a →
         ∃ rest, res_obs r !! i = Some ((cur_pos a).1 :: (cur_pos a).2 :: rest).
Proof.
  intros (st1 & rewards & dones0 & _ & _ & _ & -> & -> & _)%step_Ok.
  destruct (observe_agents_current (_update_seen_cells st1)) as [H1 H2].
  split; [done|]. split; [done|].
  intros i a Ha. rewrite H1, list_lookup_fmap, Ha. simpl.
  rewrite obs_vector_slots. by eexists.
Qed.

Lemma step_observations_are_current_witness :
  res_obs duo_tick.1 = obs_vector duo_tick.2 <$> agents duo_tick.2 ∧
  obs <$> agents duo_tick.2 = res_obs duo_tick.1 ∧
  ∀ i a, agents duo_tick.2 !! i = Some a →
         ∃ rest, res_obs duo_tick.1 !! i
                 = Some ((cur_pos a).1 :: (cur_pos a).2 :: rest).
Proof.
  apply (step_observations_are_current true duo_env [up; up] duo_tick.1 duo_tick.2).
  vm_compute. reflexivity.
Defined.

Lemma step_acting_agents oco st actions r st' :
  step oco st actions = Ok (r, st') → actions ≠ [] →
  (0 < length (agents st))%nat.
Proof.
  intros (st1 & rewards & flags & Hloop & _)%step_Ok Hact.
  destruct actions as [|action rest]; [done|]. simpl in Hloop.
  apply bind_Ok in Hloop as ([st2 rw2] & (_ & _ & Hi)%resolve_move_frame & _).
  simpl in Hi. lia.
Qed.

Lemma step_dones oco st actions r st' :
  step oco st actions = Ok (r, st') →
  res_dones r = replicate (length (agents st))
                  (bool_decide (actions ≠ []) && agent_done st').
Proof.
  intros (st1 & rewards & flags & Hloop & _ & Hd & _ & -> & _)%step_Ok.
  pose proof Hloop as (_ & _ & Hlen)%step_loop_frame.
  rewrite length_replicate in Hlen. rewrite Hd, Hlen, agent_done_observed.
  rewrite (step_loop_any _ _ _ _ _ _ _ _ _ Hloop)
    by (simpl; by rewrite length_replicate).
  by rewrite any_replicate_false.
Qed.

Lemma step_info oco st actions r st' :
  step oco st actions = Ok (r, st') →
  res_info r =
    (if any (res_dones r)
     then InfoDone (num_collected st')
                   (inject_Z (Z.of_nat (num_collected st'))
                    / inject_Z (num_goals (args st')) * 100)%Q
                   (_calculate_seen_percentage st')
     else InfoRunning (_calculate_seen_percentage st')) ∧
  (any (res_dones r) = true → num_goals (args st') ≠ 0).
Proof.
  unfold step. fold (loop_start st). intros H.
  apply bind_Ok in H as ([[st1 rewards] dones0] & Hloop & H).
  apply bind_Ok in H as (info & Hinfo & H).
  injection H as <- <-. simpl.
  destruct (any _).
  - destruct (_ =? _) eqn:E; [done|]. injection Hinfo as <-.
    split; [done|]. intros _. by apply Z.eqb_neq in E.
  - by injection Hinfo as <-.
Qed.

Lemma count_collected_all gs :
  count_collected gs = length gs ↔ Forall (λ g, collected g = true) gs.
Proof.
  unfold count_collected. induction gs as [|g gs IH]; [done|].
  rewrite filter_cons. pose proof (length_filter (λ g, collected g = true) gs).
  destruct (decide (collected g = true)) as [Hg|Hg]; simpl.
  - rewrite Forall_cons. split; [intros [= H1]; split; [done|by apply IH]|].
    intros [_ H2%IH]. by rewrite H2.
  - split; [lia|]. intros [? _]%Forall_cons. done.
Qed.

(** When an episode ends.  In an episode, a tick in which some agent acts
    returns the same flag for every agent.  The flag is true exactly when
    the step cap is reached or every goal is collected; the info then
    carries the number of collected goals and their share of the goals,
    which is between 0 and 100, and otherwise only the seen-percentage. *)
Theorem episode_ends_with_goals_or_cap (oco : bool)
    (gep : Z → Z → nat → result (list pos)) (st : Env)
    (actions : list Actions) (r : StepResult) (st' : Env) :
  in_episode oco gep st →
  step oco st actions = Ok (r, st') → actions ≠ [] →
  ∃ done : bool,
    res_dones r = replicate (length (agents st)) done ∧
    (done = true ↔
     max_steps st' ≤ Z.of_nat (step_count st') ∨
     Forall (λ g, collected g = true) (goals st')) ∧
    (done = true →
     ∃ share seen, res_info r = InfoDone (count_collected (goals st')) share seen ∧
                   (0 <= share)%Q ∧ (share <= 100)%Q) ∧
    (done = false → ∃ seen, res_info r = InfoRunning seen).
Proof.
  intros Hep Hstep Hact.
  assert (in_episode oco gep st') as Hep' by (by eapply episode_step).
  apply in_episode_ok in Hep' as [[Hcnt Hcounts]%episode_counts _].
  pose proof (counted_le_goals _ Hcnt Hcounts) as Hle.
  destruct Hcounts as [Hlen _]. unfold counter_ok in Hcnt.
  pose proof (step_acting_agents _ _ _ _ _ Hstep Hact) as Hn.
  pose proof (step_dones _ _ _ _ _ Hstep) as Hd.
  rewrite bool_decide_eq_true_2 in Hd by done. simpl in Hd.
  pose proof (step_info _ _ _ _ _ Hstep) as [Hinfo Hng].
  rewrite Hd, any_replicate, bool_decide_eq_true_2 in Hinfo, Hng by lia.
  simpl in Hinfo, Hng.
  exists (agent_done st'). split; [done|]. split; [|split].
  - unfold agent_done. rewrite orb_true_iff, !Z.leb_le.
    rewrite <- count_collected_all, Hcnt.
    split; (intros [?|?]; [by left|right]); lia.
  - intros Hdone. rewrite Hdone in Hinfo. specialize (Hng Hdone).
    rewrite Hcnt in Hinfo. do 2 eexists. split; [exact Hinfo|].
    rewrite Hcnt in Hle.
    set (c := count_collected (goals st')) in *.
    set (g := num_goals (args st')) in *.
    destruct (Z_lt_le_dec g 0) as [Hneg|Hpos].
    + assert (c = 0%nat) as -> by lia. by split.
    + assert (0 < g) as Hg by lia.
      assert (Z.of_nat c ≤ g) as Hcg by lia.
      split.
      * apply Qmult_le_0_compat; [|done].
        apply Qle_shift_div_l; [by rewrite <- (Zlt_Qlt 0)|].
        rewrite Qmult_0_l, <- (Zle_Qle 0). lia.
      * apply (Qle_trans _ (1 * 100)); [|done].
        apply Qmult_le_compat_r; [|done].
        apply Qle_shift_div_r; [by rewrite <- (Zlt_Qlt 0)|].
        by rewrite Qmult_1_l, <- Zle_Qle.
  - intros Hdone. rewrite Hdone in Hinfo. by eexists.
Qed.

Lemma episode_ends_with_goals_or_cap_witness :
  ∃ done : bool,
    res_dones duo_tick.1 = replicate (length (agents duo_env)) done ∧
    (done = true ↔
     max_steps duo_tick.2 ≤ Z.of_nat (step_count duo_tick.2) ∨
     Forall (λ g, collected g = true) (goals duo_tick.2)) ∧
    (done = true →
     ∃ share seen,
       res_info duo_tick.1 = InfoDone (count_collected (goals duo_tick.2)) share seen ∧
       (0 <= share)%Q ∧ (share <= 100)%Q) ∧
    (done = false → ∃ seen, res_info duo_tick.1 = InfoRunning seen).
Proof.
  apply (episode_ends_with_goals_or_cap true no_edge_positions duo_env [up; up]
           duo_tick.1 duo_tick.2).
  - apply duo_env_in_episode.
  - vm_compute. reflexivity.
  - done.
Defined.

(** ** The moves that succeed *)

(** A move onto a goal is an overlap, whether or not another agent stands
    there.  A goal that is not collected yet is collected: it is marked and
    turns grey, [num_collected] is raised by one and the reward is the
    shaped [reward_goal].  A goal collected before is left as it is and the
    reward is the shaped [penalty_goal].  Either way the agent moves onto
    the cell and the occupancy map follows it. *)
Theorem goal_move_collects (oco : bool) (st : Env) (rewards : list Q)
    (i : nat) (action : Actions) (a : Agent) (k : nat) (g : GoalObj) :
  agents st !! i = Some a →
  Grid.get (grid st) (new_pos action (cur_pos a)).1
           (new_pos action (cur_pos a)).2 = Ok (Some (GoalRef k)) →
  goals st !! k = Some g →
  Grid.in_bounds (grid st) (cur_pos a).1 (cur_pos a).2 = true →
  ∃ st',
    resolve_move oco st rewards i action =
      Ok (st', <[i := _reward st (if collected g then penalty_goal (args st)
                                  else reward_goal (args st))]> rewards) ∧
    agents st' = <[i := set_cur_pos a (new_pos action (cur_pos a))]> (agents st) ∧
    agent_at st' (new_pos action (cur_pos a)) = Some i ∧
    agent_at st' (cur_pos a) = None ∧
    Grid.cells (grid st') = Grid.cells (grid st) ∧
    goals st' = (if collected g then goals st
                 else <[k := mkGoal (goal_cur_pos g) true grey]> (goals st)) ∧
    num_collected st' = (if collected g then num_collected st
                         else S (num_collected st)).
Proof.
  intros Ha Hc Hk Hold.
  assert (Grid.in_bounds (grid st) (new_pos action (cur_pos a)).1
            (new_pos action (cur_pos a)).2 = true) as Hp.
  { unfold Grid.get in Hc. by destruct (Grid.in_bounds _ _ _). }
  unfold resolve_move. rewrite Ha. cbn [of_option mbind result_bind].
  rewrite Hc. cbn [mbind result_bind].
  unfold Grid.get_agent. rewrite Hp. cbn [mbind result_bind].
  rewrite bool_decide_eq_false_2 by done. cbn [andb can_overlap].
  unfold _handle_overlap. rewrite Hk. cbn [of_option mbind result_bind].
  destruct (collected g); cbn [negb].
  - destruct (relocate_in_bounds st i a _ Ha Hp Hold)
      as (st' & Hr & Hag & Hcells & Hstatic & Hg & Hn).
    cbn [mbind result_bind]. rewrite Hr. cbn [mbind result_bind].
    exists st'. split; [done|]. split; [done|]. unfold agent_at. rewrite Hcells.
    split; [|split; [by rewrite lookup_delete_eq|done]].
    rewrite lookup_delete_ne by (apply not_eq_sym, new_pos_ne).
    by rewrite lookup_insert_eq.
  - cbn [mbind result_bind].
    match goal with |- context [relocate ?s i ?p] =>
      destruct (relocate_in_bounds s i a p Ha Hp Hold)
        as (st' & Hr & Hag & Hcells & Hstatic & Hg & Hn)
    end.
    rewrite Hr. cbn [mbind result_bind].
    exists st'. split; [done|]. split; [done|]. unfold agent_at. rewrite Hcells.
    split; [|split; [by rewrite lookup_delete_eq|done]].
    rewrite lookup_delete_ne by (apply not_eq_sym, new_pos_ne).
    by rewrite lookup_insert_eq.
Qed.

(** The first agent of [duo_tick], at (1, 2), walks right onto the goal of
    (2, 2), which is not collected yet. *)
Lemma goal_move_collects_witness :
  ∃ st',
    resolve_move true duo_tick.2 [0%Q; 0%Q] 0 right =
      Ok (st', <[0%nat := _reward duo_tick.2
                            (if collected (mkGoal (2, 2) false green)
                             then penalty_goal (args duo_tick.2)
                             else reward_goal (args duo_tick.2))]> [0%Q; 0%Q]) ∧
    agents st' =
      <[0%nat := set_cur_pos (first_agent duo_tick.2)
                   (new_pos right (cur_pos (first_agent duo_tick.2)))]>
        (agents duo_tick.2) ∧
    agent_at st' (new_pos right (cur_pos (first_agent duo_tick.2))) = Some 0%nat ∧
    agent_at st' (cur_pos (first_agent duo_tick.2)) = None ∧
    Grid.cells (grid st') = Grid.cells (grid duo_tick.2) ∧
    goals st' = (if collected (mkGoal (2, 2) false green) then goals duo_tick.2
                 else <[0%nat := mkGoal (goal_cur_pos (mkGoal (2, 2) false green))
                                   true grey]> (goals duo_tick.2)) ∧
    num_collected st' = (if collected (mkGoal (2, 2) false green)
                         then num_collected duo_tick.2
                         else S (num_collected duo_tick.2)).
Proof.
  apply (goal_move_collects true duo_tick.2 [0%Q; 0%Q] 0 right
           (first_agent duo_tick.2) 0 (mkGoal (2, 2) false green));
    vm_compute; reflexivity.
Defined.

(** A move onto a cell with no content and no agent, on a grid of the
    configured size: the agent moves there, the occupancy map follows it, no
    reward is set, and nothing else changes. *)
Theorem free_move_relocates (oco : bool) (st : Env) (rewards : list Q)
    (i : nat) (action : Actions) (a : Agent) :
  grid_dims_ok st →
  agents st !! i = Some a →
  Grid.get (grid st) (new_pos action (cur_pos a)).1
           (new_pos action (cur_pos a)).2 = Ok None →
  Grid.get_agent (grid st) (new_pos action (cur_pos a)).1
                 (new_pos action (cur_pos a)).2 = Ok None →
  Grid.in_bounds (grid st) (cur_pos a).1 (cur_pos a).2 = true →
  ∃ st',
    resolve_move oco st rewards i action = Ok (st', rewards) ∧
    agents st' = <[i := set_cur_pos a (new_pos action (cur_pos a))]> (agents st) ∧
    agent_at st' (new_pos action (cur_pos a)) = Some i ∧
    agent_at st' (cur_pos a) = None ∧
    Grid.cells (grid st') = Grid.cells (grid st) ∧
    goals st' = goals st ∧ num_collected st' = num_collected st.
Proof.
  intros [Hw Hh] Ha Hc Ho Hold.
  assert (Grid.in_bounds (grid st) (new_pos action (cur_pos a)).1
            (new_pos action (cur_pos a)).2 = true) as Hp.
  { unfold Grid.get in Hc. by destruct (Grid.in_bounds _ _ _). }
  destruct (relocate_in_bounds st i a _ Ha Hp Hold)
    as (st' & Hr & Hag & Hcells & Hstatic & Hg & Hn).
  exists st'. unfold resolve_move. rewrite Ha. cbn [of_option mbind result_bind].
  rewrite Hc, Ho. cbn [mbind result_bind].
  rewrite !bool_decide_eq_true_2 by done.
  pose proof Hp as Hp'. unfold Grid.in_bounds in Hp'. rewrite Hw, Hh in Hp'.
  cbn [andb]. rewrite Hp'. rewrite Hr. cbn [mbind result_bind].
  split; [done|]. split; [done|]. unfold agent_at. rewrite Hcells.
  split; [|split; [by rewrite lookup_delete_eq|done]].
  rewrite lookup_delete_ne by (apply not_eq_sym, new_pos_ne).
  by rewrite lookup_insert_eq.
Qed.

(** The first agent of [duo_env], at (1, 3), walks up to (1, 2). *)
Lemma free_move_relocates_witness :
  ∃ st',
    resolve_move true duo_env [0%Q; 0%Q] 0 up = Ok (st', [0%Q; 0%Q]) ∧
    agents st' =
      <[0%nat := set_cur_pos (first_agent duo_env)
                   (new_pos up (cur_pos (first_agent duo_env)))]>
        (agents duo_env) ∧
    agent_at st' (new_pos up (cur_pos (first_agent duo_env))) = Some 0%nat ∧
    agent_at st' (cur_pos (first_agent duo_env)) = None ∧
    Grid.cells (grid st') = Grid.cells (grid duo_env) ∧
    goals st' = goals duo_env ∧ num_collected st' = num_collected duo_env.
Proof.
  apply (free_move_relocates true duo_env [0%Q; 0%Q] 0 up (first_agent duo_env));
    [split|..]; vm_compute; reflexivity.
Defined.

(** ** What [reset] reports *)

Lemma lookup2_cleared (m : list (list bool)) (a b : nat) (v : bool) :
  lookup2 ((λ row : list bool, (λ _ : bool, false) <$> row) <$> m) a b = Some v →
  v = false.
Proof.
  unfold lookup2. rewrite list_lookup_fmap.
  destruct (m !! a) as [row|]; [|done]. simpl. rewrite list_lookup_fmap.
  destruct (row !! b); [|done]. by intros [= <-].
Qed.

(** [reset] starts the count of ticks at zero and clears the coverage
    matrix, and it does not run the coverage pass: when it returns, no cell
    is seen, not even the cells the agents stand on, and on a grid wider
    than 2, where the interior has a cell to divide by, the seen-percentage
    is 0.  The observations it returns are those of the state it leaves,
    and each agent keeps its own as [agent.obs]. *)
Theorem reset_starts_afresh (gep : Z → Z → nat → result (list pos))
    (fuel : nat) (r : Rng) (st : Env) (observations : list (list Z))
    (st' : Env) (r' : Rng) :
  reset gep fuel r st = Some (Ok (observations, st', r')) →
  step_count st' = 0%nat ∧
  (∀ a b v, lookup2 (seen_cells st') a b = Some v → v = false) ∧
  (2 < width st' → (_calculate_seen_percentage st' == 0)%Q) ∧
  observations = obs_vector st' <$> agents st' ∧
  obs <$> agents st' = observations.
Proof.
  intros Hreset.
  pose proof Hreset as (_ & Hsc & _ & _ & Hsum & _)%reset_well_formed.
  unfold reset in Hreset.
  match type of Hreset with
  | loop_bind ?m _ = _ => destruct m as [[[st1 r1]|e]|] eqn:E; [|done|done]
  end.
  apply gen_grid_frame in E as (_ & Hseen & _).
  cbn [loop_bind fst snd] in Hreset.
  destruct (observe_agents_current st1) as [H1 H2].
  destruct (observe_agents st1) as [o st2] eqn:Eo. injection Hreset as <- <- _.
  split; [done|]. split; [|split; [|by split]].
  - intros a b v. assert (seen_cells st2 = seen_cells st1) as ->.
    { unfold observe_agents in Eo. by injection Eo as _ <-. }
    rewrite Hseen. apply lookup2_cleared.
  - intros _. unfold _calculate_seen_percentage. rewrite Hsum. unfold Qdiv.
    by rewrite !Qmult_0_l.
Qed.

Lemma reset_starts_afresh_witness :
  step_count duo_env = 0%nat ∧
  (∀ a b v, lookup2 (seen_cells duo_env) a b = Some v → v = false) ∧
  (2 < width duo_env → (_calculate_seen_percentage duo_env == 0)%Q) ∧
  obs <$> agents duo_env = obs_vector duo_env <$> agents duo_env ∧
  obs <$> agents duo_env = obs <$> agents duo_env.
Proof.
  apply (reset_starts_afresh no_edge_positions 1 ones_then_zeros duo_start
           (obs <$> agents duo_env) duo_env (advance ones_then_zeros 4)).
  vm_compute. reflexivity.
Defined.

(** ** More actions than agents *)

Lemma step_loop_too_long oco actions : ∀ i s,
  static_ok s.1.1 → agents_inside s.1.1 →
  (i ≤ length (agents s.1.1))%nat →
  (length (agents s.1.1) < i + length actions)%nat →
  step_loop oco i actions s = Err IndexError.
Proof.
  induction actions as [|action rest IH]; intros i s Hok Hin Hi Hlen;
    simpl in Hlen; [lia|].
  cbn [step_loop].
  destruct (decide (i = length (agents s.1.1))) as [->|Hne].
  - unfold resolve_move.
    rewrite (proj2 (lookup_ge_None (agents s.1.1) _)) by lia. done.
  - destruct (resolve_move_returns oco s.1.1 s.1.2 i action Hok Hin ltac:(lia))
      as ([st1 rw1] & Hres).
    rewrite Hres. cbn [mbind result_bind].
    pose proof Hres as Hok1%resolve_move_static; [|done].
    pose proof Hres as Hin1%resolve_move_inside; [|done..].
    pose proof Hres as ((_ & _ & _ & Hl & _) & _)%resolve_move_frame.
    apply IH; simpl; [done|done|lia|lia].
Qed.

(** With more actions than agents [step] raises an IndexError, where the
    world is consistent and the agents stand on interior cells: the agents
    all move, then [self.agents[i]] is read past the end of the list. *)
Theorem too_many_actions_raise (oco : bool) (st : Env) (actions : list Actions) :
  static_ok st → agents_inside st →
  (length (agents st) < length actions)%nat →
  step oco st actions = Err IndexError.
Proof.
  intros Hok Hin Hlen. unfold step. fold (loop_start st).
  rewrite (step_loop_too_long oco actions 0 (loop_start st)); try done.
  simpl. lia.
Qed.

Lemma too_many_actions_raise_witness :
  step true duo_env [up; up; up] = Err IndexError.
Proof.
  apply (too_many_actions_raise true duo_env [up; up; up]).
  - apply duo_env_static.
  - apply duo_env_inside.
  - vm_compute. lia.
Defined.
